(** * seo_generate: the asynchronous article pipeline

    A shallow embedding of the task queue ([internal/services/queue_service.go]),
    the generation orchestrator and article assembler
    ([internal/services/content_service.go]) and the content filter
    ([pkg/ai/deepseek.go]), with the properties the specification states
    about them.

    Go strings are byte sequences; the functions of the Go standard
    library the code calls ([strings], [unicode/utf8], [unicode]) are
    modelled on bytes and runes as the library documents them. *)

From Stdlib Require Import ZArith Lia Strings.String Strings.Ascii.
From stdpp Require Import base option list gmap.

Local Open Scope Z_scope.
Local Set Warnings "-clear-no-such-hyp".

(** ** Go strings *)

(** A byte is a value in [0, 256); a rune is an [int32] code point. *)
Abbreviation byte := Z (only parsing).
Abbreviation rune := Z (only parsing).
Abbreviation gostring := (list Z) (only parsing).

(** A string literal of the source, as its UTF-8 bytes. *)
Definition lit (s : string) : gostring :=
  map (fun a => Z.of_N (N_of_ascii a)) (list_ascii_of_string s).
Arguments lit : simpl never.

(** [len(s)]: the number of bytes. *)
Definition len (s : gostring) : Z := Z.of_nat (length s).

(** [s[:n]] for [0 <= n <= len(s)]. *)
Definition slice_to (s : gostring) (n : Z) : gostring := take (Z.to_nat n) s.

(** ** Package [unicode/utf8] *)
Module utf8.

Definition RuneError : rune := 0xFFFD.
Definition RuneSelf : Z := 0x80.
Definition MaxRune : rune := 0x10FFFF.

Definition between (lo hi x : Z) : bool := (lo <=? x) && (x <=? hi).

(** A Unicode scalar value: what a well-formed encoding can hold. *)
Definition scalar (r : rune) : bool :=
  between 0 0xD7FF r || between 0xE000 MaxRune r.

(** [EncodeRune]/[AppendRune]: the bytes [WriteRune] appends. Values
    that are not scalar are written as [RuneError]. [r / 64] is [r >> 6]
    and [r mod 64] is [r & 0x3F]. *)
Definition EncodeRune (r : rune) : gostring :=
  if between 0 0x7F r then [r]
  else if between 0x80 0x7FF r then [0xC0 + r / 64; 0x80 + r mod 64]
  else if negb (scalar r) then [0xEF; 0xBF; 0xBD]
  else if r <=? 0xFFFF then
    [0xE0 + r / 4096; 0x80 + (r / 64) mod 64; 0x80 + r mod 64]
  else
    [0xF0 + r / 262144; 0x80 + (r / 4096) mod 64;
     0x80 + (r / 64) mod 64; 0x80 + r mod 64].

(** The range accepted for the second byte, by first byte. *)
Definition accept_lo (b0 : byte) : Z :=
  if b0 =? 0xE0 then 0xA0 else if b0 =? 0xF0 then 0x90 else 0x80.
Definition accept_hi (b0 : byte) : Z :=
  if b0 =? 0xED then 0x9F else if b0 =? 0xF4 then 0x8F else 0xBF.

Definition cont (b : byte) : bool := between 0x80 0xBF b.

(** [DecodeRuneInString]: the first rune and its width in bytes; an
    ill-formed or truncated sequence gives [(RuneError, 1)]. *)
Definition DecodeRune (s : gostring) : rune * nat :=
  match s with
  | [] => (RuneError, 0%nat)
  | b0 :: s1 =>
    if between 0 0x7F b0 then (b0, 1%nat)
    else if between 0xC2 0xDF b0 then
      match s1 with
      | b1 :: _ =>
        if cont b1 then ((b0 - 0xC0) * 64 + (b1 - 0x80), 2%nat)
        else (RuneError, 1%nat)
      | _ => (RuneError, 1%nat)
      end
    else if between 0xE0 0xEF b0 then
      match s1 with
      | b1 :: b2 :: _ =>
        if between (accept_lo b0) (accept_hi b0) b1 && cont b2
        then ((b0 - 0xE0) * 4096 + (b1 - 0x80) * 64 + (b2 - 0x80), 3%nat)
        else (RuneError, 1%nat)
      | _ => (RuneError, 1%nat)
      end
    else if between 0xF0 0xF4 b0 then
      match s1 with
      | b1 :: b2 :: b3 :: _ =>
        if between (accept_lo b0) (accept_hi b0) b1 && cont b2 && cont b3
        then ((b0 - 0xF0) * 262144 + (b1 - 0x80) * 4096
              + (b2 - 0x80) * 64 + (b3 - 0x80), 4%nat)
        else (RuneError, 1%nat)
      | _ => (RuneError, 1%nat)
      end
    else (RuneError, 1%nat)
  end.

(** [for i, r := range s]: the runes of [s] in order, each with the
    bytes it was decoded from. [skip] counts the bytes of the current
    rune still to be passed over. *)
Fixpoint range_from (skip : nat) (s : gostring) : list (rune * gostring) :=
  match s with
  | [] => []
  | _ :: s' =>
    match skip with
    | S k => range_from k s'
    | O =>
      let '(r, n) := DecodeRune s in
      (r, take n s) :: range_from (n - 1) s'
    end
  end.

Definition range (s : gostring) : list (rune * gostring) := range_from 0 s.

Definition runes (s : gostring) : list rune := map fst (range s).

(** A decoded element that stands for an ill-formed byte. *)
Definition ill_formed (c : rune * gostring) : bool :=
  (c.1 =? RuneError) && (length c.2 =? 1)%nat.

Definition ValidString (s : gostring) : bool :=
  forallb (fun c => negb (ill_formed c)) (range s).

End utf8.

(** ** Package [unicode] *)
Module unicode.

Import utf8.

Definition MaxASCII : rune := 0x7F.
Definition MaxLatin1 : rune := 0xFF.

(** [IsControl]: category Cc, which lies within Latin-1. *)
Definition IsControl (r : rune) : bool :=
  between 0 0x1F r || between 0x7F 0x9F r.

(** [IsSpace]: the White_Space property. *)
Definition IsSpace (r : rune) : bool :=
  if between 0 MaxLatin1 r then
    between 9 13 r || (r =? 32) || (r =? 0x85) || (r =? 0xA0)
  else
    (r =? 0x1680) || between 0x2000 0x200A r || between 0x2028 0x2029 r
    || (r =? 0x202F) || (r =? 0x205F) || (r =? 0x3000).

(** [IsPrint]: letters, marks, numbers, punctuation, symbols and the
    ASCII space. Within Latin-1 these are U+0020..U+007E and
    U+00A1..U+00FF without the soft hyphen U+00AD; above Latin-1 the
    answer is that of the library's range tables, [PrintRanges]. *)
Definition IsPrint (PrintRanges : rune -> bool) (r : rune) : bool :=
  if between 0 MaxLatin1 r then
    between 0x20 0x7E r || (between 0xA1 0xFF r && negb (r =? 0xAD))
  else PrintRanges r.

(** [ToLower]: within ASCII the letters A..Z move to a..z; above ASCII
    the image is that of the library's case tables, [LowerCase]. *)
Definition ToLower (LowerCase : rune -> rune) (r : rune) : rune :=
  if r <=? MaxASCII then
    if between 65 90 r then r + 32 else r
  else LowerCase r.

End unicode.

(** ** Package [strings] *)
Module strings.

Fixpoint HasPrefix (s prefix : gostring) : bool :=
  match prefix, s with
  | [], _ => true
  | p :: prefix', b :: s' => (b =? p) && HasPrefix s' prefix'
  | _ :: _, [] => false
  end.

Definition TrimPrefix (s prefix : gostring) : gostring :=
  if HasPrefix s prefix then drop (length prefix) s else s.

Fixpoint Contains (s substr : gostring) : bool :=
  HasPrefix s substr ||
  match s with
  | [] => false
  | _ :: s' => Contains s' substr
  end.

(** [ReplaceAll(s, old, new)] for a non-empty [old]: non-overlapping
    occurrences are replaced from the left. [skip] counts the bytes of a
    matched occurrence still to be passed over. *)
Fixpoint replace_from (skip : nat) (s old new : gostring) : gostring :=
  match s with
  | [] => []
  | b :: s' =>
    match skip with
    | S k => replace_from k s' old new
    | O =>
      if HasPrefix s old
      then new ++ replace_from (length old - 1) s' old new
      else b :: replace_from 0 s' old new
    end
  end.

Definition ReplaceAll (s old new : gostring) : gostring := replace_from 0 s old new.

(** [Split(s, sep)] for a one-byte separator. *)
Fixpoint Split (s : gostring) (sep : byte) : list gostring :=
  match s with
  | [] => [[]]
  | b :: s' =>
    if b =? sep then [] :: Split s' sep
    else match Split s' sep with
         | l :: ls => (b :: l) :: ls
         | [] => [[b]]
         end
  end.

(** [Join(elems, sep)]. *)
Fixpoint Join (elems : list gostring) (sep : gostring) : gostring :=
  match elems with
  | [] => []
  | [e] => e
  | e :: elems' => e ++ sep ++ Join elems' sep
  end.

(** [TrimLeft], [TrimRight] and [Trim] for a cutset of ASCII bytes. *)
Definition in_cutset (cutset : gostring) (b : byte) : bool :=
  existsb (Z.eqb b) cutset.

Fixpoint TrimLeft (s cutset : gostring) : gostring :=
  match s with
  | [] => []
  | b :: s' => if in_cutset cutset b then TrimLeft s' cutset else s
  end.

Definition TrimRight (s cutset : gostring) : gostring :=
  rev (TrimLeft (rev s) cutset).

Definition Trim (s cutset : gostring) : gostring :=
  TrimRight (TrimLeft s cutset) cutset.

(** [ToValidUTF8(s, replacement)] with the empty replacement: runs of ill-formed bytes are removed. *)
Definition ToValidUTF8 (s : gostring) : gostring :=
  flat_map (fun c => if utf8.ill_formed c then [] else c.2) (utf8.range s).

(** [Map(mapping, s)]: every rune of [s] is replaced by its
    image, written in UTF-8; a negative image drops the rune. *)
Definition Map (mapping : rune -> rune) (s : gostring) : gostring :=
  flat_map (fun c => let r := mapping c.1 in
                     if r <? 0 then [] else utf8.EncodeRune r)
           (utf8.range s).

(** [ToLower(s)]: every rune mapped to lower case. *)
Definition ToLower (LowerCase : rune -> rune) (s : gostring) : gostring :=
  Map (unicode.ToLower LowerCase) s.

(** [TrimSpace(s)]: leading and trailing white-space runes removed. The
    runes are those of the left-to-right decoding; the callers pass
    well-formed UTF-8, where decoding from the right end finds the same
    runes. *)
Fixpoint drop_spaces (cs : list (rune * gostring)) : list (rune * gostring) :=
  match cs with
  | [] => []
  | c :: cs' => if unicode.IsSpace c.1 then drop_spaces cs' else cs
  end.

Definition TrimSpace (s : gostring) : gostring :=
  concat (map snd (rev (drop_spaces (rev (drop_spaces (utf8.range s)))))).

End strings.


(** What a sequence of [WriteRune] calls appends to a builder. *)
Definition write_runes (rs : list Z) : gostring := flat_map utf8.EncodeRune rs.

(** ** Package [strconv]/[fmt]: the verb [%d] *)

(** Decimal digits, most significant first; twenty digits cover every
    64-bit value. *)
Fixpoint digits (fuel : nat) (n : Z) (acc : gostring) : gostring :=
  match fuel with
  | O => acc
  | S fuel' =>
    let acc' := (48 + n mod 10) :: acc in
    if n / 10 =? 0 then acc' else digits fuel' (n / 10) acc'
  end.

Definition itoa (n : Z) : gostring :=
  if n <? 0 then 45 :: digits 20 (- n) [] else digits 20 n [].

(** ** The article assembler ([content_service.go], [deepseek.go]) *)

Section Assembler.

(** The range and case tables of package [unicode] above Latin-1. *)
Variable PrintRanges : rune -> bool.
Variable LowerCase : rune -> rune.

Definition newline : gostring := [10].

(** [ai.FilterContent]. *)
Definition FilterContent (content : gostring) : gostring :=
  let content :=
    flat_map (fun c : rune * gostring =>
                let r := c.1 in
                if unicode.IsPrint PrintRanges r || (r =? 10) || (r =? 9)
                then utf8.EncodeRune r
                else utf8.EncodeRune 32 (* ' ' *))
             (utf8.range content) in
  let content :=
    if negb (utf8.ValidString content) then strings.ToValidUTF8 content
    else content in
  strings.Map (fun r => if unicode.IsControl r && negb (r =? 10) && negb (r =? 9)
                        then -1 else r)
              content.

(** What the first loop of [FilterContent] writes for a rune, and the
    runes it writes unchanged. *)
Definition passes_filter (r : rune) : bool :=
  unicode.IsPrint PrintRanges r || (r =? 10) || (r =? 9).

Definition filter_image (r : rune) : rune :=
  if passes_filter r then r else 32.

(** The loop variables of [parseArticle]. *)
Record parse_state := {
  title : gostring;
  contentLines : list gostring;
  contentStarted : bool
}.

Definition is_empty (s : gostring) : bool :=
  match s with [] => true | _ => false end.

(** One iteration of the loop over [lines]. *)
Definition parse_line (st : parse_state) (raw : gostring) : parse_state :=
  let line := strings.TrimSpace raw in
  if is_empty line then
    if contentStarted st
    then {| title := title st;
            contentLines := contentLines st ++ [[]];
            contentStarted := contentStarted st |}
    else st
  else if strings.HasPrefix line (lit "# ") then
    {| title := strings.TrimPrefix line (lit "# ");
       contentLines := contentLines st;
       contentStarted := true |}
  else if is_empty (title st) && negb (is_empty line) then
    {| title := line;
       contentLines := contentLines st;
       contentStarted := true |}
  else
    {| title := title st;
       contentLines := contentLines st ++ [raw];
       contentStarted := true |}.

Definition default_title : gostring := lit "养生健康文章".

Definition printable_only (r : rune) : rune :=
  if unicode.IsPrint PrintRanges r && negb (unicode.IsControl r) then r else -1.

Definition parseArticle (content : gostring) : gostring * gostring :=
  let content :=
    if negb (utf8.ValidString content) then strings.ToValidUTF8 content
    else content in
  let lines := strings.Split content 10 in
  let st := fold_left parse_line lines
              {| title := []; contentLines := []; contentStarted := false |} in
  let title := if is_empty (title st) then default_title else title st in
  let title := strings.Map printable_only title in
  let title := if 100 <? len title then slice_to title 100 else title in
  (title, strings.Join (contentLines st) newline).

(** [generateSummary]. *)
Definition generateSummary (content : gostring) : gostring :=
  let content := strings.ReplaceAll content newline (lit " ") in
  if 300 <? len content then slice_to content 300 ++ lit "..." else content.

(** The loop [for strings.Contains(slug, "--") { ... }] of
    [generateSlug]; every round shortens the slug, so [length slug]
    rounds are enough. *)
Fixpoint collapse_hyphens (fuel : nat) (slug : gostring) : gostring :=
  match fuel with
  | O => slug
  | S fuel' =>
    if strings.Contains slug (lit "--")
    then collapse_hyphens fuel' (strings.ReplaceAll slug (lit "--") (lit "-"))
    else slug
  end.

Definition ascii_only (r : rune) : rune := if r <? 128 then r else -1.

Definition slug_char (r : rune) : rune :=
  if utf8.between 97 122 r || utf8.between 48 57 r || (r =? 45) then r else -1.

(** The slug before the emptiness test. *)
Definition slug_core (title : gostring) : gostring :=
  let title :=
    if negb (utf8.ValidString title) then strings.ToValidUTF8 title
    else title in
  let slug := strings.ToLower LowerCase title in
  let slug := strings.Map ascii_only slug in
  let slug := strings.ReplaceAll slug (lit " ") (lit "-") in
  let slug := strings.Map slug_char slug in
  let slug := collapse_hyphens (length slug) slug in
  strings.Trim slug (lit "-").

(** [generateSlug]; [now] is [time.Now().Unix()]. *)
Definition generateSlug (now : Z) (title : gostring) : gostring :=
  let slug := slug_core title in
  let slug := if is_empty slug then lit "article-" ++ itoa now else slug in
  if 100 <? len slug
  then strings.TrimRight (slice_to slug 100) (lit "-")
  else slug.

(** The mapping [GenerateArticle] applies to title, content and summary
    before the article is stored. *)
Definition storage_filter (r : rune) : rune :=
  if (r <? 32) || ((126 <? r) && (r <? 256)) then -1 else r.

End Assembler.

(** *** [parseArticle], described

    What the loop of [parseArticle] comes to, line by line: a line is
    blank when trimming leaves nothing, and a top-level heading when
    what trimming leaves starts with "# ". *)
Definition blank_line (raw : list Z) : bool := is_empty (strings.TrimSpace raw).

Definition heading_line (raw : list Z) : bool :=
  strings.HasPrefix (strings.TrimSpace raw) (lit "# ").

Definition heading_text (raw : list Z) : list Z :=
  strings.TrimPrefix (strings.TrimSpace raw) (lit "# ").

Fixpoint skip_blank (lines : list (list Z)) : list (list Z) :=
  match lines with
  | [] => []
  | raw :: lines' => if blank_line raw then skip_blank lines' else lines
  end.

Definition described_title (lines : list (list Z)) : list Z :=
  match skip_blank lines with
  | [] => default_title
  | first :: rest =>
    match last (List.filter heading_line (first :: rest)) with
    | Some h => heading_text h
    | None => strings.TrimSpace first
    end
  end.

Definition described_body (lines : list (list Z)) : list (list Z) :=
  match skip_blank lines with
  | [] => []
  | first :: rest =>
    map (fun raw => if blank_line raw then [] else raw)
        (List.filter (fun raw => negb (heading_line raw)) rest)
  end.

(** The runes [storage_filter] keeps. *)
Definition stored_rune (r : rune) : bool :=
  negb ((r <? 32) || ((126 <? r) && (r <? 256))).

(** The pattern [^[a-z0-9]+(-[a-z0-9]+)*$] as its automaton: [in_word]
    holds after a letter or digit and is the accepting state. *)
Definition alnum (b : byte) : bool :=
  utf8.between 97 122 b || utf8.between 48 57 b.

Fixpoint slug_re_from (in_word : bool) (s : gostring) : bool :=
  match s with
  | [] => in_word
  | b :: s' =>
    if alnum b then slug_re_from true s'
    else if (b =? 45) && in_word then slug_re_from false s'
    else false
  end.

Definition matches_slug_re (s : gostring) : bool := slug_re_from false s.

Definition is_digit (b : byte) : bool := utf8.between 48 57 b.

(** A slug made of letters, digits and hyphens only, with no two
    hyphens in a row and none at either end. *)
Definition well_trimmed (s : list Z) : Prop :=
  Forall (fun b => alnum b || (b =? 45) = true) s
  /\ strings.Contains s (lit "--") = false
  /\ (forall b, head s = Some b -> b <> 45)
  /\ (forall b, last s = Some b -> b <> 45).

(** ** Errors and results *)

(** A Go [error]: a message, or an error wrapped with [%w] behind a
    prefix. *)
Inductive error :=
| errorString (msg : gostring)
| wrapError (prefix : gostring) (cause : error).

(** [err.Error()]. *)
Fixpoint Error_text (e : error) : gostring :=
  match e with
  | errorString msg => msg
  | wrapError prefix cause => prefix ++ Error_text cause
  end.

(** [fmt.Errorf(prefix + "%v", err)] and [fmt.Errorf(prefix + "%s", s)]. *)
Definition Errorf_v (prefix : gostring) (cause : error) : error :=
  errorString (prefix ++ Error_text cause).

Inductive result (A : Type) :=
| Ok (a : A)
| Err (e : error).
Arguments Ok {A} a.
Arguments Err {A} e.

(** ** Data model ([internal/models], [queue_service.go]) *)

Record Keyword := {
  kw_ID : Z;
  kw_Word : gostring
}.

Record Article := {
  art_ID : Z;
  art_Title : gostring;
  art_Slug : gostring;
  art_Content : gostring;
  art_Summary : gostring;
  art_MetaTitle : gostring;
  art_MetaDesc : gostring;
  art_Status : gostring;
  art_UserID : option Z
}.

(** The row [GenerateArticle] keeps in the database for one generation. *)
Record GenerationRow := {
  row_KeywordID : Z;
  row_Status : gostring;
  row_Prompt : gostring
}.

(** [type TaskStatus string] and its four constants. *)
Definition TaskStatusPending : gostring := lit "pending".
Definition TaskStatusRunning : gostring := lit "running".
Definition TaskStatusCompleted : gostring := lit "completed".
Definition TaskStatusFailed : gostring := lit "failed".

(** [services.GenerationTask]; times are in nanoseconds. *)
Record GenerationTask := {
  ID : gostring;
  KeywordID : Z;
  CategoryIDs : list Z;
  Status : gostring;
  Error : gostring;
  CreatedAt : Z;
  UpdatedAt : Z;
  UserID : Z
}.

Definition set_times (t : GenerationTask) (st : gostring) (created updated : Z)
  : GenerationTask :=
  {| ID := ID t; KeywordID := KeywordID t; CategoryIDs := CategoryIDs t;
     Status := st; Error := Error t;
     CreatedAt := created; UpdatedAt := updated; UserID := UserID t |}.

Definition set_status (t : GenerationTask) (st : gostring) (updated : Z)
  : GenerationTask :=
  set_times t st (CreatedAt t) updated.

Definition set_failed (t : GenerationTask) (msg : gostring) : GenerationTask :=
  {| ID := ID t; KeywordID := KeywordID t; CategoryIDs := CategoryIDs t;
     Status := TaskStatusFailed; Error := msg;
     CreatedAt := CreatedAt t; UpdatedAt := UpdatedAt t; UserID := UserID t |}.

(** The part of [config.Config] the pipeline reads. *)
Record Config := {
  AI_Timeout : Z;
  ArticleMinLength : Z;
  ArticleMaxLength : Z
}.

(** ** The queue store *)

(** What [json.Unmarshal] finds in a stored value: a marshalled task,
    or bytes that do not parse. Marshalling a task and parsing it again
    is taken to give the task back, which [encoding/json] does when
    the strings of the task are valid UTF-8 (for a byte that is not, it
    writes U+FFFD); of a parse error only the fact is kept, not the
    message. *)
Inductive payload :=
| Marshalled (t : GenerationTask)
| Malformed (raw : gostring).

Definition Unmarshal (p : payload) : result GenerationTask :=
  match p with
  | Marshalled t => Ok t
  | Malformed raw => Err (errorString (lit "invalid character"))
  end.

(** The list [article:queue] (head first), the set [article:set] and
    the keys [task:<id>]. A key that has expired is absent. *)
Record Redis := {
  queue : list payload;
  members : gset (list Z);
  keys : gmap (list Z) payload
}.

Definition ArticleQueueKey : gostring := lit "article:queue".
Definition ArticleSetKey : gostring := lit "article:set".

Definition task_key (taskID : gostring) : gostring := lit "task:" ++ taskID.

(** Twenty-four hours, in nanoseconds. *)
Definition retention : Z := 24 * 3600 * 1000000000.

(** ** The world outside the process *)

Inductive provider := DeepSeek | Ollama.

(** How a call of a provider client goes. *)
Inductive call_outcome :=
| MarshalFails (e : error)
| NewRequestFails (e : error)
| DoFails (e : error)
| ReadAllFails (status : Z) (e : error)
| Responded (status : Z) (body : gostring).

Inductive db_op :=
| DbCreateRow (row : GenerationRow)
| DbUpdateRow (fields : list (gostring * gostring))
| DbFirstKeyword (id : Z)
| DbBegin
| DbCreateArticle (a : Article)
| DbAppendKeyword (a : Article) (k : Keyword)
| DbFindCategories (ids : list Z)
| DbAppendCategories (a : Article) (ids : list Z)
| DbCompleteRow (articleID : Z)
| DbRollback
| DbCommit
| DbSaveArticle (a : Article).

(** Everything the process does to the outside, in order. *)
Inductive event :=
| EvNow
| EvDone
| EvPipeline (t : GenerationTask)
| EvSIsMember (taskID : gostring)
| EvGet (key : gostring)
| EvBLPop
| EvSet (key : gostring) (t : GenerationTask) (ttl : Z)
| EvDb (op : db_op)
| EvGenerate (p : provider) (timeout : Z) (prompt : gostring).

(** The answers of the outside. Every answer may depend on how many
    events came before it. *)
Record Env := {
  clock : nat -> Z;
  ctx_done : nat -> bool;
  redis_fault : nat -> option error;
  db_fault : nat -> option error;
  db_keyword : nat -> Z -> result Keyword;
  db_new_id : nat -> Z;
  http_do : nat -> provider -> Z -> gostring -> call_outcome;
  json_chat : gostring -> result (list gostring);
  json_generate : gostring -> result gostring
}.

Record World := {
  redis : Redis;
  log : list event
}.

(** ** State passing *)

Definition M (A : Type) : Type := World -> A * World.

Definition ret {A} (a : A) : M A := fun w => (a, w).

Definition bind {A B} (m : M A) (k : A -> M B) : M B :=
  fun w => let '(a, w') := m w in k a w'.

Notation "x <- m ;; k" := (bind m (fun x => k))
  (at level 90, m at level 89, right associativity).
Notation "m ;;; k" := (bind m (fun _ => k))
  (at level 90, right associativity).

(** Record an event; the result is its position, at which the outside
    answers. *)
Definition emit (e : event) : M nat :=
  fun w => (length (log w), {| redis := redis w; log := log w ++ [e] |}).

Definition get_redis : M Redis := fun w => (redis w, w).

Definition put_redis (r : Redis) : M unit :=
  fun w => (tt, {| redis := r; log := log w |}).


(** ** The services ([content_service.go], [queue_service.go], [pkg/ai]) *)

Section Services.

Variable PrintRanges : rune -> bool.
Variable LowerCase : rune -> rune.
Variable config : Config.
Variable env : Env.

(** [time.Now()], in nanoseconds. *)
Definition Now : M Z := i <- emit EvNow ;; ret (clock env i).

(** A database call and the error it returns, if any. *)
Definition db (op : db_op) : M (option error) :=
  i <- emit (EvDb op) ;; ret (db_fault env i).

(** *** Provider clients *)

(** What [DeepSeekClient.GenerateContent] returns for an outcome. *)
Definition deepseek_result (o : call_outcome) : result gostring :=
  match o with
  | MarshalFails e => Err (wrapError (lit "序列化请求体失败: ") e)
  | NewRequestFails e => Err (wrapError (lit "创建请求失败: ") e)
  | DoFails e => Err (wrapError (lit "请求失败: ") e)
  | ReadAllFails _ e => Err (wrapError (lit "读取响应体失败: ") e)
  | Responded status body =>
    if negb (status =? 200) then Err (errorString (lit "API错误: " ++ body))
    else match json_chat env body with
         | Err e => Err (wrapError (lit "解析响应失败: ") e)
         | Ok [] => Err (errorString (lit "没有内容返回"))
         | Ok (choice :: _) => Ok choice
         end
  end.

(** What [OllamaClient.GenerateContent] returns for an outcome. *)
Definition ollama_result (o : call_outcome) : result gostring :=
  match o with
  | MarshalFails e => Err (wrapError (lit "序列化请求体失败: ") e)
  | NewRequestFails e => Err (wrapError (lit "创建请求失败: ") e)
  | DoFails e => Err (wrapError (lit "请求失败: ") e)
  | ReadAllFails _ e => Err (wrapError (lit "读取响应体失败: ") e)
  | Responded status body =>
    if negb (status =? 200) then Err (errorString (lit "API错误: " ++ body))
    else match json_generate env body with
         | Err e => Err (wrapError (lit "解析响应失败: ") e)
         | Ok response => Ok response
         end
  end.

(** [generateWithDeepSeek] and [generateWithOllama]: the client is
    called under a context that times out after [config.AI.Timeout]
    seconds. *)
Definition generateWithDeepSeek (prompt : gostring) : M (result gostring) :=
  let timeout := AI_Timeout config in
  i <- emit (EvGenerate DeepSeek timeout prompt) ;;
  ret (deepseek_result (http_do env i DeepSeek timeout prompt)).

Definition generateWithOllama (prompt : gostring) : M (result gostring) :=
  let timeout := AI_Timeout config in
  i <- emit (EvGenerate Ollama timeout prompt) ;;
  ret (ollama_result (http_do env i Ollama timeout prompt)).

(** *** [GenerateArticle] *)

(** [fmt.Sprintf(PromptTemplate, word, min, max)]. *)
Definition prompt_for (word : gostring) : gostring :=
  lit "
请根据以下关键词，创作一篇关于养生/中医/修行的高质量文章：

主要关键词: " ++ word ++ lit "

文章要求:
1. 标题需要包含主关键词，吸引人点击
2. 内容长度在" ++ itoa (ArticleMinLength config) ++ lit "-"
  ++ itoa (ArticleMaxLength config) ++ lit "字之间
3. 分段清晰，每段不超过300字
4. 使用二级标题(##)和三级标题(###)组织内容
5. 内容需要专业、准确、有深度
6. 适当引用中医经典或科学研究支持观点
7. 结尾要有总结和实用建议

文章格式:
- 使用Markdown格式
- 标题使用一级标题(#)
- 正文分段使用空行隔开
- 重要概念可以使用**加粗**标记
- 可以适当使用列表展示步骤或要点

请确保内容原创、有价值，避免虚假或误导性信息。
".

(** The part of [GenerateArticle] that calls the providers. *)
Definition generate_content (row : GenerationRow) : M (result gostring) :=
  r <- generateWithDeepSeek (row_Prompt row) ;;
  match r with
  | Err err =>
    db (DbUpdateRow [(lit "error_message", Error_text err)]) ;;;
    r2 <- generateWithOllama (row_Prompt row) ;;
    match r2 with
    | Err err2 =>
      db (DbUpdateRow [(lit "status", lit "failed");
                       (lit "error_message", Error_text err2)]) ;;;
      ret (Err (wrapError (lit "生成内容失败: ") err2))
    | Ok content =>
      db (DbUpdateRow [(lit "model_used", lit "ollama")]) ;;;
      ret (Ok content)
    end
  | Ok content =>
    db (DbUpdateRow [(lit "model_used", lit "deepseek")]) ;;;
    ret (Ok content)
  end.

(** [generateSlug] as it runs: the clock is read only when the slug
    came out empty. *)
Definition generateSlug_now (title : gostring) : M gostring :=
  if is_empty (slug_core LowerCase title)
  then t <- Now ;; ret (generateSlug LowerCase (t / 1000000000) title)
  else ret (generateSlug LowerCase 0 title).

(** The article record, from the slug and the parsed fields. *)
Definition assemble (slug : gostring) (title content summary : gostring) : Article :=
  let title := strings.Map storage_filter title in
  let content := strings.Map storage_filter content in
  let summary := strings.Map storage_filter summary in
  {| art_ID := 0;
     art_Title := title;
     art_Slug := slug;
     art_Content := content;
     art_Summary := summary;
     art_MetaTitle := title;
     art_MetaDesc := slice_to summary (Z.min (len summary) 160);
     art_Status := lit "draft";
     art_UserID := None |}.

Definition with_ID (a : Article) (id : Z) : Article :=
  {| art_ID := id; art_Title := art_Title a; art_Slug := art_Slug a;
     art_Content := art_Content a; art_Summary := art_Summary a;
     art_MetaTitle := art_MetaTitle a; art_MetaDesc := art_MetaDesc a;
     art_Status := art_Status a; art_UserID := art_UserID a |}.

Definition with_UserID (a : Article) (uid : Z) : Article :=
  {| art_ID := art_ID a; art_Title := art_Title a; art_Slug := art_Slug a;
     art_Content := art_Content a; art_Summary := art_Summary a;
     art_MetaTitle := art_MetaTitle a; art_MetaDesc := art_MetaDesc a;
     art_Status := art_Status a; art_UserID := Some uid |}.

(** A step of the transaction: on an error, roll back and return it
    wrapped. *)
Definition tx_step {A} (op : db_op) (prefix : gostring)
    (k : M (result A)) : M (result A) :=
  e <- db op ;;
  match e with
  | Some err => db DbRollback ;;; ret (Err (wrapError prefix err))
  | None => k
  end.

(** The transaction that stores the article. *)
Definition store_article (article : Article) (keyword : Keyword)
    (categoryIDs : list Z) : M (result Article) :=
  db DbBegin ;;;
  i <- emit (EvDb (DbCreateArticle article)) ;;
  match db_fault env i with
  | Some err => db DbRollback ;;; ret (Err (wrapError (lit "创建文章失败: ") err))
  | None =>
    let article := with_ID article (db_new_id env i) in
    tx_step (DbAppendKeyword article keyword) (lit "关联关键词失败: ")
      ((if 0 <? Z.of_nat (length categoryIDs)
        then fun k =>
          tx_step (DbFindCategories categoryIDs) (lit "查询分类失败: ")
            (tx_step (DbAppendCategories article categoryIDs)
               (lit "关联分类失败: ") k)
        else fun k => k)
       (tx_step (DbCompleteRow (art_ID article)) (lit "更新任务状态失败: ")
          (e <- db DbCommit ;;
           match e with
           | Some err => ret (Err (wrapError (lit "提交事务失败: ") err))
           | None => ret (Ok article)
           end)))
  end.

(** The part of [GenerateArticle] after the generation: the text is
    filtered, parsed and summarised, the slug derived, and the article
    stored. *)
Definition finish_article (keyword : Keyword) (categoryIDs : list Z)
    (content : gostring) : M (result Article) :=
  let content := FilterContent PrintRanges content in
  let '(title, content) := parseArticle PrintRanges content in
  let summary := generateSummary content in
  slug <- generateSlug_now title ;;
  store_article (assemble slug title content summary) keyword categoryIDs.

Definition GenerateArticle (keyword : Keyword) (categoryIDs : list Z)
  : M (result Article) :=
  let row := {| row_KeywordID := kw_ID keyword;
                row_Status := lit "processing";
                row_Prompt := prompt_for (kw_Word keyword) |} in
  e <- db (DbCreateRow row) ;;
  match e with
  | Some err => ret (Err (wrapError (lit "创建生成任务失败: ") err))
  | None =>
    r <- generate_content row ;;
    match r with
    | Err err => ret (Err err)
    | Ok content => finish_article keyword categoryIDs content
    end
  end.

(** *** The queue *)

(** A Redis command: it is recorded, and fails when the outside says
    so; a failed command leaves the store as it was. *)
Definition redis_cmd (e : event) : M (option error) :=
  i <- emit e ;; ret (redis_fault env i).

(** [AddTask]: the task as the caller sees it afterwards, and the error.
    [json.Marshal] does not fail on a [GenerationTask], so the first
    error return of the source is never taken. *)
Definition AddTask (task : GenerationTask) : M (GenerationTask * option error) :=
  created <- Now ;;
  updated <- Now ;;
  let task := set_times task TaskStatusPending created updated in
  e <- redis_cmd (EvPipeline task) ;;
  match e with
  | Some err =>
    ret (task, Some (Errorf_v (lit "添加任务到队列失败: ") err))
  | None =>
    r <- get_redis ;;
    put_redis {| queue := queue r ++ [Marshalled task];
                 members := {[ ID task ]} ∪ members r;
                 keys := keys r |} ;;;
    ret (task, None)
  end.

(** [GetTask]. *)
Definition GetTask (taskID : gostring) : M (result GenerationTask) :=
  e <- redis_cmd (EvSIsMember taskID) ;;
  match e with
  | Some err => ret (Err (Errorf_v (lit "检查任务是否存在失败: ") err))
  | None =>
    r <- get_redis ;;
    if negb (bool_decide (taskID ∈ members r))
    then ret (Err (errorString (lit "任务不存在")))
    else
      e <- redis_cmd (EvGet (task_key taskID)) ;;
      match e with
      | Some err => ret (Err (Errorf_v (lit "获取任务信息失败: ") err))
      | None =>
        match keys r !! task_key taskID with
        | None => ret (Err (errorString (lit "任务不存在")))
        | Some p =>
          match Unmarshal p with
          | Err err => ret (Err (Errorf_v (lit "解析任务信息失败: ") err))
          | Ok task => ret (Ok task)
          end
        end
      end
  end.

(** [updateTaskStatus]: the error of [Set] is dropped. *)
Definition updateTaskStatus (task : GenerationTask) : M unit :=
  e <- redis_cmd (EvSet (task_key (ID task)) task retention) ;;
  match e with
  | Some _ => ret tt
  | None =>
    r <- get_redis ;;
    put_redis {| queue := queue r;
                 members := members r;
                 keys := <[ task_key (ID task) := Marshalled task ]> (keys r) |}
  end.

(** The body of the loop of [ProcessTasks] for a task it has read. *)
Definition process_task (task : GenerationTask) : M unit :=
  t <- Now ;;
  let task := set_status task TaskStatusRunning t in
  updateTaskStatus task ;;;
  r <- (i <- emit (EvDb (DbFirstKeyword (KeywordID task))) ;;
        ret (db_keyword env i (KeywordID task))) ;;
  match r with
  | Err err =>
    updateTaskStatus (set_failed task (lit "获取关键词失败: " ++ Error_text err))
  | Ok keyword =>
    r <- GenerateArticle keyword (CategoryIDs task) ;;
    match r with
    | Err err =>
      updateTaskStatus (set_failed task (lit "生成文章失败: " ++ Error_text err))
    | Ok article =>
      t <- Now ;;
      updateTaskStatus (set_status task TaskStatusCompleted t) ;;;
      if 0 <? UserID task
      then db (DbSaveArticle (with_UserID article (UserID task))) ;;; ret tt
      else ret tt
    end
  end.

(** How a run of [ProcessTasks] ends: the context was cancelled, the
    loop waits in [BLPop] on an empty queue, or the rounds counted by
    [fuel] are used up. *)
Inductive loop_end := Returned | Waiting | Running.

(** [ProcessTasks], for at most [fuel] rounds of the loop. *)
Fixpoint ProcessTasks (fuel : nat) : M loop_end :=
  match fuel with
  | O => ret Running
  | S fuel' =>
    i <- emit EvDone ;;
    if ctx_done env i then ret Returned
    else
      e <- redis_cmd EvBLPop ;;
      match e with
      | Some _ => ProcessTasks fuel'
      | None =>
        r <- get_redis ;;
        match queue r with
        | [] => ret Waiting
        | p :: rest =>
          put_redis {| queue := rest; members := members r; keys := keys r |} ;;;
          match Unmarshal p with
          | Err _ => ProcessTasks fuel'
          | Ok task => process_task task ;;; ProcessTasks fuel'
          end
        end
      end
  end.

(** [BatchAddTasks]: the loop over [keywordIDs], with the ids collected
    so far. *)
Fixpoint batch_from (keywordIDs : list Z) (categoryIDs : list Z) (userID : Z)
    (taskIDs : list gostring) : M (result (list gostring)) :=
  match keywordIDs with
  | [] => ret (Ok taskIDs)
  | keywordID :: rest =>
    t <- Now ;;
    let task := {| ID := lit "task_" ++ itoa keywordID ++ lit "_" ++ itoa t;
                   KeywordID := keywordID;
                   CategoryIDs := categoryIDs;
                   Status := [];
                   Error := [];
                   CreatedAt := 0;
                   UpdatedAt := 0;
                   UserID := userID |} in
    r <- AddTask task ;;
    match r.2 with
    | Some err => ret (Err (Errorf_v (lit "添加任务失败: ") err))
    | None => batch_from rest categoryIDs userID (taskIDs ++ [ID r.1])
    end
  end.

Definition BatchAddTasks (keywordIDs categoryIDs : list Z) (userID : Z)
  : M (result (list gostring)) :=
  batch_from keywordIDs categoryIDs userID [].

End Services.

(** ** Sample worlds

    An outside in which nothing fails, and two stores: one that never
    saw the task, one that has its id but no longer its key. *)
Definition quiet : Env :=
  {| clock := fun i => 1700000000000000000 + Z.of_nat i;
     ctx_done := fun _ => false;
     redis_fault := fun _ => None;
     db_fault := fun _ => None;
     db_keyword := fun _ id => Ok {| kw_ID := id; kw_Word := lit "养生" |};
     db_new_id := fun i => Z.of_nat i;
     http_do := fun _ _ _ prompt => Responded 200 prompt;
     json_chat := fun body => Ok [body];
     json_generate := fun body => Ok body |}.

Definition empty_redis : Redis :=
  {| queue := []; members := ∅; keys := ∅ |}.

Definition task_missing : error := errorString (lit "任务不存在").

Definition world_absent : World :=
  {| redis := empty_redis; log := [] |}.

Definition world_expired : World :=
  {| redis := {| queue := []; members := {[ lit "task_1_5" ]}; keys := ∅ |};
     log := [] |}.

(** *** [BatchAddTasks], described

    For every keyword the batch reads the clock three times and runs
    one pipeline, so the keyword that starts when [n] events came
    before reads its id time at [n] and runs its pipeline at [n + 3]. *)
Definition batch_task (env : Env) (n : nat) (keywordID : Z)
    (categoryIDs : list Z) (userID : Z) : GenerationTask :=
  {| ID := lit "task_" ++ itoa keywordID ++ lit "_" ++ itoa (clock env n);
     KeywordID := keywordID;
     CategoryIDs := categoryIDs;
     Status := TaskStatusPending;
     Error := [];
     CreatedAt := clock env (n + 1);
     UpdatedAt := clock env (n + 2);
     UserID := userID |}.

Fixpoint batch_tasks (env : Env) (n : nat) (keywordIDs categoryIDs : list Z)
    (userID : Z) : list GenerationTask :=
  match keywordIDs with
  | [] => []
  | keywordID :: rest =>
    batch_task env n keywordID categoryIDs userID
    :: batch_tasks env (n + 4) rest categoryIDs userID
  end.

(** How many of [count] pipelines in a row go through, from [n] on. *)
Fixpoint enqueued (env : Env) (n : nat) (count : nat) : nat :=
  match count with
  | O => O
  | S count' =>
    match redis_fault env (n + 3) with
    | Some _ => O
    | None => S (enqueued env (n + 4) count')
    end
  end.

(** An outside like [quiet] in which the command at position 3 fails. *)
Definition refused : error := errorString (lit "connection refused").

Definition fails_once : Env :=
  {| clock := clock quiet;
     ctx_done := ctx_done quiet;
     redis_fault := fun i => if (i =? 3)%nat then Some refused else None;
     db_fault := db_fault quiet;
     db_keyword := db_keyword quiet;
     db_new_id := db_new_id quiet;
     http_do := http_do quiet;
     json_chat := json_chat quiet;
     json_generate := json_generate quiet |}.

(** The number a string of decimal digits stands for. *)
Definition digits_value (ds : list Z) : Z :=
  fold_left (fun v d => 10 * v + (d - 48)) ds 0.

(** ** The worker, described *)

(** The events of a generation: clock readings, provider calls and
    database calls other than the saving of an article. *)
Definition generation_event (e : event) : Prop :=
  match e with
  | EvNow => True
  | EvGenerate _ _ _ => True
  | EvDb (DbSaveArticle _) => False
  | EvDb _ => True
  | _ => False
  end.

(** A computation that leaves the store alone and whose events all
    satisfy [P]. *)
Definition only_emits {A} (P : event -> Prop) (m : M A) : Prop :=
  forall w, redis (m w).2 = redis w
            /\ exists evs, log (m w).2 = log w ++ evs /\ Forall P evs.

(** The status writes among some events: task id and status, in order. *)
Definition status_writes (evs : list event) : list (list Z * list Z) :=
  flat_map (fun e => match e with
                     | EvSet _ t _ => [(ID t, Status t)]
                     | _ => []
                     end) evs.

Definition statuses_of (taskID : list Z) (evs : list event) : list (list Z) :=
  map snd (List.filter (fun p : list Z * list Z => bool_decide (p.1 = taskID))
                       (status_writes evs)).

(** The transitions of a task status. *)
Inductive transition : list Z -> list Z -> Prop :=
| start_running : transition TaskStatusPending TaskStatusRunning
| running_completed : transition TaskStatusRunning TaskStatusCompleted
| running_failed : transition TaskStatusRunning TaskStatusFailed.

Fixpoint follows (l : list (list Z)) : Prop :=
  match l with
  | a :: (b :: _) as l' => transition a b /\ follows l'
  | _ => True
  end.

(** The ids of the tasks waiting in a queue. *)
Definition queue_ids (q : list payload) : list (list Z) :=
  flat_map (fun p => match p with
                     | Marshalled t => [ID t]
                     | Malformed _ => []
                     end) q.

(** The end of the events of one task: the keyword was not found, the
    generation failed, or the article was stored. [running] is the task
    as it was written with status running, [evs] are the events of the
    generation. *)
Definition ends_task (running : GenerationTask) (tail : list event) : Prop :=
  (exists err,
     tail = [EvSet (task_key (ID running))
               (set_failed running (lit "获取关键词失败: " ++ Error_text err))
               retention])
  \/ (exists evs err,
        Forall generation_event evs
        /\ tail = evs ++
             [EvSet (task_key (ID running))
                (set_failed running (lit "生成文章失败: " ++ Error_text err))
                retention])
  \/ (exists evs article updated,
        Forall generation_event evs
        /\ tail = evs ++
             [EvNow;
              EvSet (task_key (ID running))
                (set_status running TaskStatusCompleted updated) retention]
             ++ (if 0 <? UserID running
                 then [EvDb (DbSaveArticle (with_UserID article (UserID running)))]
                 else [])).

(** A configuration, and stores with one and with two waiting tasks. *)
Definition sample_config : Config :=
  {| AI_Timeout := 60; ArticleMinLength := 800; ArticleMaxLength := 1500 |}.

Definition sample_task (taskID : list Z) (keywordID userID : Z) : GenerationTask :=
  {| ID := taskID; KeywordID := keywordID; CategoryIDs := [];
     Status := TaskStatusPending; Error := [];
     CreatedAt := 1700000000000000000; UpdatedAt := 1700000000000000000;
     UserID := userID |}.


Definition world_two_tasks : World :=
  {| redis := {| queue := [Marshalled (sample_task (lit "task_1_5") 1 7);
                           Marshalled (sample_task (lit "task_2_9") 2 7)];
                 members := {[ lit "task_1_5"; lit "task_2_9" ]};
                 keys := ∅ |};
     log := [] |}.

(** An outside like [quiet] in which keyword 1 is not in the database. *)
Definition not_found : error := errorString (lit "record not found").

Definition keyword_missing : Env :=
  {| clock := clock quiet;
     ctx_done := ctx_done quiet;
     redis_fault := redis_fault quiet;
     db_fault := db_fault quiet;
     db_keyword := fun i id => if id =? 1 then Err not_found else db_keyword quiet i id;
     db_new_id := db_new_id quiet;
     http_do := http_do quiet;
     json_chat := json_chat quiet;
     json_generate := json_generate quiet |}.

(** The provider calls among some events: provider, timeout in seconds
    and prompt, in order. *)
Definition provider_calls (evs : list event) : list (provider * Z * list Z) :=
  flat_map (fun e => match e with
                     | EvGenerate p timeout prompt => [(p, timeout, prompt)]
                     | _ => []
                     end) evs.

(** An outside like [quiet] in which both providers answer with status
    503. *)
Definition providers_down : Env :=
  {| clock := clock quiet;
     ctx_done := ctx_done quiet;
     redis_fault := redis_fault quiet;
     db_fault := db_fault quiet;
     db_keyword := db_keyword quiet;
     db_new_id := db_new_id quiet;
     http_do := fun _ _ _ _ => Responded 503 (lit "unavailable");
     json_chat := json_chat quiet;
     json_generate := json_generate quiet |}.

(** ** Listing tasks ([queue_service.go], [GetTaskList]) *)

Section TaskList.

Variable env : Env.

(** The loop of [GetTaskList] over the ids of the set, with the tasks
    collected so far: an id whose task cannot be read is passed over. *)
Fixpoint list_from (taskIDs : list gostring) (userID : Z)
    (tasks : list GenerationTask) : M (list GenerationTask) :=
  match taskIDs with
  | [] => ret tasks
  | taskID :: rest =>
    r <- GetTask env taskID ;;
    match r with
    | Err _ => list_from rest userID tasks
    | Ok task =>
      if UserID task =? userID
      then list_from rest userID (tasks ++ [task])
      else list_from rest userID tasks
    end
  end.

(** [GetTaskList]; [answer] is what [SMembers] returned: an error, or
    the ids of the set in the order the store lists them. *)
Definition GetTaskList (answer : result (list gostring)) (userID : Z)
  : M (result (list GenerationTask)) :=
  match answer with
  | Err err => ret (Err (Errorf_v (lit "获取任务列表失败: ") err))
  | Ok taskIDs => tasks <- list_from taskIDs userID [] ;; ret (Ok tasks)
  end.

End TaskList.

(** The task a reader finds under an id when every command goes
    through: the id is in the set and its key holds a task. *)
Definition readable (r : Redis) (taskID : list Z) : option GenerationTask :=
  if bool_decide (taskID ∈ members r) then
    match keys r !! task_key taskID with
    | Some (Marshalled t) => Some t
    | _ => None
    end
  else None.

(** ** The store and the log *)

(** What a command at position [i] does to the keys: a [Set] that goes
    through writes its key. *)
Definition write_of (env : Env) (i : nat) (e : event)
    (ks : gmap (list Z) payload) : gmap (list Z) payload :=
  match e with
  | EvSet key t _ =>
    match redis_fault env i with
    | None => <[ key := Marshalled t ]> ks
    | Some _ => ks
    end
  | _ => ks
  end.

(** The keys after the events [evs], the first of them at position [n]. *)
Fixpoint keys_after (env : Env) (n : nat) (evs : list event)
    (ks : gmap (list Z) payload) : gmap (list Z) payload :=
  match evs with
  | [] => ks
  | e :: evs' => keys_after env (S n) evs' (write_of env n e ks)
  end.

Definition no_set (e : event) : Prop :=
  match e with
  | EvSet _ _ _ => False
  | _ => True
  end.

(** A computation whose writes to the keys are those of its [Set]
    commands. *)
Definition tracks {A} (env : Env) (m : M A) : Prop :=
  forall w, exists evs,
    log (m w).2 = log w ++ evs
    /\ keys (redis (m w).2) = keys_after env (length (log w)) evs (keys (redis w)).

(** A task as the worker leaves it: the task it read, completed, or
    failed with a message. *)
Definition settled (t final : GenerationTask) : Prop :=
  ID final = ID t /\ KeywordID final = KeywordID t
  /\ CategoryIDs final = CategoryIDs t /\ UserID final = UserID t
  /\ CreatedAt final = CreatedAt t
  /\ ((Status final = TaskStatusCompleted /\ Error final = Error t)
      \/ (Status final = TaskStatusFailed /\ Error final <> [])).

(** The events of the worker loop: cancellation checks, blocking pops,
    clock readings, database and provider calls, and writes of a task
    under its own key for twenty-four hours. *)
Definition worker_event (e : event) : Prop :=
  match e with
  | EvDone | EvBLPop | EvNow | EvDb _ | EvGenerate _ _ _ => True
  | EvSet key t ttl => key = task_key (ID t) /\ ttl = retention
  | EvPipeline _ | EvSIsMember _ | EvGet _ => False
  end.

(** The tasks among some payloads. *)
Definition queue_tasks (q : list payload) : list GenerationTask :=
  flat_map (fun p => match p with
                     | Marshalled t => [t]
                     | Malformed _ => []
                     end) q.

(** A status at which the worker leaves a task. *)
Definition terminal (t : GenerationTask) : Prop :=
  Status t = TaskStatusCompleted
  \/ (Status t = TaskStatusFailed /\ Error t <> []).

(** An outside like [quiet] in which the context is cancelled, and a
    store whose queue holds bytes that do not parse. *)
Definition cancelled : Env :=
  {| clock := clock quiet;
     ctx_done := fun _ => true;
     redis_fault := redis_fault quiet;
     db_fault := db_fault quiet;
     db_keyword := db_keyword quiet;
     db_new_id := db_new_id quiet;
     http_do := http_do quiet;
     json_chat := json_chat quiet;
     json_generate := json_generate quiet |}.

Definition world_malformed : World :=
  {| redis := {| queue := [Malformed (lit "{"); Malformed (lit "task")];
                 members := {[ lit "task_1_5" ]};
                 keys := ∅ |};
     log := [] |}.

(** A store in which two tasks of user 7 and one of user 8 can be read,
    and a fourth id is in the set without a key. *)
Definition world_listed : World :=
  {| redis := {| queue := [];
                 members := {[ lit "a"; lit "b"; lit "c"; lit "d" ]};
                 keys := {[ task_key (lit "a") := Marshalled (sample_task (lit "a") 1 7);
                            task_key (lit "b") := Marshalled (sample_task (lit "b") 2 8);
                            task_key (lit "c") := Marshalled (sample_task (lit "c") 3 7) ]} |};
     log := [] |}.

(** ** The transaction, described *)

(** The database calls among some events, in order. *)
Definition db_calls (evs : list event) : list db_op :=
  flat_map (fun e => match e with EvDb op => [op] | _ => [] end) evs.

(** The calls that end a transaction, and the calls about categories. *)
Definition closes (op : db_op) : bool :=
  match op with
  | DbCommit | DbRollback => true
  | _ => false
  end.

Definition category_call (op : db_op) : bool :=
  match op with
  | DbFindCategories _ | DbAppendCategories _ _ => true
  | _ => false
  end.

(** ** Keywords ([pkg/seo/api5118.go]) *)

Module seo.

(** [models.Keyword], with the fields the keyword client fills. *)
Record Keyword := {
  Word : gostring;
  SearchVolume : Z;
  Source : gostring;
  Status : gostring
}.

(** The test of [CleanKeywords] on a word: not empty and between 2 and
    50 bytes long. *)
Definition kept_word (word : gostring) : bool :=
  negb (is_empty word) && (2 <=? len word) && (len word <=? 50).

(** One iteration of the first loop of [CleanKeywords] on the map
    [uniqueMap]. *)
Definition clean_step (uniqueMap : gmap (list Z) Keyword) (kw : Keyword)
  : gmap (list Z) Keyword :=
  let word := Word kw in
  if kept_word word then
    match uniqueMap !! word with
    | Some existing =>
      if SearchVolume existing <? SearchVolume kw
      then <[ word := kw ]> uniqueMap
      else uniqueMap
    | None => <[ word := kw ]> uniqueMap
    end
  else uniqueMap.

Definition unique_map (keywords : list Keyword) : gmap (list Z) Keyword :=
  fold_left clean_step keywords ∅.

(** [CleanKeywords]. The second loop ranges over the map, in an order
    Go does not specify; here the entries come in the order of the
    keys. *)
Definition CleanKeywords (keywords : list Keyword) : list Keyword :=
  (map_to_list (unique_map keywords)).*2.

(** The entry [CleanKeywords] keeps for a word: of the keywords with
    that word, the first of those with the highest search volume. *)
Definition best_for (keywords : list Keyword) (kw : Keyword) : Prop :=
  exists before after,
    keywords = before ++ kw :: after
    /\ (forall x, x ∈ before -> Word x = Word kw -> SearchVolume x < SearchVolume kw)
    /\ (forall x, x ∈ after -> Word x = Word kw -> SearchVolume x <= SearchVolume kw).

(** *** The keyword client *)

(** What [json.Unmarshal] finds in a response of the search: code,
    message, total and items. *)
Record KeywordSearchResponse := {
  Code : Z;
  Message : gostring;
  Total : Z;
  Items : list (gostring * Z)
}.

(** What [SearchKeywords] returns for an outcome of the call. The
    status of the response is not looked at, only the code in its
    body. *)
Definition search_result (json : gostring -> result KeywordSearchResponse)
    (o : call_outcome) : result (list Keyword * Z) :=
  match o with
  | MarshalFails e => Err (wrapError (lit "序列化请求体失败: ") e)
  | NewRequestFails e => Err (wrapError (lit "创建请求失败: ") e)
  | DoFails e => Err (wrapError (lit "请求失败: ") e)
  | ReadAllFails _ e => Err (wrapError (lit "读取响应体失败: ") e)
  | Responded _ body =>
    match json body with
    | Err e => Err (wrapError (lit "解析响应失败: ") e)
    | Ok response =>
      if negb (Code response =? 200)
      then Err (errorString (lit "API错误: " ++ Message response))
      else Ok (map (fun item : gostring * Z =>
                      {| Word := item.1; SearchVolume := item.2;
                         Source := lit "5118"; Status := lit "active" |})
                   (Items response),
               Total response)
    end
  end.

(** What [GetKeywordsByCategory] does to the outside: searches and
    pauses of one second. *)
Inductive call :=
| Search (query : gostring) (page pageSize : Z)
| Sleep.

Section Client.

(** The answer of [c.SearchKeywords] to a call, which may depend on how
    many calls and pauses came before it. *)
Variable search : nat -> gostring -> Z -> Z -> result (list Keyword * Z).

Definition pageSize : Z := 100.

(** The loop of [GetKeywordsByCategory] for the pages from [page] on;
    [pages] is their number, [totalPages - page + 1]. *)
Fixpoint fetch_pages (category : gostring) (limit totalPages : Z) (pages : nat)
    (page : Z) (allKeywords : list Keyword) (calls : list call)
  : result (list Keyword) * list call :=
  match pages with
  | O => (Ok allKeywords, calls)
  | S pages' =>
    let currentPageSize :=
      if page =? totalPages then
        let remaining := limit - (page - 1) * pageSize in
        if remaining <? pageSize then remaining else pageSize
      else pageSize in
    let answer := search (length calls) category page currentPageSize in
    let calls := calls ++ [Search category page currentPageSize] in
    match answer with
    | Err err => (Err err, calls)
    | Ok (keywords, total) =>
      let allKeywords := allKeywords ++ keywords in
      if (limit <=? Z.of_nat (length allKeywords))
         || (total <=? Z.of_nat (length allKeywords))
      then (Ok allKeywords, calls)
      else fetch_pages category limit totalPages pages' (page + 1) allKeywords
             (calls ++ [Sleep])
    end
  end.

(** [GetKeywordsByCategory]: the result and the calls made, or [None]
    when it panics, which [make] does on a negative capacity.
    [totalPages] is [int(math.Ceil(float64(limit) / 100))], which for a
    limit below [2 ^ 46] is the quotient rounded up; memory is taken as
    sufficient for the capacity asked. *)
Definition GetKeywordsByCategory (category : gostring) (limit : Z)
  : option (result (list Keyword) * list call) :=
  let totalPages := (limit + 99) / 100 in
  if limit <? 0 then None
  else
    let '(r, calls) :=
      fetch_pages category limit totalPages (Z.to_nat totalPages) 1 [] [] in
    Some (match r with
          | Err err => Err err
          | Ok allKeywords =>
            Ok (if limit <? Z.of_nat (length allKeywords)
                then take (Z.to_nat limit) allKeywords else allKeywords)
          end,
          calls).

(** The keywords the searches among [calls] returned, the first call
    being at position [n]. *)
Fixpoint collected (n : nat) (calls : list call) : list Keyword :=
  match calls with
  | [] => []
  | c :: calls' =>
    match c with
    | Search query page size =>
      match search n query page size with
      | Ok (keywords, _) => keywords
      | Err _ => []
      end
    | Sleep => []
    end ++ collected (S n) calls'
  end.

End Client.

(** [SearchKeywords] at a position: the request is sent and its outcome
    turned into keywords. [http] is what the service does with a
    request, [json] what parsing finds in a body. *)
Definition SearchKeywords (http : nat -> gostring -> Z -> Z -> call_outcome)
    (json : gostring -> result KeywordSearchResponse)
  : nat -> gostring -> Z -> Z -> result (list Keyword * Z) :=
  fun i query page size => search_result json (http i query page size).

(** The searches among some calls: page and page size, in order. *)
Definition searches (calls : list call) : list (Z * Z) :=
  flat_map (fun c => match c with
                     | Search _ page size => [(page, size)]
                     | Sleep => []
                     end) calls.

End seo.

(** ** Meta descriptions ([pkg/seo], [GenerateMetaDescription]) *)

(** [GenerateMetaDescription]; [None] when the slice expression panics,
    which it does on a negative [maxLength]. *)
Definition GenerateMetaDescription (content : gostring) (maxLength : Z)
  : option gostring :=
  let content := strings.ReplaceAll content newline (lit " ") in
  let content := strings.ReplaceAll content (lit "  ") (lit " ") in
  if maxLength <? len content then
    if maxLength <? 0 then None
    else Some (slice_to content maxLength ++ lit "...")
  else Some content.

(** Keywords with one word three times and a word of one byte. *)
Definition sample_keywords : list seo.Keyword :=
  [ {| seo.Word := lit "养生"; seo.SearchVolume := 10;
       seo.Source := lit "5118"; seo.Status := lit "active" |};
    {| seo.Word := lit "x"; seo.SearchVolume := 99;
       seo.Source := lit "5118"; seo.Status := lit "active" |};
    {| seo.Word := lit "养生"; seo.SearchVolume := 30;
       seo.Source := lit "5118"; seo.Status := lit "active" |};
    {| seo.Word := lit "养生"; seo.SearchVolume := 30;
       seo.Source := lit "other"; seo.Status := lit "active" |} ].

(** A keyword service with 250 keywords that pages by offset, and one
    that is down. *)
Definition paged (i : nat) (query : list Z) (page size : Z)
  : result (list seo.Keyword * Z) :=
  Ok (map (fun k => {| seo.Word := lit "kw" ++ itoa (Z.of_nat k);
                       seo.SearchVolume := Z.of_nat k;
                       seo.Source := lit "5118"; seo.Status := lit "active" |})
          (seq (Z.to_nat ((page - 1) * size))
               (Z.to_nat (Z.min size (250 - (page - 1) * size)))),
      250).

Definition unreachable (i : nat) (query : list Z) (page size : Z)
  : result (list seo.Keyword * Z) :=
  Err refused.

(** ** The task handler ([internal/api], [GetTaskStatus]) *)

Module api.

(** [api.Response]; the HTTP status of the answer is its code. *)
Record Response (A : Type) := {
  Code : Z;
  Message : gostring;
  Data : option A
}.
Arguments Code {A} _.
Arguments Message {A} _.
Arguments Data {A} _.

Definition Success {A} (data : A) : Response A :=
  {| Code := 200; Message := lit "success"; Data := Some data |}.

Definition Error {A} (code : Z) (message : gostring) : Response A :=
  {| Code := code; Message := message; Data := None |}.

Section Handlers.

Variable env : Env.

(** [Handler.GetTaskStatus]; [taskID] is the parameter of the route and
    [user] the id of the user the context holds, if it holds one. *)
Definition GetTaskStatus (taskID : gostring) (user : option Z)
  : M (Response GenerationTask) :=
  if is_empty taskID then ret (Error 400 (lit "无效的任务ID"))
  else
    match user with
    | None => ret (Error 401 (lit "未认证"))
    | Some userID =>
      r <- GetTask env taskID ;;
      match r with
      | Err err => ret (Error 500 (lit "获取任务状态失败: " ++ Error_text err))
      | Ok task =>
        if negb (UserID task =? userID)
        then ret (Error 403 (lit "无权访问此任务"))
        else ret (Success task)
      end
    end.

End Handlers.

End api.

(** Outsides like [quiet] in which the store is down, and in which it
    goes down after the second command. *)
Definition store_down : Env :=
  {| clock := clock quiet;
     ctx_done := ctx_done quiet;
     redis_fault := fun _ => Some refused;
     db_fault := db_fault quiet;
     db_keyword := db_keyword quiet;
     db_new_id := db_new_id quiet;
     http_do := http_do quiet;
     json_chat := json_chat quiet;
     json_generate := json_generate quiet |}.

Definition store_lost : Env :=
  {| clock := clock quiet;
     ctx_done := ctx_done quiet;
     redis_fault := fun i => if (i <=? 1)%nat then None else Some refused;
     db_fault := db_fault quiet;
     db_keyword := db_keyword quiet;
     db_new_id := db_new_id quiet;
     http_do := http_do quiet;
     json_chat := json_chat quiet;
     json_generate := json_generate quiet |}.

(** A keyword service that answers every search under status 500 with
    the same body, and a parser that finds code 200 and two items in
    it. *)
Definition answering (i : nat) (query : list Z) (page size : Z) : call_outcome :=
  Responded 500 (lit "body").

Definition parsed (body : list Z) : result seo.KeywordSearchResponse :=
  Ok {| seo.Code := 200; seo.Message := lit "ok"; seo.Total := 2;
        seo.Items := [(lit "养生", 30); (lit "茶", 7)] |}.


(** The store after the same task was enqueued twice. *)
Definition world_requeued : World :=
  (AddTask quiet (sample_task (lit "task_1_5") 1 7)
     (AddTask quiet (sample_task (lit "task_1_5") 1 7) world_absent).2).2.

(** A text of 101 characters in 301 bytes. *)
Definition cjk_text : list Z := lit "a" ++ concat (replicate 100 (lit "中")).

(** The two status writes of one queue entry: running, then [st]. *)
Definition entry_writes (t : GenerationTask) (st : list Z) : list (list Z * list Z) :=
  [(ID t, TaskStatusRunning); (ID t, st)].

(* ================================================================== *)
(** * Properties *)

(** ** Proof support *)

Ltac bool_to_prop :=
  repeat match goal with
  | H : _ && _ = true |- _ => apply andb_true_iff in H as [? ?]
  | H : _ && _ = false |- _ => apply andb_false_iff in H as [?|?]
  | H : _ || _ = true |- _ => apply orb_true_iff in H as [?|?]
  | H : _ || _ = false |- _ => apply orb_false_iff in H as [? ?]
  | H : negb _ = true |- _ => apply negb_true_iff in H
  | H : negb _ = false |- _ => apply negb_false_iff in H
  | H : (_ <=? _) = true |- _ => apply Z.leb_le in H
  | H : (_ <=? _) = false |- _ => apply Z.leb_gt in H
  | H : (_ <? _) = true |- _ => apply Z.ltb_lt in H
  | H : (_ <? _) = false |- _ => apply Z.ltb_ge in H
  | H : (_ =? _) = true |- _ => apply Z.eqb_eq in H
  | H : (_ =? _) = false |- _ => apply Z.eqb_neq in H
  end.

Ltac split_ifs :=
  repeat match goal with
  | |- context [if ?c then _ else _] => destruct c eqn:?
  | H : context [if ?c then _ else _] |- _ => destruct c eqn:?
  end.

Ltac utf8_unfold :=
  unfold utf8.scalar, utf8.cont, utf8.accept_lo, utf8.accept_hi,
    utf8.between, utf8.MaxRune, utf8.RuneError in *.

Ltac zdiv := Z.to_euclidean_division_equations; lia.

Lemma EncodeRune_nonempty r : utf8.EncodeRune r <> [].
Proof. unfold utf8.EncodeRune. split_ifs; discriminate. Qed.

Lemma EncodeRune_length r : (1 <= length (utf8.EncodeRune r) <= 4)%nat.
Proof. unfold utf8.EncodeRune. split_ifs; cbn; lia. Qed.

(** ** UTF-8: encoding and decoding *)

Lemma between_true (lo hi x : Z) : lo <= x <= hi -> utf8.between lo hi x = true.
Proof. unfold utf8.between. intros. apply andb_true_iff. split; apply Z.leb_le; lia. Qed.

Lemma between_false (lo hi x : Z) : x < lo \/ hi < x -> utf8.between lo hi x = false.
Proof.
  unfold utf8.between. intros [H|H]; apply andb_false_iff; [left|right];
    apply Z.leb_gt; lia.
Qed.

Lemma between_spec (lo hi x : Z) : utf8.between lo hi x = true <-> lo <= x <= hi.
Proof. unfold utf8.between. rewrite andb_true_iff, !Z.leb_le. tauto. Qed.

Lemma between_nspec (lo hi x : Z) : utf8.between lo hi x = false <-> (x < lo \/ hi < x).
Proof. unfold utf8.between. rewrite andb_false_iff, !Z.leb_gt. tauto. Qed.

(** The six-bit groups of a code point. *)
Lemma sextets (r : Z) :
  0 <= r ->
  exists q3 q2 q1 m2 m1 m0,
    r / 64 = q1 /\ r / 4096 = q2 /\ r / 262144 = q3 /\
    r mod 64 = m0 /\ (r / 64) mod 64 = m1 /\ (r / 4096) mod 64 = m2 /\
    r = q1 * 64 + m0 /\ q1 = q2 * 64 + m1 /\ q2 = q3 * 64 + m2 /\
    0 <= m0 < 64 /\ 0 <= m1 < 64 /\ 0 <= m2 < 64 /\ 0 <= q3.
Proof.
  intros Hr. do 6 eexists. repeat (split; [reflexivity|]).
  Z.to_euclidean_division_equations. lia.
Qed.

Lemma DecodeRune_EncodeRune r rest :
  utf8.scalar r = true ->
  utf8.DecodeRune (utf8.EncodeRune r ++ rest) = (r, length (utf8.EncodeRune r)).
Proof.
  intros Hs. unfold utf8.EncodeRune.
  destruct (utf8.between 0 127 r) eqn:E1.
  { cbn [app length utf8.DecodeRune]. now rewrite E1. }
  assert (Hr : 128 <= r).
  { unfold utf8.scalar in Hs. apply orb_true_iff in Hs.
    rewrite !between_spec in Hs. apply between_nspec in E1. unfold utf8.MaxRune in *. lia. }
  destruct (sextets r) as (q3 & q2 & q1 & m2 & m1 & m0 & -> & -> & -> & -> & -> & -> & H0 & H1 & H2 & ? & ? & ? & ?); [lia|].
  destruct (utf8.between 128 2047 r) eqn:E2.
  { apply between_spec in E2.
    cbn [app length utf8.DecodeRune].
    rewrite (between_false 0 127), (between_true 194 223) by lia.
    unfold utf8.cont. rewrite between_true by lia. f_equal. lia. }
  apply between_nspec in E2.
  rewrite Hs. cbn [negb].
  unfold utf8.scalar, utf8.MaxRune in Hs. apply orb_true_iff in Hs. rewrite !between_spec in Hs.
  destruct (Z.leb_spec r 65535) as [E3|E3].
  { cbn [app length utf8.DecodeRune].
    rewrite (between_false 0 127), (between_false 194 223), (between_true 224 239) by lia.
    unfold utf8.cont. rewrite (between_true 128 191 (128 + m0)) by lia.
    rewrite between_true; [cbn [andb]; f_equal; lia|].
    unfold utf8.accept_lo, utf8.accept_hi.
    repeat match goal with |- context [?a =? ?b] => destruct (Z.eqb_spec a b) end; lia. }
  { cbn [app length utf8.DecodeRune].
    rewrite (between_false 0 127), (between_false 194 223), (between_false 224 239),
      (between_true 240 244) by lia.
    unfold utf8.cont. rewrite (between_true 128 191 (128 + m0)), (between_true 128 191 (128 + m1)) by lia.
    rewrite between_true; [cbn [andb]; f_equal; lia|].
    unfold utf8.accept_lo, utf8.accept_hi.
    repeat match goal with |- context [?a =? ?b] => destruct (Z.eqb_spec a b) end; lia. }
Qed.

Lemma DecodeRune_spec (s : list Z) r n :
  s <> [] -> utf8.DecodeRune s = (r, n) ->
  utf8.scalar r = true /\ (1 <= n <= length s)%nat.
Proof.
  intros Hne Hd. destruct s as [|b0 s]; [congruence|]. clear Hne.
  unfold utf8.DecodeRune in Hd.
  assert (Herr : utf8.scalar utf8.RuneError = true) by reflexivity.
  assert (Hgoal : forall r' n', (r', n') = (r, n) -> utf8.scalar r' = true ->
                    (1 <= n' <= length (b0 :: s))%nat ->
                    utf8.scalar r = true /\ (1 <= n <= length (b0 :: s))%nat).
  { intros ? ? [= <- <-]. auto. }
  destruct (utf8.between 0 127 b0) eqn:E0.
  { apply (Hgoal _ _ Hd); [|cbn [length]; lia].
    apply between_spec in E0. unfold utf8.scalar. rewrite (between_true 0 55295) by lia. reflexivity. }
  destruct (utf8.between 194 223 b0) eqn:E1.
  { destruct s as [|b1 s]; [apply (Hgoal _ _ Hd Herr); cbn [length]; lia|].
    destruct (utf8.cont b1) eqn:C1; [|apply (Hgoal _ _ Hd Herr); cbn [length]; lia].
    apply (Hgoal _ _ Hd); [|cbn [length]; lia].
    apply between_spec in E1, C1. unfold utf8.scalar. rewrite (between_true 0 55295) by lia. reflexivity. }
  destruct (utf8.between 224 239 b0) eqn:E2.
  { destruct s as [|b1 [|b2 s]]; try (apply (Hgoal _ _ Hd Herr); cbn [length]; lia).
    destruct (utf8.between _ _ b1 && utf8.cont b2) eqn:C; [|apply (Hgoal _ _ Hd Herr); cbn [length]; lia].
    apply (Hgoal _ _ Hd); [|cbn [length]; lia].
    apply andb_true_iff in C as [C1 C2]. apply between_spec in E2, C1, C2.
    unfold utf8.scalar, utf8.MaxRune. apply orb_true_iff. rewrite !between_spec.
    unfold utf8.accept_lo, utf8.accept_hi in C1.
    repeat match type of C1 with context [?a =? ?b] => destruct (Z.eqb_spec a b) end; lia. }
  destruct (utf8.between 240 244 b0) eqn:E3; [|apply (Hgoal _ _ Hd Herr); cbn [length]; lia].
  destruct s as [|b1 [|b2 [|b3 s]]]; try (apply (Hgoal _ _ Hd Herr); cbn [length]; lia).
  destruct (utf8.between _ _ b1 && utf8.cont b2 && utf8.cont b3) eqn:C; [|apply (Hgoal _ _ Hd Herr); cbn [length]; lia].
  apply (Hgoal _ _ Hd); [|cbn [length]; lia].
  apply andb_true_iff in C as [C C3]. apply andb_true_iff in C as [C1 C2].
  apply between_spec in E3, C1, C2, C3.
  unfold utf8.scalar, utf8.MaxRune. apply orb_true_iff. rewrite !between_spec.
  unfold utf8.accept_lo, utf8.accept_hi in C1.
  repeat match type of C1 with context [?a =? ?b] => destruct (Z.eqb_spec a b) end; lia.
Qed.

Lemma range_from_drop (k : nat) (s : list Z) :
  utf8.range_from k s = utf8.range (drop k s).
Proof.
  revert k. induction s as [|b s IH]; intros [|k]; try reflexivity.
  cbn [utf8.range_from drop]. apply IH.
Qed.

Lemma range_cons (s : list Z) r n :
  s <> [] -> utf8.DecodeRune s = (r, n) ->
  utf8.range s = (r, take n s) :: utf8.range (drop n s).
Proof.
  intros Hne Hd. destruct (DecodeRune_spec s r n Hne Hd) as [_ Hn].
  destruct s as [|b s]; [congruence|].
  unfold utf8.range at 1. cbn [utf8.range_from]. rewrite Hd.
  rewrite range_from_drop. destruct n as [|n]; [lia|].
  cbn [drop]. now replace (S n - 1)%nat with n by lia.
Qed.

Lemma range_nil : utf8.range [] = [].
Proof. reflexivity. Qed.

Lemma range_EncodeRune (r : Z) (rest : list Z) :
  utf8.scalar r = true ->
  utf8.range (utf8.EncodeRune r ++ rest) = (r, utf8.EncodeRune r) :: utf8.range rest.
Proof.
  intros Hs.
  rewrite (range_cons _ r (length (utf8.EncodeRune r))).
  - now rewrite take_app_length, drop_app_length.
  - pose proof (EncodeRune_nonempty r). destruct (utf8.EncodeRune r); [congruence|discriminate].
  - now apply DecodeRune_EncodeRune.
Qed.

(** Every element the range loop yields holds a scalar value and between one and four bytes,
    and the bytes together are the string. *)
Lemma range_concat (s : list Z) : concat (map snd (utf8.range s)) = s.
Proof.
  remember (length s) as m eqn:Hm. revert s Hm.
  induction m as [m IH] using lt_wf_ind. intros s Hm.
  destruct s as [|b s]; [reflexivity|].
  destruct (utf8.DecodeRune (b :: s)) as [r n] eqn:Hd.
  destruct (DecodeRune_spec (b :: s) r n) as [_ Hn]; [discriminate|assumption|].
  rewrite (range_cons _ r n) by (discriminate || assumption).
  cbn [map concat snd].
  rewrite (IH (length (drop n (b :: s)))); [apply take_drop| |reflexivity].
  rewrite length_drop. subst m. lia.
Qed.

Lemma range_scalar (s : list Z) :
  Forall (fun c => utf8.scalar c.1 = true) (utf8.range s).
Proof.
  remember (length s) as m eqn:Hm. revert s Hm.
  induction m as [m IH] using lt_wf_ind. intros s Hm.
  destruct s as [|b s]; [constructor|].
  destruct (utf8.DecodeRune (b :: s)) as [r n] eqn:Hd.
  destruct (DecodeRune_spec (b :: s) r n) as [Hr Hn]; [discriminate|assumption|].
  rewrite (range_cons _ r n) by (discriminate || assumption).
  constructor; [exact Hr|].
  apply (IH (length (drop n (b :: s)))); [|reflexivity].
  rewrite length_drop. subst m. lia.
Qed.

(** A string has at most as many runes as bytes. *)
Lemma runes_length (s : list Z) : (length (utf8.runes s) <= length s)%nat.
Proof.
  unfold utf8.runes. rewrite length_map.
  remember (length s) as m eqn:Hm. revert s Hm.
  induction m as [m IH] using lt_wf_ind. intros s Hm.
  destruct s as [|b s]; [cbn; lia|].
  destruct (utf8.DecodeRune (b :: s)) as [r n] eqn:Hd.
  destruct (DecodeRune_spec (b :: s) r n) as [_ Hn]; [discriminate|assumption|].
  rewrite (range_cons _ r n) by (discriminate || assumption).
  cbn [length] in *.
  pose proof (IH (length (drop n (b :: s)))) as IH'.
  rewrite length_drop in IH'. cbn [length] in IH'.
  specialize (IH' ltac:(lia) (drop n (b :: s))).
  rewrite length_drop in IH'. cbn [length] in IH'. specialize (IH' eq_refl). lia.
Qed.

(** ** Writing runes and reading them back *)

Lemma range_write_runes (rs : list Z) :
  Forall (fun r => utf8.scalar r = true) rs ->
  utf8.range (write_runes rs) = map (fun r => (r, utf8.EncodeRune r)) rs.
Proof.
  induction 1 as [|r rs Hr _ IH]; [reflexivity|].
  cbn [write_runes flat_map map]. rewrite range_EncodeRune by assumption.
  f_equal. exact IH.
Qed.

Lemma runes_write_runes (rs : list Z) :
  Forall (fun r => utf8.scalar r = true) rs ->
  utf8.runes (write_runes rs) = rs.
Proof.
  intros H. unfold utf8.runes. rewrite range_write_runes by assumption.
  rewrite map_map. cbn. apply map_id.
Qed.

Lemma runes_scalar (s : list Z) :
  Forall (fun r => utf8.scalar r = true) (utf8.runes s).
Proof.
  unfold utf8.runes. apply Forall_map. apply (range_scalar s).
Qed.

Lemma ill_formed_EncodeRune (r : Z) :
  utf8.ill_formed (r, utf8.EncodeRune r) = false.
Proof.
  unfold utf8.ill_formed. cbn [fst snd].
  destruct (Z.eqb_spec r utf8.RuneError) as [->|]; [reflexivity|reflexivity].
Qed.

Lemma ValidString_write_runes (rs : list Z) :
  Forall (fun r => utf8.scalar r = true) rs ->
  utf8.ValidString (write_runes rs) = true.
Proof.
  intros H. unfold utf8.ValidString. rewrite range_write_runes by assumption.
  rewrite forallb_forall. intros c Hc. apply in_map_iff in Hc as (r & <- & _).
  now rewrite ill_formed_EncodeRune.
Qed.

(** [strings.Map], rune by rune. *)
Lemma Map_runes (mapping : Z -> Z) (s : list Z) :
  strings.Map mapping s =
  flat_map (fun r => if mapping r <? 0 then [] else utf8.EncodeRune (mapping r))
           (utf8.runes s).
Proof.
  unfold strings.Map, utf8.runes. induction (utf8.range s) as [|c cs IH]; [reflexivity|].
  cbn [flat_map map]. now rewrite IH.
Qed.

(** A mapping that keeps or drops each rune is a filter on the runes. *)
Lemma Map_filter (keep : Z -> bool) (s : list Z) :
  strings.Map (fun r => if keep r then r else -1) s =
  write_runes (List.filter keep (utf8.runes s)).
Proof.
  rewrite Map_runes. pose proof (runes_scalar s) as Hs.
  induction Hs as [|r rs Hr _ IH]; [reflexivity|].
  cbn [flat_map List.filter]. rewrite IH. unfold write_runes.
  destruct (keep r) eqn:Hk; [|reflexivity].
  assert ((r <? 0) = false) as ->; [|reflexivity].
  utf8_unfold. bool_to_prop; lia.
Qed.

Lemma scalar_nonneg (r : Z) : utf8.scalar r = true -> (r <? 0) = false.
Proof. intros H. utf8_unfold. bool_to_prop; lia. Qed.

(** ** The content filter (C10) *)

Section FilterContentFacts.

Variable PrintRanges : Z -> bool.

Lemma IsPrint_not_control (r : Z) :
  unicode.IsPrint PrintRanges r = true -> unicode.IsControl r = false.
Proof.
  unfold unicode.IsPrint, unicode.IsControl, unicode.MaxLatin1, utf8.between.
  intros H. split_ifs; bool_to_prop; try lia.
  all: rewrite orb_false_iff, !andb_false_iff, !Z.leb_gt; lia.
Qed.

Lemma filter_image_passes (r : Z) : (passes_filter PrintRanges) ((filter_image PrintRanges) r) = true.
Proof.
  unfold filter_image.
  destruct (passes_filter PrintRanges r) eqn:E; [exact E|reflexivity].
Qed.

Lemma filter_image_id (r : Z) : (passes_filter PrintRanges) r = true -> (filter_image PrintRanges) r = r.
Proof. unfold filter_image. now intros ->. Qed.

Lemma filter_image_scalar (r : Z) :
  utf8.scalar r = true -> utf8.scalar ((filter_image PrintRanges) r) = true.
Proof. unfold filter_image. now destruct (passes_filter _ _). Qed.

Lemma passes_not_dropped (r : Z) :
  (passes_filter PrintRanges) r = true ->
  unicode.IsControl r && negb (r =? 10) && negb (r =? 9) = false.
Proof.
  unfold passes_filter. intros H.
  destruct (Z.eqb_spec r 10); [now rewrite andb_false_r|].
  destruct (Z.eqb_spec r 9); [now rewrite andb_false_r|].
  rewrite !orb_false_r in H. now rewrite (IsPrint_not_control r H).
Qed.

(** [FilterContent] writes the image of every rune and nothing else:
    the validity test and the control-character pass change nothing. *)
Lemma FilterContent_runes (content : list Z) :
  FilterContent PrintRanges content =
  write_runes (map (filter_image PrintRanges) (utf8.runes content)).
Proof.
  unfold FilterContent.
  set (first_pass := flat_map _ (utf8.range content)).
  assert (Hfp : first_pass = write_runes (map (filter_image PrintRanges) (utf8.runes content))).
  { unfold first_pass, write_runes, utf8.runes, filter_image, passes_filter.
    induction (utf8.range content) as [|c cs IH]; [reflexivity|].
    cbn [flat_map map]. rewrite IH. now destruct (_ || _). }
  assert (Hsc : Forall (fun r => utf8.scalar r = true)
                       (map (filter_image PrintRanges) (utf8.runes content))).
  { apply Forall_map. eapply Forall_impl; [apply runes_scalar|].
    intros r. apply filter_image_scalar. }
  rewrite Hfp, ValidString_write_runes by exact Hsc. cbn [negb].
  rewrite Map_runes, runes_write_runes by exact Hsc.
  unfold write_runes. clear Hfp first_pass.
  induction (utf8.runes content) as [|r rs IH]; [reflexivity|].
  cbn [map flat_map] in *. apply Forall_cons in Hsc as [Hr Hrs].
  rewrite IH by assumption.
  rewrite passes_not_dropped by apply filter_image_passes.
  now rewrite scalar_nonneg.
Qed.

(** C10. [FilterContent] is idempotent, and every rune of its output is
    printable, a newline or a tab. *)
Theorem FilterContent_idempotent (content : list Z) :
  FilterContent PrintRanges (FilterContent PrintRanges content)
  = FilterContent PrintRanges content
  /\ Forall (fun r => (passes_filter PrintRanges) r = true)
            (utf8.runes (FilterContent PrintRanges content)).
Proof.
  assert (Hsc : Forall (fun r => utf8.scalar r = true)
                       (map (filter_image PrintRanges) (utf8.runes content))).
  { apply Forall_map. eapply Forall_impl; [apply runes_scalar|].
    intros r. apply filter_image_scalar. }
  split.
  - rewrite (FilterContent_runes (FilterContent PrintRanges content)).
    rewrite (FilterContent_runes content), runes_write_runes by exact Hsc.
    f_equal. rewrite map_map. apply map_ext. intros r.
    apply filter_image_id, filter_image_passes.
  - rewrite FilterContent_runes, runes_write_runes by exact Hsc.
    apply Forall_map, Forall_forall. intros r _. apply filter_image_passes.
Qed.

End FilterContentFacts.

(** ** Byte-level facts about package [strings] *)

Lemma len_nonneg (s : gostring) : 0 <= len s.
Proof. unfold len. lia. Qed.

Lemma len_app (s t : gostring) : len (s ++ t) = len s + len t.
Proof. unfold len. rewrite length_app. lia. Qed.

Lemma len_slice_to (s : gostring) (n : Z) :
  0 <= n <= len s -> len (slice_to s n) = n.
Proof. unfold len, slice_to. intros H. rewrite length_take. lia. Qed.

Lemma HasPrefix_nil (s : gostring) : strings.HasPrefix s [] = true.
Proof. now destruct s. Qed.

(** Replacing one byte by one byte is a map over the bytes. *)
Lemma ReplaceAll_byte (s : gostring) (a b : byte) :
  strings.ReplaceAll s [a] [b] = map (fun x => if x =? a then b else x) s.
Proof.
  unfold strings.ReplaceAll.
  induction s as [|x s IH]; [reflexivity|].
  cbn [strings.replace_from strings.HasPrefix map length].
  rewrite HasPrefix_nil, andb_true_r.
  destruct (x =? a); cbn; now rewrite IH.
Qed.

Lemma ReplaceAll_byte_len (s : gostring) (a b : byte) :
  len (strings.ReplaceAll s [a] [b]) = len s.
Proof. rewrite ReplaceAll_byte. unfold len. now rewrite length_map. Qed.

Lemma ReplaceAll_byte_absent (s : gostring) (a b : byte) :
  a ∉ s -> strings.ReplaceAll s [a] [b] = s.
Proof.
  rewrite ReplaceAll_byte. induction s as [|x s IH]; [reflexivity|].
  intros Hn. apply not_elem_of_cons in Hn as [Hx Hs]. cbn.
  rewrite IH by assumption.
  destruct (Z.eqb_spec x a); [congruence|reflexivity].
Qed.

(** ** Summary (C4) *)

(** The summary, in bytes. For every content string the summary is at
    most 303 bytes long, and so at most 303 runes. With every newline
    replaced by a space, content of at most 300 bytes is returned as it
    is, which is the content itself when it has no newline; longer
    content is cut to its first 300 bytes and "..." is appended. *)
Theorem generateSummary_spec (content : gostring) :
  let flat := map (fun b => if b =? 10 then 32 else b) content in
  len (generateSummary content) <= 303
  /\ Z.of_nat (length (utf8.runes (generateSummary content))) <= 303
  /\ (len content <= 300 -> generateSummary content = flat)
  /\ (len content <= 300 -> 10 ∉ content -> generateSummary content = content)
  /\ (300 < len content ->
      generateSummary content = slice_to flat 300 ++ lit "..."
      /\ len (generateSummary content) = 303).
Proof.
  intros flat.
  assert (Hrunes : forall s : list Z,
            len s <= 303 -> Z.of_nat (length (utf8.runes s)) <= 303).
  { intros s Hs. pose proof (runes_length s). unfold len in Hs. lia. }
  cut (len (generateSummary content) <= 303
       /\ (len content <= 300 -> generateSummary content = flat)
       /\ (len content <= 300 -> 10 ∉ content -> generateSummary content = content)
       /\ (300 < len content ->
           generateSummary content = slice_to flat 300 ++ lit "..."
           /\ len (generateSummary content) = 303)).
  { intros (H1 & H2). split; [exact H1|]. split; [now apply Hrunes|exact H2]. }
  clear Hrunes. unfold generateSummary, newline.
  change (lit " ") with [32].
  rewrite (ReplaceAll_byte content 10 32). fold flat.
  assert (Hlen : len flat = len content).
  { unfold flat, len. now rewrite length_map. }
  destruct (Z.ltb_spec 300 (len flat)) as [Hlong|Hshort].
  - assert (Hcut : len (slice_to flat 300 ++ lit "...") = 303).
    { rewrite len_app, len_slice_to by lia. reflexivity. }
    repeat split; try lia; auto.
  - repeat split; try lia; auto.
    intros _ Hnl. unfold flat. rewrite <- ReplaceAll_byte.
    now apply ReplaceAll_byte_absent.
Qed.

Lemma generateSummary_spec_witness :
  generateSummary (lit "ab" ++ [10] ++ lit "cd") = lit "ab cd"
  /\ generateSummary (lit "abcd") = lit "abcd"
  /\ len (generateSummary (replicate 301 97)) = 303.
Proof.
  pose proof (generateSummary_spec (lit "ab" ++ [10] ++ lit "cd")) as (_ & _ & H1 & _).
  pose proof (generateSummary_spec (lit "abcd")) as (_ & _ & _ & H2 & _).
  pose proof (generateSummary_spec (replicate 301 97)) as (_ & _ & _ & _ & H3).
  split; [|split].
  - apply H1. vm_compute. discriminate.
  - apply H2; [vm_compute; discriminate|]. vm_compute.
    intros H. repeat (apply elem_of_cons in H as [H|H]; [discriminate|]).
    now apply elem_of_nil in H.
  - apply H3. vm_compute. reflexivity.
Defined.

(** C4, at a text of 101 characters. The length [generateSummary]
    compares with 300 is the length in bytes, and the cut is at byte
    300: the text "a" followed by 100 times "中" has 101 characters in
    301 bytes and no newline. It is not returned as it is: it is cut
    inside its last character and "..." is appended, and the summary is
    not valid UTF-8. *)
Theorem generateSummary_cuts_a_character :
  length (utf8.runes cjk_text) = 101%nat
  /\ utf8.ValidString cjk_text = true
  /\ (10 ∉ cjk_text)
  /\ generateSummary cjk_text = take 300 cjk_text ++ lit "..."
  /\ generateSummary cjk_text <> cjk_text
  /\ utf8.ValidString (generateSummary cjk_text) = false.
Proof.
  split; [vm_compute; reflexivity|]. split; [vm_compute; reflexivity|].
  split; [apply (bool_decide_unpack _); vm_compute; exact I|].
  split; [vm_compute; reflexivity|].
  split; [|vm_compute; reflexivity].
  intros H. apply (f_equal (@length Z)) in H. vm_compute in H. discriminate H.
Qed.

(** ** Sanitizing for storage (C6) *)

Lemma storage_filter_stored (r : Z) :
  storage_filter r = if stored_rune r then r else -1.
Proof. unfold storage_filter, stored_rune. now destruct (_ || _). Qed.

Lemma Map_ext (f g : Z -> Z) (s : list Z) :
  (forall r, f r = g r) -> strings.Map f s = strings.Map g s.
Proof.
  intros H. unfold strings.Map. apply flat_map_ext. intros c. now rewrite H.
Qed.

Lemma filter_scalar (keep : Z -> bool) (rs : list Z) :
  Forall (fun r => utf8.scalar r = true) rs ->
  Forall (fun r => utf8.scalar r = true) (List.filter keep rs).
Proof.
  intros H. apply List.Forall_forall. intros r Hr.
  apply List.filter_In in Hr as [Hr _].
  now apply (proj1 (List.Forall_forall _ _) H).
Qed.

Lemma storage_filter_runes (s : list Z) :
  utf8.runes (strings.Map storage_filter s) = List.filter stored_rune (utf8.runes s).
Proof.
  rewrite (Map_ext _ _ s storage_filter_stored), Map_filter.
  apply runes_write_runes, filter_scalar, runes_scalar.
Qed.

Lemma stored_rune_range (r : Z) :
  stored_rune r = true <-> 32 <= r <= 126 \/ 256 <= r.
Proof.
  unfold stored_rune.
  rewrite negb_true_iff, orb_false_iff, andb_false_iff, !Z.ltb_ge. lia.
Qed.

(** C6, as the code has it. The mapping applied to title, content and
    summary before the article is stored drops the runes below 32 and
    the runes from 127 to 255 and keeps every other rune: the stored
    runes are those of the input in 32..126 or at 256 and above, in
    order. *)
Theorem assemble_stored_runes (slug title content summary : list Z) :
  let a := assemble slug title content summary in
  let kept (field input : list Z) :=
    utf8.runes field = List.filter stored_rune (utf8.runes input)
    /\ Forall (fun r => 32 <= r <= 126 \/ 256 <= r) (utf8.runes field) in
  kept (art_Title a) title
  /\ kept (art_Content a) content
  /\ kept (art_Summary a) summary.
Proof.
  assert (H : forall s,
    utf8.runes (strings.Map storage_filter s) = List.filter stored_rune (utf8.runes s)
    /\ Forall (fun r => 32 <= r <= 126 \/ 256 <= r)
              (utf8.runes (strings.Map storage_filter s))).
  { intros s. split; [apply storage_filter_runes|].
    rewrite storage_filter_runes. apply List.Forall_forall. intros r Hr.
    apply List.filter_In in Hr as [_ Hr]. now apply stored_rune_range. }
  cbn. repeat split; apply H.
Qed.

(** The stored title of an article whose title is "中文" holds both
    runes, neither of them in Latin-1. *)
Lemma stored_title_keeps_cjk :
  art_Title (assemble (lit "x") (lit "中文") [] []) = lit "中文"
  /\ utf8.runes (art_Title (assemble (lit "x") (lit "中文") [] [])) = [20013; 25991]
  /\ ~ Forall (fun r => r <= 255)
         (utf8.runes (art_Title (assemble (lit "x") (lit "中文") [] []))).
Proof.
  split; [reflexivity|]. split; [reflexivity|].
  intros H. apply Forall_cons in H as [H _]. revert H. vm_compute. congruence.
Qed.

(** ** Slug (C3) *)

(** *** Prefixes, occurrences and trimming *)

Lemma HasPrefix_spec (s p : list Z) :
  strings.HasPrefix s p = true <-> exists t, s = p ++ t.
Proof.
  revert s. induction p as [|x p IH]; intros s.
  - rewrite HasPrefix_nil. split; [eauto|auto].
  - destruct s as [|b s]; cbn [strings.HasPrefix].
    + split; [discriminate|]. intros [t Ht]. discriminate.
    + rewrite andb_true_iff, Z.eqb_eq, IH. split.
      * intros [-> [t ->]]. eauto.
      * intros [t [= -> ->]]. eauto.
Qed.

Lemma Contains_spec (s sub : list Z) :
  strings.Contains s sub = true <-> exists l1 l2, s = l1 ++ sub ++ l2.
Proof.
  induction s as [|b s IH]; cbn [strings.Contains].
  - rewrite orb_false_r, HasPrefix_spec. split.
    + intros [t Ht]. exists [], t. exact Ht.
    + intros (l1 & l2 & H). destruct l1; [eauto|discriminate].
  - rewrite orb_true_iff, HasPrefix_spec, IH. split.
    + intros [[t Ht]|(l1 & l2 & ->)].
      * exists [], t. exact Ht.
      * exists (b :: l1), l2. reflexivity.
    + intros (l1 & l2 & H). destruct l1 as [|x l1].
      * left. eauto.
      * right. injection H as -> ->. eauto.
Qed.

Lemma Contains_false_app (a b sub : list Z) :
  strings.Contains (a ++ b) sub = false ->
  strings.Contains a sub = false /\ strings.Contains b sub = false.
Proof.
  intros H. split.
  - destruct (strings.Contains a sub) eqn:E; [|reflexivity].
    apply Contains_spec in E as (l1 & l2 & ->).
    rewrite <- H. symmetry. apply Contains_spec. exists l1, (l2 ++ b).
    now rewrite <- !app_assoc.
  - destruct (strings.Contains b sub) eqn:E; [|reflexivity].
    apply Contains_spec in E as (l1 & l2 & ->).
    rewrite <- H. symmetry. apply Contains_spec. exists (a ++ l1), l2.
    now rewrite <- !app_assoc.
Qed.

Lemma TrimLeft_spec (s cutset : list Z) :
  exists t, s = t ++ strings.TrimLeft s cutset
    /\ Forall (fun b => strings.in_cutset cutset b = true) t
    /\ (forall b, head (strings.TrimLeft s cutset) = Some b ->
                  strings.in_cutset cutset b = false).
Proof.
  induction s as [|b s (t & Hs & Ht & Hh)]; cbn [strings.TrimLeft].
  - exists []. repeat split; [constructor|discriminate].
  - destruct (strings.in_cutset cutset b) eqn:E.
    + exists (b :: t). repeat split; [cbn; now f_equal|now constructor|exact Hh].
    + exists []. repeat split; [constructor|]. now intros ? [= <-].
Qed.

Lemma last_rev (l : list Z) : last (rev l) = head l.
Proof. destruct l as [|a l]; [reflexivity|]. cbn [rev head]. apply last_snoc. Qed.

Lemma TrimRight_spec (s cutset : list Z) :
  exists t, s = strings.TrimRight s cutset ++ t
    /\ Forall (fun b => strings.in_cutset cutset b = true) t
    /\ (forall b, last (strings.TrimRight s cutset) = Some b ->
                  strings.in_cutset cutset b = false).
Proof.
  unfold strings.TrimRight.
  destruct (TrimLeft_spec (rev s) cutset) as (t & Hs & Ht & Hh).
  exists (rev t). repeat split.
  - rewrite <- rev_app_distr, <- Hs. symmetry. apply rev_involutive.
  - apply List.Forall_rev. exact Ht.
  - intros b. rewrite last_rev. apply Hh.
Qed.

(** *** The collapsing loop *)

Lemma replace_from_Forall (P : Z -> Prop) (old new : list Z) (s : list Z) (k : nat) :
  Forall P s -> Forall P new -> Forall P (strings.replace_from k s old new).
Proof.
  intros Hs Hn. revert k. induction Hs as [|b s Hb Hs IH]; intros k; [constructor|].
  cbn [strings.replace_from]. destruct k; [|apply IH].
  destruct (strings.HasPrefix _ _).
  - apply Forall_app. split; [exact Hn|apply IH].
  - constructor; [exact Hb|apply IH].
Qed.

Lemma collapse_once_length (s : list Z) :
  (length (strings.replace_from 0 s (lit "--") (lit "-")) <= length s)%nat
  /\ (length (strings.replace_from 1 s (lit "--") (lit "-")) <= length s - 1)%nat.
Proof.
  change (lit "--") with [45; 45]. change (lit "-") with [45].
  induction s as [|b s [IH0 IH1]]; [cbn; lia|].
  cbn [strings.replace_from length Nat.sub]. split; [|lia].
  destruct (strings.HasPrefix _ _); cbn [app length]; lia.
Qed.

Lemma collapse_once_shorter (s : list Z) :
  strings.Contains s (lit "--") = true ->
  (length (strings.ReplaceAll s (lit "--") (lit "-")) < length s)%nat.
Proof.
  pose proof collapse_once_length as Hlen. revert Hlen.
  change (lit "--") with [45; 45]. change (lit "-") with [45]. intros Hlen.
  unfold strings.ReplaceAll.
  induction s as [|b s IH]; cbn [strings.Contains]; [discriminate|].
  cbn [strings.replace_from length Nat.sub].
  destruct (strings.HasPrefix (b :: s) [45; 45]) eqn:E; cbn [orb app length].
  - intros _. apply HasPrefix_spec in E as [t [= -> ->]].
    pose proof (Hlen (45 :: t)) as [_ H]. cbn [length] in *. lia.
  - intros H. specialize (IH H). lia.
Qed.

Lemma collapse_hyphens_done (fuel : nat) (s : list Z) :
  (length s <= fuel)%nat ->
  strings.Contains (collapse_hyphens fuel s) (lit "--") = false.
Proof.
  revert s. induction fuel as [|fuel IH]; intros s Hlen.
  - destruct s; [reflexivity|cbn in Hlen; lia].
  - cbn [collapse_hyphens].
    destruct (strings.Contains s (lit "--")) eqn:E; [|exact E].
    apply IH. pose proof (collapse_once_shorter s E). lia.
Qed.

Lemma collapse_hyphens_Forall (P : Z -> Prop) (fuel : nat) (s : list Z) :
  P 45 -> Forall P s -> Forall P (collapse_hyphens fuel s).
Proof.
  intros H45. revert s. induction fuel as [|fuel IH]; intros s Hs; [exact Hs|].
  cbn [collapse_hyphens]. destruct (strings.Contains _ _); [|exact Hs].
  apply IH. apply replace_from_Forall; [exact Hs|]. repeat constructor. exact H45.
Qed.

(** *** The automaton of the pattern *)

Lemma slug_re_accepts (s : list Z) :
  Forall (fun b => alnum b || (b =? 45) = true) s ->
  strings.Contains s [45; 45] = false ->
  (forall b, last s = Some b -> b <> 45) ->
  slug_re_from true s = true
  /\ (s <> [] -> (forall b, head s = Some b -> b <> 45) -> slug_re_from false s = true).
Proof.
  induction 1 as [|b s Hb Hs IH]; intros Hdd Hlast; [split; [reflexivity|congruence]|].
  cbn [strings.Contains] in Hdd. apply orb_false_iff in Hdd as [Hpre Hdd].
  assert (Hlast' : forall b', last s = Some b' -> b' <> 45).
  { intros b' Hb'. apply Hlast. destruct s; [discriminate|exact Hb']. }
  destruct (IH Hdd Hlast') as [IHt IHf].
  cbn [slug_re_from]. destruct (alnum b) eqn:Ea.
  - split; [exact IHt|]. intros _ _. exact IHt.
  - cbn [orb] in Hb. apply Z.eqb_eq in Hb as ->.
    assert (Hne : s <> []).
    { intros ->. now apply (Hlast 45). }
    assert (Hhead : forall b, head s = Some b -> b <> 45).
    { intros b' Hb' ->. destruct s as [|x s]; [discriminate|].
      cbn in Hb'. injection Hb' as ->.
      cbn [strings.HasPrefix] in Hpre. rewrite HasPrefix_nil in Hpre. discriminate. }
    split.
    + cbn. now apply IHf.
    + intros _ Hh. exfalso. now apply (Hh 45).
Qed.

Lemma slug_re_digits (ds : list Z) :
  Forall (fun b => is_digit b = true) ds ->
  slug_re_from true ds = true /\ (ds <> [] -> slug_re_from false ds = true).
Proof.
  induction 1 as [|b ds Hb _ [IH _]]; [split; [reflexivity|congruence]|].
  cbn [slug_re_from]. unfold alnum. unfold is_digit in Hb. rewrite Hb, orb_true_r.
  split; [exact IH|]. intros _. exact IH.
Qed.

(** *** Decimal digits *)

Lemma digits_grows (fuel : nat) (n : Z) (acc : list Z) :
  (length acc <= length (digits fuel n acc))%nat.
Proof.
  revert n acc. induction fuel as [|fuel IH]; intros n acc; [cbn; lia|].
  cbn [digits]. destruct (_ =? _); [cbn; lia|].
  specialize (IH (n / 10) (48 + n mod 10 :: acc)). cbn [length] in IH. lia.
Qed.

Lemma digits_nonempty (fuel : nat) (n : Z) (acc : list Z) :
  (S (length acc) <= length (digits (S fuel) n acc))%nat.
Proof.
  cbn [digits]. destruct (_ =? _); [cbn; lia|].
  pose proof (digits_grows fuel (n / 10) (48 + n mod 10 :: acc)) as H.
  cbn [length] in H. lia.
Qed.

Lemma digits_spec (fuel : nat) (n : Z) (acc : list Z) :
  0 <= n -> Forall (fun b => is_digit b = true) acc ->
  Forall (fun b => is_digit b = true) (digits fuel n acc)
  /\ (length (digits fuel n acc) <= fuel + length acc)%nat.
Proof.
  revert n acc. induction fuel as [|fuel IH]; intros n acc Hn Hacc.
  - cbn. split; [exact Hacc|lia].
  - cbn [digits].
    assert (Hd : Forall (fun b => is_digit b = true) (48 + n mod 10 :: acc)).
    { constructor; [|exact Hacc]. apply between_true.
      pose proof (Z.mod_pos_bound n 10). lia. }
    destruct (n / 10 =? 0).
    + split; [exact Hd|cbn; lia].
    + destruct (IH (n / 10) (48 + n mod 10 :: acc)) as (H1 & H2);
        [apply Z.div_pos; lia|exact Hd|].
      split; [exact H1|cbn [length] in H2; lia].
Qed.

Lemma itoa_nonneg (n : Z) :
  0 <= n ->
  Forall (fun b => is_digit b = true) (itoa n)
  /\ (1 <= length (itoa n) <= 20)%nat.
Proof.
  intros Hn. unfold itoa. destruct (Z.ltb_spec n 0) as [|_]; [lia|].
  destruct (digits_spec 20 n [] Hn (List.Forall_nil _)) as [H1 H2].
  split; [exact H1|]. split; [|cbn [length] in H2; lia].
  apply (digits_nonempty 19 n []).
Qed.

(** *** The slug itself *)

Lemma in_cutset_hyphen (b : Z) : strings.in_cutset (lit "-") b = (b =? 45).
Proof. cbn. apply orb_false_r. Qed.

Lemma write_runes_ascii (rs : list Z) :
  Forall (fun r => 0 <= r <= 127) rs -> write_runes rs = rs.
Proof.
  induction 1 as [|r rs Hr _ IH]; [reflexivity|].
  cbn [write_runes flat_map]. fold (write_runes rs). rewrite IH.
  unfold utf8.EncodeRune. now rewrite between_true by lia.
Qed.

Lemma slug_char_bytes (s : list Z) :
  Forall (fun b => alnum b || (b =? 45) = true) (strings.Map slug_char s).
Proof.
  assert (E : strings.Map slug_char s
              = List.filter (fun r => alnum r || (r =? 45)) (utf8.runes s)).
  { change slug_char with (fun r => if alnum r || (r =? 45) then r else -1).
    rewrite Map_filter. apply write_runes_ascii.
    apply List.Forall_forall. intros r Hr. apply List.filter_In in Hr as [_ Hr].
    unfold alnum in Hr. apply orb_true_iff in Hr as [Hr|Hr].
    - apply orb_true_iff in Hr as [Hr|Hr]; apply between_spec in Hr; lia.
    - apply Z.eqb_eq in Hr. lia. }
  rewrite E. apply List.Forall_forall. intros r Hr.
  now apply List.filter_In in Hr as [_ Hr].
Qed.

Lemma Trim_well_trimmed (s : list Z) :
  Forall (fun b => alnum b || (b =? 45) = true) s ->
  strings.Contains s (lit "--") = false ->
  well_trimmed (strings.Trim s (lit "-")).
Proof.
  intros Hs Hdd. unfold strings.Trim.
  destruct (TrimLeft_spec s (lit "-")) as (t1 & E1 & _ & Hhead).
  set (z := strings.TrimLeft s (lit "-")) in *.
  destruct (TrimRight_spec z (lit "-")) as (t2 & E2 & Ht2 & Hlast).
  set (c := strings.TrimRight z (lit "-")) in *.
  rewrite E1 in Hs, Hdd. apply Forall_app in Hs as [_ Hz].
  apply Contains_false_app in Hdd as [_ Hz'].
  rewrite E2 in Hz, Hz'. apply Forall_app in Hz as [Hc _].
  apply Contains_false_app in Hz' as [Hc' _].
  repeat split; [exact Hc|exact Hc'| |].
  - intros b Hb. destruct c as [|x c]; [discriminate|]. cbn in Hb. injection Hb as ->.
    specialize (Hhead b). rewrite E2 in Hhead. specialize (Hhead eq_refl).
    rewrite in_cutset_hyphen in Hhead. now apply Z.eqb_neq.
  - intros b Hb. specialize (Hlast b Hb).
    rewrite in_cutset_hyphen in Hlast. now apply Z.eqb_neq.
Qed.

Lemma slug_core_well_trimmed (LowerCase : Z -> Z) (title : list Z) :
  well_trimmed (slug_core LowerCase title).
Proof.
  unfold slug_core. apply Trim_well_trimmed.
  - apply collapse_hyphens_Forall; [reflexivity|apply slug_char_bytes].
  - apply collapse_hyphens_done. lia.
Qed.

Lemma well_trimmed_matches (s : list Z) :
  well_trimmed s -> s <> [] -> matches_slug_re s = true.
Proof.
  intros (Hs & Hdd & Hhead & Hlast) Hne.
  destruct (slug_re_accepts s Hs Hdd Hlast) as [_ H]. now apply H.
Qed.

(** Cutting a non-empty trimmed slug and trimming the cut on the right
    leaves a non-empty trimmed slug. *)
Lemma well_trimmed_cut (s : list Z) (n : nat) :
  well_trimmed s -> s <> [] -> (0 < n)%nat ->
  well_trimmed (strings.TrimRight (take n s) (lit "-"))
  /\ strings.TrimRight (take n s) (lit "-") <> []
  /\ (length (strings.TrimRight (take n s) (lit "-")) <= n)%nat.
Proof.
  intros (Hs & Hdd & Hhead & _) Hne Hn.
  destruct s as [|b s]; [congruence|]. destruct n as [|n]; [lia|].
  assert (Hb : b <> 45) by now apply Hhead.
  rewrite <- (take_drop (S n) (b :: s)) in Hs, Hdd.
  apply Forall_app in Hs as [Hp _]. apply Contains_false_app in Hdd as [Hp' _].
  assert (Hlen : (length (take (S n) (b :: s)) <= S n)%nat) by (rewrite length_take; lia).
  cbn [take] in *. set (p := take n s) in *.
  destruct (TrimRight_spec (b :: p) (lit "-")) as (t & E & Ht & Hlast).
  set (c := strings.TrimRight (b :: p) (lit "-")) in *.
  assert (Hc : c <> []).
  { intros Ec. rewrite Ec in E. cbn in E. rewrite <- E in Ht.
    apply Forall_cons in Ht as [Ht _]. rewrite in_cutset_hyphen in Ht.
    now apply Z.eqb_eq in Ht. }
  rewrite E in Hp, Hp', Hlen. apply Forall_app in Hp as [Hp _].
  apply Contains_false_app in Hp' as [Hp' _].
  rewrite length_app in Hlen.
  repeat split; [exact Hp|exact Hp'| | |exact Hc|lia].
  - intros x Hx. destruct c as [|y c]; [congruence|]. cbn in Hx. injection Hx as ->.
    injection E as -> _. exact Hb.
  - intros x Hx. specialize (Hlast x Hx). rewrite in_cutset_hyphen in Hlast.
    now apply Z.eqb_neq.
Qed.

Lemma runes_ascii (s : list Z) :
  Forall (fun b => 0 <= b <= 127) s -> utf8.runes s = s.
Proof.
  intros H. rewrite <- (write_runes_ascii s H) at 1.
  apply runes_write_runes. eapply Forall_impl; [exact H|].
  intros b Hb. cbv beta in Hb. unfold utf8.scalar.
  rewrite (between_true 0 55295) by lia. reflexivity.
Qed.

(** The steps between lower-casing and collapsing, on runes: the runes
    below 128 are kept, spaces become hyphens, and of these the letters
    a..z, the digits and the hyphens are kept. *)
Lemma slug_steps (s : list Z) :
  strings.Map slug_char (strings.ReplaceAll (strings.Map ascii_only s) (lit " ") (lit "-"))
  = List.filter (fun b => alnum b || (b =? 45))
      (map (fun b => if b =? 32 then 45 else b)
         (List.filter (fun r => r <? 128) (utf8.runes s))).
Proof.
  change ascii_only with (fun r => if r <? 128 then r else -1).
  rewrite Map_filter.
  assert (Hascii : Forall (fun b => 0 <= b <= 127)
                     (List.filter (fun r => r <? 128) (utf8.runes s))).
  { apply List.Forall_forall. intros r Hr. apply List.filter_In in Hr as [Hin Hr].
    apply Z.ltb_lt in Hr.
    pose proof (proj1 (List.Forall_forall _ _) (runes_scalar s) r Hin) as Hsc.
    apply scalar_nonneg, Z.ltb_ge in Hsc. lia. }
  rewrite (write_runes_ascii _ Hascii).
  change (lit " ") with [32]. change (lit "-") with [45]. rewrite ReplaceAll_byte.
  set (y := map _ _).
  assert (Hy : Forall (fun b => 0 <= b <= 127) y).
  { apply Forall_map. eapply Forall_impl; [exact Hascii|].
    intros b Hb. cbv beta in *. destruct (Z.eqb_spec b 32); lia. }
  change slug_char with (fun r => if alnum r || (r =? 45) then r else -1).
  rewrite Map_filter, (runes_ascii y Hy). apply write_runes_ascii.
  apply List.Forall_forall. intros r Hr. apply List.filter_In in Hr as [Hin _].
  exact (proj1 (List.Forall_forall _ _) Hy r Hin).
Qed.

(** C3. For every title the slug matches [^[a-z0-9]+(-[a-z0-9]+)*$] and
    has at most 100 bytes. When lower-casing, dropping the non-ASCII
    runes, turning spaces into hyphens, dropping what is not in
    [a-z0-9-], collapsing the hyphens and trimming them leaves nothing,
    the slug is "article-" followed by the decimal digits of the clock
    reading; otherwise it is what these steps leave, cut to 100 bytes
    and trimmed of a trailing hyphen when it is longer. *)
Theorem generateSlug_shape (LowerCase : Z -> Z) (now : Z) (title : list Z) :
  0 <= now < 2 ^ 63 ->
  let core := slug_core LowerCase title in
  let slug := generateSlug LowerCase now title in
  matches_slug_re slug = true
  /\ 1 <= len slug <= 100
  /\ (core = [] ->
      slug = lit "article-" ++ itoa now
      /\ itoa now <> []
      /\ Forall (fun b => is_digit b = true) (itoa now))
  /\ (core <> [] ->
      slug = if 100 <? len core
             then strings.TrimRight (slice_to core 100) (lit "-")
             else core)
  /\ well_trimmed core
  /\ (let valid := if negb (utf8.ValidString title)
                   then strings.ToValidUTF8 title else title in
      let kept :=
        List.filter (fun b => alnum b || (b =? 45))
          (map (fun b => if b =? 32 then 45 else b)
             (List.filter (fun r => r <? 128)
                (utf8.runes (strings.ToLower LowerCase valid)))) in
      core = strings.Trim (collapse_hyphens (length kept) kept) (lit "-")).
Proof.
  intros Hnow core slug.
  assert (Hsteps :
    let valid := if negb (utf8.ValidString title)
                 then strings.ToValidUTF8 title else title in
    let kept :=
      List.filter (fun b => alnum b || (b =? 45))
        (map (fun b => if b =? 32 then 45 else b)
           (List.filter (fun r => r <? 128)
              (utf8.runes (strings.ToLower LowerCase valid)))) in
    core = strings.Trim (collapse_hyphens (length kept) kept) (lit "-")).
  { intros valid kept. unfold core, slug_core. fold valid.
    rewrite slug_steps. reflexivity. }
  revert Hsteps. generalize (if negb (utf8.ValidString title)
                 then strings.ToValidUTF8 title else title). intros valid Hsteps.
  pose proof (slug_core_well_trimmed LowerCase title) as Hcore. fold core in Hcore.
  destruct (itoa_nonneg now) as [Hdig Hlen]; [lia|].
  unfold slug, generateSlug. fold core. clearbody core. clear slug.
  assert (Hcases : (core = [] /\ is_empty core = true)
                   \/ (core <> [] /\ is_empty core = false)).
  { destruct core; [left|right]; split; first [reflexivity|discriminate]. }
  destruct Hcases as [[Hnil ->]|[Hne ->]].
  - subst core.
    assert (Hfl : len (lit "article-" ++ itoa now) = 8 + Z.of_nat (length (itoa now))).
    { rewrite len_app. reflexivity. }
    assert (Hshort : (100 <? len (lit "article-" ++ itoa now)) = false).
    { apply Z.ltb_ge. lia. }
    assert (Hdne : itoa now <> []).
    { intros E. rewrite E in Hlen. cbn in Hlen. lia. }
    rewrite Hshort. split; [|split; [|split; [|split; [|split]]]].
    + change (matches_slug_re (lit "article-" ++ itoa now))
        with (slug_re_from false (itoa now)).
      now apply slug_re_digits.
    + lia.
    + intros _. auto.
    + congruence.
    + exact Hcore.
    + exact Hsteps.
  - assert (Hpos : 1 <= len core).
    { unfold len. destruct core; [congruence|cbn [length]; lia]. }
    destruct (Z.ltb_spec 100 (len core)) as [Hlong|Hshort].
    + destruct (well_trimmed_cut core 100 Hcore Hne) as (Hw & Hn & Hl); [lia|].
      unfold slice_to. change (Z.to_nat 100) with 100%nat.
      split; [|split; [|split; [|split; [|split]]]].
      * now apply well_trimmed_matches.
      * unfold len. destruct (strings.TrimRight _ _); [congruence|cbn [length] in *; lia].
      * congruence.
      * auto.
      * exact Hcore.
      * exact Hsteps.
    + split; [|split; [|split; [|split; [|split]]]].
      * now apply well_trimmed_matches.
      * lia.
      * congruence.
      * auto.
      * exact Hcore.
      * exact Hsteps.
Qed.

Lemma generateSlug_shape_witness :
  generateSlug (fun r => r) 1700000000 (lit "中医养生 Tips!!") = lit "tips"
  /\ generateSlug (fun r => r) 1700000000 (lit "中医养生") = lit "article-1700000000".
Proof.
  pose proof (generateSlug_shape (fun r => r) 1700000000 (lit "中医养生 Tips!!"))
    as H1.
  pose proof (generateSlug_shape (fun r => r) 1700000000 (lit "中医养生"))
    as H2.
  cbv zeta in H1, H2.
  destruct H1 as (_ & _ & _ & H1 & _); [lia|].
  destruct H2 as (_ & _ & H2 & _); [lia|].
  split.
  - rewrite H1; [reflexivity|]. vm_compute. discriminate.
  - destruct H2 as [H2 _]; [reflexivity|]. rewrite H2. reflexivity.
Defined.

(** ** Title and body (C5) *)

(** *** White space *)

Lemma DecodeRune_chunk (s : list Z) r n :
  s <> [] -> utf8.DecodeRune s = (r, n) ->
  take n s <> [] /\ (last (take n s) = Some 32 -> r = 32).
Proof.
  intros Hne Hd. destruct s as [|b0 s]; [congruence|]. clear Hne.
  unfold utf8.DecodeRune in Hd.
  assert (Hbad : utf8.between 0 127 b0 = false ->
                 (utf8.RuneError, 1%nat) = (r, n) ->
                 take n (b0 :: s) <> [] /\ (last (take n (b0 :: s)) = Some 32 -> r = 32)).
  { intros E0 [= <- <-]. cbn. split; [discriminate|]. intros [= ->]. discriminate. }
  destruct (utf8.between 0 127 b0) eqn:E0.
  { injection Hd as <- <-. cbn. split; [discriminate|]. now intros [= ->]. }
  specialize (Hbad eq_refl).
  destruct (utf8.between 194 223 b0).
  { destruct s as [|b1 s]; [auto|]. destruct (utf8.cont b1) eqn:C1; [|auto].
    injection Hd as <- <-. cbn. split; [discriminate|]. intros [= ->]. discriminate. }
  destruct (utf8.between 224 239 b0).
  { destruct s as [|b1 [|b2 s]]; auto.
    destruct (utf8.between _ _ b1 && utf8.cont b2) eqn:C; [|auto].
    apply andb_true_iff in C as [_ C2].
    injection Hd as <- <-. cbn. split; [discriminate|]. intros [= ->]. discriminate. }
  destruct (utf8.between 240 244 b0); [|auto].
  destruct s as [|b1 [|b2 [|b3 s]]]; auto.
  destruct (utf8.between _ _ b1 && utf8.cont b2 && utf8.cont b3) eqn:C; [|auto].
  apply andb_true_iff in C as [_ C3].
  injection Hd as <- <-. cbn. split; [discriminate|]. intros [= ->]. discriminate.
Qed.

Lemma range_chunks (s : list Z) :
  Forall (fun c : Z * list Z => c.2 <> [] /\ (last c.2 = Some 32 -> c.1 = 32))
         (utf8.range s).
Proof.
  remember (length s) as m eqn:Hm. revert s Hm.
  induction m as [m IH] using lt_wf_ind. intros s Hm.
  destruct s as [|b s]; [constructor|].
  destruct (utf8.DecodeRune (b :: s)) as [r n] eqn:Hd.
  destruct (DecodeRune_spec (b :: s) r n) as [_ Hn]; [discriminate|assumption|].
  rewrite (range_cons _ r n) by (discriminate || assumption).
  constructor; [apply (DecodeRune_chunk (b :: s) r n); [discriminate|assumption]|].
  apply (IH (length (drop n (b :: s)))); [|reflexivity].
  rewrite length_drop. subst m. lia.
Qed.

Lemma drop_spaces_spec (cs : list (Z * list Z)) :
  (exists pre, cs = pre ++ strings.drop_spaces cs)
  /\ (forall c, head (strings.drop_spaces cs) = Some c -> unicode.IsSpace c.1 = false).
Proof.
  induction cs as [|c cs [[pre IH1] IH2]]; cbn [strings.drop_spaces].
  - split; [exists []; reflexivity|discriminate].
  - destruct (unicode.IsSpace c.1) eqn:E.
    + split; [exists (c :: pre); cbn; now f_equal|exact IH2].
    + split; [exists []; reflexivity|]. now intros ? [= <-].
Qed.

(** The result of [TrimSpace] does not end in a space. *)
Lemma TrimSpace_last (s : list Z) : last (strings.TrimSpace s) <> Some 32.
Proof.
  unfold strings.TrimSpace.
  destruct (drop_spaces_spec (utf8.range s)) as [[pre1 E1] _].
  set (cs := strings.drop_spaces (utf8.range s)) in *.
  destruct (drop_spaces_spec (rev cs)) as [[pre2 E2] Hhead].
  destruct (strings.drop_spaces (rev cs)) as [|c d] eqn:Ed; [discriminate|].
  specialize (Hhead c eq_refl).
  assert (Hin : c ∈ utf8.range s).
  { rewrite E1. apply elem_of_app. right. apply list_elem_of_In, in_rev.
    rewrite E2. apply in_or_app. right. now left. }
  pose proof (proj1 (Forall_forall _ _) (range_chunks s) c Hin) as [Hne H32].
  cbn [rev]. rewrite map_app, concat_app. cbn [map concat]. rewrite app_nil_r.
  rewrite last_app. destruct (last c.2) as [x|] eqn:El.
  - intros [= ->]. rewrite (H32 eq_refl) in Hhead. discriminate.
  - destruct c.2; [congruence|]. apply last_None in El. discriminate.
Qed.

Lemma heading_text_nonempty (raw : list Z) :
  heading_line raw = true -> heading_text raw <> [].
Proof.
  unfold heading_line, heading_text, strings.TrimPrefix. intros H. rewrite H.
  apply HasPrefix_spec in H as [t Ht]. rewrite Ht.
  change (drop (length (lit "# ")) (lit "# " ++ t)) with t. intros ->.
  apply (TrimSpace_last raw). now rewrite Ht.
Qed.

Lemma heading_not_blank (raw : list Z) :
  heading_line raw = true -> blank_line raw = false.
Proof.
  unfold heading_line, blank_line. intros H.
  apply HasPrefix_spec in H as [t ->]. reflexivity.
Qed.

(** *** The loop *)

Lemma parse_line_blank (st : parse_state) (raw : list Z) :
  blank_line raw = true -> contentStarted st = false -> parse_line st raw = st.
Proof. unfold parse_line, blank_line. now intros -> ->. Qed.

Lemma parse_first (raw : list Z) :
  blank_line raw = false ->
  parse_line {| title := []; contentLines := []; contentStarted := false |} raw
  = {| title := if heading_line raw then heading_text raw else strings.TrimSpace raw;
       contentLines := [];
       contentStarted := true |}.
Proof.
  unfold parse_line, blank_line, heading_line, heading_text. intros ->.
  cbn [title contentLines contentStarted is_empty andb negb].
  now destruct (strings.HasPrefix _ _).
Qed.

Lemma parse_rest (lines : list (list Z)) (st : parse_state) :
  title st <> [] -> contentStarted st = true ->
  fold_left parse_line lines st
  = {| title := match last (List.filter heading_line lines) with
                | Some h => heading_text h
                | None => title st
                end;
       contentLines :=
         contentLines st
         ++ map (fun raw => if blank_line raw then [] else raw)
                (List.filter (fun raw => negb (heading_line raw)) lines);
       contentStarted := true |}.
Proof.
  revert st. induction lines as [|raw lines IH]; intros st Ht Hs.
  - cbn. rewrite app_nil_r. destruct st; cbn in *. now subst.
  - cbn [fold_left List.filter].
    assert (Hnot : is_empty (title st) = false) by (destruct (title st); [congruence|reflexivity]).
    destruct (heading_line raw) eqn:Eh.
    + pose proof (heading_not_blank raw Eh) as Eb.
      pose proof (heading_text_nonempty raw Eh) as Hne.
      unfold parse_line. fold (blank_line raw). fold (heading_line raw). fold (heading_text raw).
      rewrite Eb, Eh. rewrite IH by (cbn; auto). cbn [title contentLines negb].
      f_equal. rewrite last_cons. now destruct (last _).
    + unfold parse_line. fold (blank_line raw). fold (heading_line raw).
      rewrite Eh, Hnot, Hs. cbn [andb negb map].
      destruct (blank_line raw) eqn:Eb; rewrite IH by (cbn; auto);
        cbn [title contentLines]; now rewrite <- app_assoc.
Qed.

Lemma parse_lines (lines : list (list Z)) :
  let st := fold_left parse_line lines
              {| title := []; contentLines := []; contentStarted := false |} in
  (if is_empty (title st) then default_title else title st) = described_title lines
  /\ contentLines st = described_body lines.
Proof.
  unfold described_title, described_body.
  induction lines as [|raw lines IH]; [split; reflexivity|].
  cbn [fold_left skip_blank]. destruct (blank_line raw) eqn:Eb.
  - rewrite parse_line_blank by auto. exact IH.
  - rewrite parse_first by exact Eb.
    assert (Hne : (if heading_line raw then heading_text raw else strings.TrimSpace raw) <> []).
    { destruct (heading_line raw) eqn:Eh; [now apply heading_text_nonempty|].
      unfold blank_line in Eb. now destruct (strings.TrimSpace raw). }
    rewrite parse_rest by (cbn; auto). cbn [title contentLines app List.filter].
    split; [|reflexivity].
    assert (Hif : forall t : list Z, t <> [] ->
                    (if is_empty t then default_title else t) = t).
    { intros [|x t] Hx; [congruence|reflexivity]. }
    assert (Hlast : forall l, last (List.filter heading_line lines) = Some l ->
                      heading_text l <> []).
    { intros l El. apply heading_text_nonempty.
      apply last_Some in El as [l' El].
      assert (In l (List.filter heading_line lines)) as Hin
        by (rewrite El; apply in_or_app; right; now left).
      now apply List.filter_In in Hin. }
    destruct (heading_line raw) eqn:Eh.
    + rewrite last_cons. destruct (last _) eqn:El; apply Hif; auto.
    + destruct (last _) eqn:El; apply Hif; auto.
Qed.



(** ** Running the services *)

Ltac run :=
  unfold redis_cmd, db, Now;
  unfold bind, ret, emit, get_redis, put_redis;
  cbn [redis log fst snd queue members keys].

(** ** Reading a task (C7) *)

Lemma GetTask_absent (env : Env) (taskID : list Z) (w : World) :
  redis_fault env (length (log w)) = None ->
  taskID ∉ members (redis w) ->
  (GetTask env taskID w).1 = Err task_missing.
Proof.
  intros H0 Hn. unfold GetTask. run. rewrite H0. run.
  now rewrite bool_decide_false.
Qed.

Lemma GetTask_present (env : Env) (taskID : list Z) (w : World) :
  redis_fault env (length (log w)) = None ->
  redis_fault env (S (length (log w))) = None ->
  taskID ∈ members (redis w) ->
  (GetTask env taskID w).1
  = match keys (redis w) !! task_key taskID with
    | None => Err task_missing
    | Some p =>
      match Unmarshal p with
      | Err err => Err (Errorf_v (lit "解析任务信息失败: ") err)
      | Ok task => Ok task
      end
    end.
Proof.
  intros H0 H1 Hin. unfold GetTask. run. rewrite H0. run.
  rewrite bool_decide_true by assumption. cbn [negb]. run.
  rewrite length_app, Nat.add_1_r, H1.
  destruct (keys (redis w) !! task_key taskID) as [p|]; [|reflexivity].
  now destruct (Unmarshal p).
Qed.

(** C7, as the code has it. When the two commands go through, [GetTask]
    fails with the error "任务不存在" when the id is not in the set, and
    fails with an error of the same text when the id is in the set and
    its key is absent; when the key holds a task, that task is returned. *)
Theorem GetTask_missing (env : Env) (taskID : list Z) (w : World) :
  redis_fault env (length (log w)) = None ->
  (taskID ∉ members (redis w) ->
     (GetTask env taskID w).1 = Err task_missing)
  /\ (taskID ∈ members (redis w) ->
      redis_fault env (S (length (log w))) = None ->
      (keys (redis w) !! task_key taskID = None ->
         (GetTask env taskID w).1 = Err task_missing)
      /\ (forall task,
           keys (redis w) !! task_key taskID = Some (Marshalled task) ->
           (GetTask env taskID w).1 = Ok task)).
Proof.
  intros H0. split; [now apply GetTask_absent|].
  intros Hin H1. rewrite GetTask_present by assumption. split.
  - now intros ->.
  - now intros task ->.
Qed.

Lemma GetTask_missing_witness :
  (GetTask quiet (lit "task_1_5") world_absent).1 = Err task_missing
  /\ (GetTask quiet (lit "task_1_5") world_expired).1 = Err task_missing.
Proof.
  destruct (GetTask_missing quiet (lit "task_1_5") world_absent eq_refl) as [Ha _].
  destruct (GetTask_missing quiet (lit "task_1_5") world_expired eq_refl) as [_ He].
  split.
  - apply Ha. cbn. apply not_elem_of_empty.
  - apply He; [cbn; now apply elem_of_singleton|reflexivity|reflexivity].
Defined.

(** An id that was never added and an id whose key has expired get the
    same answer. *)
Lemma GetTask_absent_like_expired :
  (lit "task_1_5" ∉ members (redis world_absent))
  /\ (lit "task_1_5" ∈ members (redis world_expired))
  /\ keys (redis world_expired) !! task_key (lit "task_1_5") = None
  /\ (GetTask quiet (lit "task_1_5") world_absent).1
     = (GetTask quiet (lit "task_1_5") world_expired).1.
Proof.
  assert (H1 : lit "task_1_5" ∉ members (redis world_absent)).
  { cbn. apply not_elem_of_empty. }
  assert (H2 : lit "task_1_5" ∈ members (redis world_expired)).
  { cbn. now apply elem_of_singleton. }
  split; [exact H1|]. split; [exact H2|]. split; [reflexivity|].
  rewrite GetTask_absent by (reflexivity || assumption).
  rewrite GetTask_present by (reflexivity || assumption).
  reflexivity.
Qed.

(** ** Enqueueing (C8) *)

Lemma AddTask_run (env : Env) (task : GenerationTask) (w : World) :
  let n := length (log w) in
  let task' := set_times task TaskStatusPending (clock env n) (clock env (n + 1)) in
  let log' := log w ++ [EvNow; EvNow; EvPipeline task'] in
  AddTask env task w
  = match redis_fault env (n + 2) with
    | Some err =>
      ((task', Some (Errorf_v (lit "添加任务到队列失败: ") err)),
       {| redis := redis w; log := log' |})
    | None =>
      ((task', None),
       {| redis := {| queue := queue (redis w) ++ [Marshalled task'];
                      members := {[ ID task' ]} ∪ members (redis w);
                      keys := keys (redis w) |};
          log := log' |})
    end.
Proof.
  intros n task' log'. unfold AddTask. run.
  rewrite !length_app. cbn [length]. fold n.
  replace (n + 1 + 1)%nat with (n + 2)%nat by lia.
  fold task'. rewrite <- !app_assoc. cbn [app]. fold log'.
  destruct (redis_fault env (n + 2)); reflexivity.
Qed.

Lemma batch_from_run (env : Env) (categoryIDs : list Z) (userID : Z)
    (keywordIDs : list Z) :
  forall (acc : list (list Z)) (w : World),
  let n := length (log w) in
  let tasks := batch_tasks env n keywordIDs categoryIDs userID in
  let k := enqueued env n (length keywordIDs) in
  let out := batch_from env keywordIDs categoryIDs userID acc w in
  queue (redis out.2) = queue (redis w) ++ map Marshalled (take k tasks)
  /\ members (redis out.2) = list_to_set (map ID (take k tasks)) ∪ members (redis w)
  /\ keys (redis out.2) = keys (redis w)
  /\ (k = length keywordIDs -> out.1 = Ok (acc ++ map ID tasks))
  /\ ((k < length keywordIDs)%nat ->
      exists err, redis_fault env (n + 4 * k + 3) = Some err
        /\ out.1 = Err (Errorf_v (lit "添加任务失败: ")
                          (Errorf_v (lit "添加任务到队列失败: ") err))).
Proof.
  induction keywordIDs as [|kw rest IH]; intros acc w n tasks k out.
  - subst out k tasks. cbn. rewrite app_nil_r.
    repeat split; try reflexivity; [set_solver|now rewrite app_nil_r|lia].
  - subst out. cbn [batch_from]. unfold Now at 1. run.
    rewrite AddTask_run. cbn [log]. rewrite length_app. cbn [length]. fold n.
    replace (n + 1 + 1)%nat with (n + 2)%nat by lia.
    replace (n + 1 + 2)%nat with (n + 3)%nat by lia.
    set (t := set_times _ _ _ _).
    assert (Et : t = batch_task env n kw categoryIDs userID) by reflexivity.
    subst k tasks. cbn [enqueued batch_tasks length].
    destruct (redis_fault env (n + 3)) as [err|] eqn:Ef; cbn [fst snd redis log].
    + cbn [take map app]. rewrite app_nil_r.
      repeat split; try reflexivity; [set_solver|lia|].
      intros _. exists err. split; [|reflexivity].
      now replace (n + 4 * 0 + 3)%nat with (n + 3)%nat by lia.
    + match goal with |- context [batch_from env rest categoryIDs userID ?a ?w1] =>
        specialize (IH a w1) end.
      cbv zeta in IH. cbn [log redis queue members keys] in IH.
      assert (Hlen : length ((log w ++ [EvNow]) ++ [EvNow; EvNow; EvPipeline t])
                     = (n + 4)%nat).
      { rewrite !length_app. cbn [length]. fold n. lia. }
      rewrite Hlen in IH. clear Hlen.
      destruct IH as (Hq & Hm & Hk & Hok & Herr).
      rewrite Hq, Hm, Hk. cbn [take map]. rewrite <- Et.
      split; [rewrite <- app_assoc; reflexivity|].
      split; [cbn [list_to_set]; set_solver|].
      split; [reflexivity|]. split.
      * intros Hlen. rewrite Hok by lia. now rewrite <- app_assoc.
      * intros Hlt. destruct Herr as (err & Hf & Hr); [lia|].
        exists err. split; [|exact Hr].
        now replace (n + 4 * S (enqueued env (n + 4) (length rest)) + 3)%nat
          with (n + 4 + 4 * enqueued env (n + 4) (length rest) + 3)%nat by lia.
Qed.

(** *** Ids *)

Lemma digits_app (fuel : nat) (n : Z) (acc : list Z) :
  digits fuel n acc = digits fuel n [] ++ acc.
Proof.
  revert n acc. induction fuel as [|fuel IH]; intros n acc; [reflexivity|].
  cbn [digits]. destruct (_ =? _); [reflexivity|].
  rewrite (IH _ (_ :: acc)), (IH _ [_]). now rewrite <- app_assoc.
Qed.

Lemma digits_value_digits (fuel : nat) (n : Z) :
  0 <= n < 10 ^ Z.of_nat fuel -> digits_value (digits fuel n []) = n.
Proof.
  revert n. induction fuel as [|fuel IH]; intros n Hn.
  - cbn in *. lia.
  - rewrite Nat2Z.inj_succ, Z.pow_succ_r in Hn by lia.
    assert (Hq : 0 <= n / 10 < 10 ^ Z.of_nat fuel).
    { split; [apply Z.div_pos; lia|]. apply Z.div_lt_upper_bound; lia. }
    cbn [digits]. destruct (Z.eqb_spec (n / 10) 0) as [E|E].
    + unfold digits_value. cbn [fold_left].
      pose proof (Z.div_mod n 10). lia.
    + rewrite digits_app. unfold digits_value. rewrite fold_left_app. cbn [fold_left].
      fold (digits_value (digits fuel (n / 10) [])). rewrite IH by exact Hq.
      pose proof (Z.div_mod n 10). lia.
Qed.

Lemma itoa_inj (a b : Z) :
  0 <= a < 2 ^ 64 -> 0 <= b < 2 ^ 64 -> itoa a = itoa b -> a = b.
Proof.
  intros Ha Hb. unfold itoa.
  destruct (Z.ltb_spec a 0); [lia|]. destruct (Z.ltb_spec b 0); [lia|].
  intros E. rewrite <- (digits_value_digits 20 a), <- (digits_value_digits 20 b).
  - now rewrite E.
  - change (10 ^ Z.of_nat 20) with 100000000000000000000.
    change (2 ^ 64) with 18446744073709551616 in Hb. lia.
  - change (10 ^ Z.of_nat 20) with 100000000000000000000.
    change (2 ^ 64) with 18446744073709551616 in Ha. lia.
Qed.

Lemma itoa_no_underscore (a : Z) : 0 <= a -> 95 ∉ itoa a.
Proof.
  intros Ha Hin. destruct (itoa_nonneg a Ha) as [Hd _].
  apply list_elem_of_In in Hin.
  pose proof (proj1 (List.Forall_forall _ _) Hd 95 Hin) as H. discriminate.
Qed.

Lemma split_at_first (x : Z) (l1 l2 r1 r2 : list Z) :
  x ∉ l1 -> x ∉ l2 -> l1 ++ x :: r1 = l2 ++ x :: r2 -> l1 = l2 /\ r1 = r2.
Proof.
  revert l2. induction l1 as [|a l1 IH]; intros [|b l2] H1 H2 E; cbn in E.
  - now injection E.
  - injection E as <- _. exfalso. apply H2. now left.
  - injection E as -> _. exfalso. apply H1. now left.
  - injection E as -> E. apply not_elem_of_cons in H1 as [_ H1].
    apply not_elem_of_cons in H2 as [_ H2].
    destruct (IH l2 H1 H2 E) as [-> ->]. auto.
Qed.

Lemma task_id_inj (a b s t : Z) :
  0 <= a < 2 ^ 64 -> 0 <= b < 2 ^ 64 -> 0 <= s < 2 ^ 64 -> 0 <= t < 2 ^ 64 ->
  lit "task_" ++ itoa a ++ lit "_" ++ itoa s
  = lit "task_" ++ itoa b ++ lit "_" ++ itoa t ->
  a = b /\ s = t.
Proof.
  intros Ha Hb Hs Ht E. apply app_inv_head in E.
  change (lit "_") with [95] in E. cbn [app] in E.
  apply split_at_first in E as [E1 E2]; try (apply itoa_no_underscore; lia).
  split; now apply itoa_inj.
Qed.

Lemma batch_tasks_ids (env : Env) (categoryIDs : list Z) (userID : Z)
    (keywordIDs : list Z) (n : nat) (t : GenerationTask) :
  In t (batch_tasks env n keywordIDs categoryIDs userID) ->
  exists p kw, (n <= p < n + 4 * length keywordIDs)%nat /\ In kw keywordIDs
    /\ ID t = lit "task_" ++ itoa kw ++ lit "_" ++ itoa (clock env p).
Proof.
  revert n. induction keywordIDs as [|kw rest IH]; intros n; [intros []|].
  cbn [batch_tasks length]. intros [<-|Hin].
  - exists n, kw. split; [lia|]. split; [now left|reflexivity].
  - destruct (IH _ Hin) as (p & kw' & Hp & Hkw & E).
    exists p, kw'. split; [lia|]. split; [now right|exact E].
Qed.

Lemma batch_tasks_NoDup (env : Env) (categoryIDs : list Z) (userID : Z)
    (keywordIDs : list Z) (n : nat) :
  Forall (fun kw => 0 <= kw < 2 ^ 64) keywordIDs ->
  (forall i, (n <= i < n + 4 * length keywordIDs)%nat -> 0 <= clock env i < 2 ^ 63) ->
  (forall i j, (n <= i < n + 4 * length keywordIDs)%nat ->
               (n <= j < n + 4 * length keywordIDs)%nat ->
               clock env i = clock env j -> i = j) ->
  NoDup (map ID (batch_tasks env n keywordIDs categoryIDs userID)).
Proof.
  revert n. induction keywordIDs as [|kw rest IH]; intros n Hkw Hrange Hinj.
  - constructor.
  - apply Forall_cons in Hkw as [Hkw Hrest]. cbn [batch_tasks map length] in *.
    constructor.
    + intros Hin. apply list_elem_of_In, in_map_iff in Hin as (t & E & Hin).
      apply batch_tasks_ids in Hin as (p & kw' & Hp & Hkw' & Ep).
      rewrite Ep in E. cbn [ID batch_task] in E.
      pose proof (proj1 (List.Forall_forall _ _) Hrest kw' Hkw') as Hkw'r.
      pose proof (Hrange n ltac:(lia)) as Hn. pose proof (Hrange p ltac:(lia)) as Hpp.
      assert (H63 : 2 ^ 63 < 2 ^ 64) by reflexivity.
      cbv beta in *.
      apply task_id_inj in E as [_ E]; try lia.
      apply Hinj in E; lia.
    + apply IH; [exact Hrest| |].
      * intros i Hi. apply Hrange. lia.
      * intros i j Hi Hj. apply Hinj; lia.
Qed.

(** C8, as the code has it. [BatchAddTasks] enqueues the tasks one by
    one and stops at the first that fails to be enqueued: the tasks
    before it are in the queue and in the set, the failing one and
    those after it are not, and the error is returned without any id.
    When nothing fails, every keyword has its task in the queue, in
    order, and the ids are returned. Every task has the id
    task_<keyword>_<nanoseconds>; the ids differ from one another when
    the clock readings do. *)
Theorem BatchAddTasks_stops_at_failure (env : Env)
    (keywordIDs categoryIDs : list Z) (userID : Z) (w : World) :
  let n := length (log w) in
  let tasks := batch_tasks env n keywordIDs categoryIDs userID in
  let k := enqueued env n (length keywordIDs) in
  let out := BatchAddTasks env keywordIDs categoryIDs userID w in
  queue (redis out.2) = queue (redis w) ++ map Marshalled (take k tasks)
  /\ members (redis out.2) = list_to_set (map ID (take k tasks)) ∪ members (redis w)
  /\ keys (redis out.2) = keys (redis w)
  /\ (k = length keywordIDs -> out.1 = Ok (map ID tasks))
  /\ ((k < length keywordIDs)%nat ->
      exists err, redis_fault env (n + 4 * k + 3) = Some err
        /\ out.1 = Err (Errorf_v (lit "添加任务失败: ")
                          (Errorf_v (lit "添加任务到队列失败: ") err)))
  /\ (Forall (fun kw => 0 <= kw < 2 ^ 64) keywordIDs ->
      (forall i, (n <= i < n + 4 * length keywordIDs)%nat ->
                 0 <= clock env i < 2 ^ 63) ->
      (forall i j, (n <= i < n + 4 * length keywordIDs)%nat ->
                   (n <= j < n + 4 * length keywordIDs)%nat ->
                   clock env i = clock env j -> i = j) ->
      NoDup (map ID tasks)).
Proof.
  intros n tasks k out.
  destruct (batch_from_run env categoryIDs userID keywordIDs [] w)
    as (Hq & Hm & Hk & Hok & Herr).
  split; [exact Hq|]. split; [exact Hm|]. split; [exact Hk|].
  split; [exact Hok|]. split; [exact Herr|].
  apply batch_tasks_NoDup.
Qed.

Lemma BatchAddTasks_stops_at_failure_witness :
  (BatchAddTasks quiet [1; 1] [] 7 world_absent).1
  = Ok [lit "task_1_1700000000000000000"; lit "task_1_1700000000000000004"]
  /\ (BatchAddTasks fails_once [1; 2] [] 7 world_absent).1
     = Err (Errorf_v (lit "添加任务失败: ")
              (Errorf_v (lit "添加任务到队列失败: ") refused))
  /\ NoDup (map ID (batch_tasks quiet 0 [1; 1] [] 7)).
Proof.
  pose proof (BatchAddTasks_stops_at_failure quiet [1; 1] [] 7 world_absent)
    as (_ & _ & _ & Hok & _ & Hnd).
  pose proof (BatchAddTasks_stops_at_failure fails_once [1; 2] [] 7 world_absent)
    as (_ & _ & _ & _ & Herr & _).
  split; [|split].
  - rewrite Hok; reflexivity.
  - destruct Herr as (err & Hf & ->); [cbn; lia|].
    cbn in Hf. injection Hf as <-. reflexivity.
  - apply Hnd.
    + repeat constructor; lia.
    + intros i Hi. cbn [clock quiet]. cbn in Hi. lia.
    + intros i j _ _. cbn [clock quiet]. lia.
Defined.

(** The first of two tasks fails to be enqueued, at the only command
    that fails; the second is not enqueued. *)
Lemma batch_gives_up :
  (forall i, i <> 3%nat -> redis_fault fails_once i = None)
  /\ queue (redis (BatchAddTasks fails_once [1; 2] [] 7 world_absent).2) = []
  /\ members (redis (BatchAddTasks fails_once [1; 2] [] 7 world_absent).2) = ∅
  /\ (BatchAddTasks fails_once [1; 2] [] 7 world_absent).1
     = Err (Errorf_v (lit "添加任务失败: ")
              (Errorf_v (lit "添加任务到队列失败: ") refused)).
Proof.
  split.
  { intros i Hi. cbn. destruct (Nat.eqb_spec i 3); [congruence|reflexivity]. }
  unfold BatchAddTasks.
  destruct (batch_from_run fails_once [] 7 [1; 2] [] world_absent)
    as (Hq & Hm & _ & _ & Herr).
  split; [exact Hq|]. split; [rewrite Hm; cbn; set_solver|].
  destruct Herr as (err & Hf & Hr); [cbn; lia|].
  cbn in Hf. injection Hf as <-. exact Hr.
Qed.

(** ** The worker (C1, C2, C9) *)

(** *** Computations that leave the store alone *)

Lemma only_emits_ret {A} (P : event -> Prop) (a : A) : only_emits P (ret a).
Proof. intros w. split; [reflexivity|]. exists []. now rewrite app_nil_r. Qed.

Lemma only_emits_bind {A B} (P : event -> Prop) (m : M A) (k : A -> M B) :
  only_emits P m -> (forall a, only_emits P (k a)) -> only_emits P (bind m k).
Proof.
  intros Hm Hk w. unfold bind. destruct (m w) as [a w1] eqn:E.
  destruct (Hm w) as [Hr (evs1 & Hl & Hp)]. rewrite E in Hr, Hl. cbn [snd] in *.
  destruct (Hk a w1) as [Hr' (evs2 & Hl' & Hp')].
  split; [congruence|]. exists (evs1 ++ evs2).
  split; [rewrite Hl', Hl; now rewrite <- app_assoc|now apply Forall_app].
Qed.

Lemma only_emits_emit (P : event -> Prop) (e : event) : P e -> only_emits P (emit e).
Proof. intros He w. split; [reflexivity|]. exists [e]. split; [reflexivity|]. auto. Qed.

Ltac only_emits_step :=
  first
    [ apply only_emits_ret
    | apply only_emits_emit; exact I
    | apply only_emits_bind; [|intros ?]
    | match goal with
      | |- only_emits _ (match ?x with _ => _ end) => destruct x
      | |- only_emits _ ((if ?c then _ else _) _) => destruct c
      end ].

Lemma tx_step_only_emits (env : Env) {A} (op : db_op) (prefix : list Z)
    (k : M (result A)) :
  generation_event (EvDb op) -> only_emits generation_event k ->
  only_emits generation_event (tx_step env op prefix k).
Proof.
  intros Hop Hk. unfold tx_step, db.
  apply only_emits_bind; [|intros e].
  - apply only_emits_bind; [now apply only_emits_emit|intros i; apply only_emits_ret].
  - destruct e; [|exact Hk]. repeat only_emits_step.
Qed.

Lemma GenerateArticle_only_emits (PrintRanges : Z -> bool) (LowerCase : Z -> Z)
    (config : Config) (env : Env) (keyword : Keyword) (categoryIDs : list Z) :
  only_emits generation_event
    (GenerateArticle PrintRanges LowerCase config env keyword categoryIDs).
Proof.
  unfold GenerateArticle, finish_article, generate_content, generateWithDeepSeek,
    generateWithOllama, generateSlug_now, store_article, db, Now.
  repeat only_emits_step.
  all: repeat (apply tx_step_only_emits; [exact I|]).
  all: repeat only_emits_step.
Qed.

(** *** One task *)

Lemma updateTaskStatus_run (env : Env) (task : GenerationTask) (w : World) :
  log (updateTaskStatus env task w).2
  = log w ++ [EvSet (task_key (ID task)) task retention]
  /\ queue (redis (updateTaskStatus env task w).2) = queue (redis w)
  /\ members (redis (updateTaskStatus env task w).2) = members (redis w).
Proof.
  unfold updateTaskStatus. run.
  destruct (redis_fault env (length (log w))); cbn [snd log redis queue members]; auto.
Qed.

(** The events of one task, and what it leaves of the queue. *)
Lemma process_task_run (PrintRanges : Z -> bool) (LowerCase : Z -> Z)
    (config : Config) (env : Env) (task : GenerationTask) (w : World) :
  let w' := (process_task PrintRanges LowerCase config env task w).2 in
  let running := set_status task TaskStatusRunning (clock env (length (log w))) in
  queue (redis w') = queue (redis w)
  /\ members (redis w') = members (redis w)
  /\ exists tail,
       log w' = log w ++ [EvNow; EvSet (task_key (ID task)) running retention;
                          EvDb (DbFirstKeyword (KeywordID task))] ++ tail
       /\ ends_task running tail.
Proof.
  intros w' running. subst w'.
  destruct (process_task PrintRanges LowerCase config env task w) as [[] wf] eqn:E.
  cbn [snd]. revert E. unfold process_task.
  unfold Now at 1. unfold bind at 1. unfold bind at 1. unfold emit at 1, ret at 1.
  cbn [fst snd]. fold running.
  set (w0 := {| redis := redis w; log := log w ++ [EvNow] |}).
  unfold bind at 1.
  destruct (updateTaskStatus env running w0) as [[] w1] eqn:E1.
  destruct (updateTaskStatus_run env running w0) as (Hl1 & Hq1 & Hm1).
  rewrite E1 in Hl1, Hq1, Hm1. cbn [snd] in Hl1, Hq1, Hm1.
  unfold bind at 1. unfold bind at 1. unfold emit at 1, ret at 1. cbn [fst snd].
  set (w2 := {| redis := redis w1; log := log w1 ++ [_] |}).
  assert (Hl2 : log w2 = log w ++ [EvNow; EvSet (task_key (ID task)) running retention;
                                  EvDb (DbFirstKeyword (KeywordID task))]).
  { subst w2 w0. cbn [log] in *. rewrite Hl1. now rewrite <- !app_assoc. }
  assert (Hq2 : queue (redis w2) = queue (redis w)
                /\ members (redis w2) = members (redis w)).
  { subst w2 w0. cbn [redis] in *. now rewrite Hq1, Hm1. }
  clearbody w2.
  destruct (db_keyword env _ (KeywordID running)) as [keyword|err].
  - unfold bind at 1.
    destruct (GenerateArticle PrintRanges LowerCase config env keyword
                (CategoryIDs running) w2) as [r w3] eqn:E3.
    destruct (GenerateArticle_only_emits PrintRanges LowerCase config env keyword
                (CategoryIDs running) w2) as [Hr3 (evs & Hl3 & Hevs)].
    rewrite E3 in Hr3, Hl3. cbn [snd] in Hr3, Hl3. clear E3.
    destruct r as [article|err].
    + unfold Now at 1. unfold bind at 1. unfold bind at 1. unfold emit at 1, ret at 1.
      cbn [fst snd].
      set (w4 := {| redis := redis w3; log := log w3 ++ [EvNow] |}).
      set (done := set_status running TaskStatusCompleted _).
      unfold bind at 1.
      destruct (updateTaskStatus env done w4) as [[] w5] eqn:E5.
      destruct (updateTaskStatus_run env done w4) as (Hl5 & Hq5 & Hm5).
      rewrite E5 in Hl5, Hq5, Hm5. cbn [snd] in Hl5, Hq5, Hm5. clear E5.
      assert (Hl5' : log w5 = log w ++ [EvNow; EvSet (task_key (ID task)) running retention;
                                       EvDb (DbFirstKeyword (KeywordID task))]
                              ++ evs ++ [EvNow; EvSet (task_key (ID running)) done retention]).
      { rewrite Hl5. subst w4. cbn [log]. rewrite Hl3, Hl2.
        rewrite <- !app_assoc. reflexivity. }
      assert (Hq : queue (redis w5) = queue (redis w)
                   /\ members (redis w5) = members (redis w)).
      { rewrite Hq5, Hm5. subst w4. cbn [redis]. now rewrite Hr3. }
      clear Hl5 Hq5 Hm5.
      change (UserID task) with (UserID running).
      destruct (0 <? UserID running) eqn:Eu; run; intros [= <-]; cbn [redis log];
        (split; [apply Hq|]); (split; [apply Hq|]).
      * exists (evs ++ [EvNow; EvSet (task_key (ID running)) done retention]
                     ++ [EvDb (DbSaveArticle (with_UserID article (UserID running)))]).
        split.
        -- rewrite Hl5'. rewrite <- !app_assoc. reflexivity.
        -- right. right. exists evs, article, (clock env (length (log w3))).
           split; [exact Hevs|]. rewrite Eu. reflexivity.
      * exists (evs ++ [EvNow; EvSet (task_key (ID running)) done retention]).
        split.
        -- rewrite Hl5'. reflexivity.
        -- right. right. exists evs, article, (clock env (length (log w3))).
           split; [exact Hevs|]. rewrite Eu. now rewrite app_nil_r.
    + set (failed := set_failed running _).
      destruct (updateTaskStatus env failed w3) as [[] w5] eqn:E5.
      destruct (updateTaskStatus_run env failed w3) as (Hl5 & Hq5 & Hm5).
      rewrite E5 in Hl5, Hq5, Hm5. cbn [snd] in *. intros [= <-].
      rewrite Hq5, Hm5, Hr3.
      split; [apply Hq2|]. split; [apply Hq2|].
      exists (evs ++ [EvSet (task_key (ID running)) failed retention]). split.
      * rewrite Hl5, Hl3, Hl2. rewrite <- !app_assoc. reflexivity.
      * right. left. exists evs, err. split; [exact Hevs|reflexivity].
  - set (failed := set_failed running _).
    destruct (updateTaskStatus env failed w2) as [[] w5] eqn:E5.
    destruct (updateTaskStatus_run env failed w2) as (Hl5 & Hq5 & Hm5).
    rewrite E5 in Hl5, Hq5, Hm5. cbn [snd] in *. intros [= <-].
    rewrite Hq5, Hm5.
    split; [apply Hq2|]. split; [apply Hq2|].
    exists [EvSet (task_key (ID running)) failed retention]. split.
    + rewrite Hl5, Hl2. rewrite <- !app_assoc. reflexivity.
    + left. exists err. reflexivity.
Qed.

(** *** Status writes *)

Lemma status_writes_app (evs1 evs2 : list event) :
  status_writes (evs1 ++ evs2) = status_writes evs1 ++ status_writes evs2.
Proof. unfold status_writes. apply flat_map_app. Qed.

Lemma status_writes_generation (evs : list event) :
  Forall generation_event evs -> status_writes evs = [].
Proof.
  induction 1 as [|e evs He _ IH]; [reflexivity|].
  cbn [status_writes flat_map]. fold (status_writes evs). rewrite IH.
  destruct e; try reflexivity; destruct He.
Qed.

Lemma statuses_of_app (taskID : list Z) (evs1 evs2 : list event) :
  statuses_of taskID (evs1 ++ evs2)
  = statuses_of taskID evs1 ++ statuses_of taskID evs2.
Proof.
  unfold statuses_of. now rewrite status_writes_app, List.filter_app, map_app.
Qed.

(** A task is written as running and then as completed or as failed. *)
Lemma ends_task_writes (running : GenerationTask) (tail : list event) :
  ends_task running tail ->
  status_writes tail = [(ID running, TaskStatusCompleted)]
  \/ status_writes tail = [(ID running, TaskStatusFailed)].
Proof.
  intros [(err & ->)|[(evs & err & Hevs & ->)|(evs & article & updated & Hevs & ->)]].
  - right. reflexivity.
  - right. rewrite status_writes_app, status_writes_generation by exact Hevs. reflexivity.
  - left. rewrite !status_writes_app, status_writes_generation by exact Hevs.
    cbn [app]. destruct (0 <? UserID running); reflexivity.
Qed.

Lemma statuses_of_task (taskID : list Z) (t : GenerationTask) (st1 st2 : list Z) :
  map snd (List.filter (fun p : list Z * list Z => bool_decide (p.1 = taskID))
             [(ID t, st1); (ID t, st2)])
  = if bool_decide (ID t = taskID) then [st1; st2] else [].
Proof. cbn [List.filter fst]. now destruct (bool_decide (ID t = taskID)). Qed.

(** *** The loop *)

(** One round of the loop on a well-formed task: whatever the end of
    the task, the loop goes on with the rest of the queue. *)
Lemma ProcessTasks_step (PrintRanges : Z -> bool) (LowerCase : Z -> Z)
    (config : Config) (env : Env) (fuel : nat) (w : World)
    (task : GenerationTask) (rest : list payload) :
  ctx_done env (length (log w)) = false ->
  redis_fault env (S (length (log w))) = None ->
  queue (redis w) = Marshalled task :: rest ->
  let running :=
    set_status task TaskStatusRunning (clock env (length (log w) + 2)) in
  exists w1 tail,
    ProcessTasks PrintRanges LowerCase config env (S fuel) w
    = ProcessTasks PrintRanges LowerCase config env fuel w1
    /\ queue (redis w1) = rest
    /\ members (redis w1) = members (redis w)
    /\ log w1 = log w ++ [EvDone; EvBLPop; EvNow;
                          EvSet (task_key (ID task)) running retention;
                          EvDb (DbFirstKeyword (KeywordID task))] ++ tail
    /\ ends_task running tail.
Proof.
  intros Hdone Hfault Hq running.
  cbn [ProcessTasks]. run. rewrite Hdone. run.
  rewrite length_app, Nat.add_1_r, Hfault. run. rewrite Hq. cbn [Unmarshal]. run.
  set (w0 := {| redis := {| queue := rest; members := members (redis w); keys := keys (redis w) |};
                log := (log w ++ [EvDone]) ++ [EvBLPop] |}).
  destruct (process_task_run PrintRanges LowerCase config env task w0)
    as (Hq1 & Hm1 & tail & Hl1 & Hend).
  destruct (process_task PrintRanges LowerCase config env task w0) as [[] w1].
  cbn [snd] in *. exists w1, tail.
  assert (Hn : length (log w0) = (length (log w) + 2)%nat).
  { subst w0. cbn [log]. rewrite !length_app. cbn [length]. lia. }
  rewrite Hn in Hl1, Hend. fold running in Hl1, Hend.
  split; [reflexivity|]. split; [exact Hq1|]. split; [exact Hm1|].
  split; [|exact Hend].
  rewrite Hl1. subst w0. cbn [log]. now rewrite <- !app_assoc.
Qed.

Lemma queue_ids_cons_task (t : GenerationTask) (rest : list payload) :
  queue_ids (Marshalled t :: rest) = ID t :: queue_ids rest.
Proof. reflexivity. Qed.

(** What a run of the loop writes for an id: nothing, or running and
    then completed or failed, for a task of the queue. *)
Lemma ProcessTasks_writes (PrintRanges : Z -> bool) (LowerCase : Z -> Z)
    (config : Config) (env : Env) (fuel : nat) :
  forall w : World,
  NoDup (queue_ids (queue (redis w))) ->
  exists evs,
    log (ProcessTasks PrintRanges LowerCase config env fuel w).2 = log w ++ evs
    /\ forall taskID,
         statuses_of taskID evs = []
         \/ (In taskID (queue_ids (queue (redis w)))
             /\ (statuses_of taskID evs = [TaskStatusRunning; TaskStatusCompleted]
                 \/ statuses_of taskID evs = [TaskStatusRunning; TaskStatusFailed])).
Proof.
  induction fuel as [|fuel IH]; intros w Hnd.
  - exists []. split; [cbn; now rewrite app_nil_r|]. intros ?. now left.
  - destruct (ctx_done env (length (log w))) eqn:Hdone.
    { exists [EvDone]. cbn [ProcessTasks]. run. rewrite Hdone.
      split; [reflexivity|]. intros ?. now left. }
    destruct (redis_fault env (S (length (log w)))) as [err|] eqn:Hfault.
    { cbn [ProcessTasks]. run. rewrite Hdone. run.
      rewrite length_app, Nat.add_1_r, Hfault. run.
      set (w0 := {| redis := redis w; log := _ |}).
      destruct (IH w0 Hnd) as (evs & Hl & Hst).
      exists ([EvDone; EvBLPop] ++ evs). split.
      - rewrite Hl. subst w0. cbn [log]. now rewrite <- !app_assoc.
      - intros taskID. rewrite statuses_of_app. exact (Hst taskID). }
    destruct (queue (redis w)) as [|p rest] eqn:Hq.
    { exists [EvDone; EvBLPop]. cbn [ProcessTasks]. run. rewrite Hdone. run.
      rewrite length_app, Nat.add_1_r, Hfault. run. rewrite Hq. run.
      split; [now rewrite <- app_assoc|]. intros ?. now left. }
    destruct p as [task|raw].
    + destruct (ProcessTasks_step PrintRanges LowerCase config env fuel w task rest
                  Hdone Hfault Hq) as (w1 & tail & -> & Hq1 & _ & Hl1 & Hend).
      rewrite queue_ids_cons_task in Hnd. apply NoDup_cons in Hnd as [Hnotin Hnd].
      destruct (IH w1) as (evs & Hl & Hst); [now rewrite Hq1|].
      rewrite Hq1 in Hst.
      set (running := set_status task TaskStatusRunning _) in *.
      exists ([EvDone; EvBLPop; EvNow]
              ++ ([EvSet (task_key (ID task)) running retention;
                   EvDb (DbFirstKeyword (KeywordID task))] ++ tail) ++ evs).
      split; [rewrite Hl, Hl1; rewrite <- !app_assoc; reflexivity|].
      intros taskID. rewrite (statuses_of_app taskID [EvDone; EvBLPop; EvNow]).
      change (statuses_of taskID [EvDone; EvBLPop; EvNow]) with (@nil (list Z)).
      rewrite app_nil_l.
      assert (Htask : exists st, (st = TaskStatusCompleted \/ st = TaskStatusFailed)
                /\ statuses_of taskID
                     ([EvSet (task_key (ID task)) running retention;
                       EvDb (DbFirstKeyword (KeywordID task))] ++ tail)
                   = if bool_decide (ID task = taskID)
                     then [TaskStatusRunning; st] else []).
      { destruct (ends_task_writes running tail Hend) as [Hw|Hw].
        - exists TaskStatusCompleted. split; [now left|].
          unfold statuses_of. rewrite status_writes_app, Hw.
          cbn [status_writes flat_map app].
          change (ID running) with (ID task).
          change (Status running) with TaskStatusRunning.
          apply statuses_of_task.
        - exists TaskStatusFailed. split; [now right|].
          unfold statuses_of. rewrite status_writes_app, Hw.
          cbn [status_writes flat_map app].
          change (ID running) with (ID task).
          change (Status running) with TaskStatusRunning.
          apply statuses_of_task. }
      destruct Htask as (st & Hst' & Ht).
      rewrite statuses_of_app, Ht.
      destruct (bool_decide_reflect (ID task = taskID)) as [<-|Hne].
      * right. split; [now left|].
        destruct (Hst (ID task)) as [->|[Hin _]].
        -- rewrite app_nil_r. destruct Hst' as [->| ->]; auto.
        -- exfalso. apply Hnotin. now apply list_elem_of_In.
      * cbn [app]. destruct (Hst taskID) as [->|[Hin H]]; [now left|].
        right. split; [now right|exact H].
    + cbn [ProcessTasks]. run. rewrite Hdone. run.
      rewrite length_app, Nat.add_1_r, Hfault. run. rewrite Hq. cbn [Unmarshal]. run.
      set (w0 := {| redis := _; log := _ |}).
      destruct (IH w0) as (evs & Hl & Hst); [exact Hnd|].
      exists ([EvDone; EvBLPop] ++ evs). split.
      * rewrite Hl. subst w0. cbn [log]. now rewrite <- !app_assoc.
      * intros taskID. rewrite statuses_of_app. exact (Hst taskID).
Qed.


(** *** The two providers (C2) *)

Lemma generate_content_run (config : Config) (env : Env) (row : GenerationRow)
    (w : World) :
  let n := length (log w) in
  let timeout := AI_Timeout config in
  let prompt := row_Prompt row in
  generate_content config env row w
  = match deepseek_result env (http_do env n DeepSeek timeout prompt) with
    | Ok content =>
      (Ok content,
       {| redis := redis w;
          log := log w ++ [EvGenerate DeepSeek timeout prompt;
                           EvDb (DbUpdateRow [(lit "model_used", lit "deepseek")])] |})
    | Err err =>
      match ollama_result env (http_do env (n + 2) Ollama timeout prompt) with
      | Ok content =>
        (Ok content,
         {| redis := redis w;
            log := log w ++ [EvGenerate DeepSeek timeout prompt;
                             EvDb (DbUpdateRow [(lit "error_message", Error_text err)]);
                             EvGenerate Ollama timeout prompt;
                             EvDb (DbUpdateRow [(lit "model_used", lit "ollama")])] |})
      | Err err2 =>
        (Err (wrapError (lit "生成内容失败: ") err2),
         {| redis := redis w;
            log := log w ++ [EvGenerate DeepSeek timeout prompt;
                             EvDb (DbUpdateRow [(lit "error_message", Error_text err)]);
                             EvGenerate Ollama timeout prompt;
                             EvDb (DbUpdateRow [(lit "status", lit "failed");
                                                (lit "error_message", Error_text err2)])] |})
      end
    end.
Proof.
  intros n timeout prompt.
  unfold generate_content, generateWithDeepSeek, generateWithOllama. run.
  fold n timeout prompt.
  destruct (deepseek_result env (http_do env n DeepSeek timeout prompt)); run.
  - now rewrite <- app_assoc.
  - rewrite !length_app. cbn [length]. fold n.
    replace (n + 1 + 1)%nat with (n + 2)%nat by lia.
    destruct (ollama_result env (http_do env (n + 2) Ollama timeout prompt)); run;
      now rewrite <- !app_assoc.
Qed.

Lemma provider_calls_app (evs1 evs2 : list event) :
  provider_calls (evs1 ++ evs2) = provider_calls evs1 ++ provider_calls evs2.
Proof. unfold provider_calls. apply flat_map_app. Qed.


(** ** The keys follow the log *)

Lemma keys_after_app (env : Env) (evs1 evs2 : list event) :
  forall n ks,
  keys_after env n (evs1 ++ evs2) ks
  = keys_after env (n + length evs1) evs2 (keys_after env n evs1 ks).
Proof.
  induction evs1 as [|e evs1 IH]; intros n ks; cbn [app keys_after length].
  - now rewrite Nat.add_0_r.
  - rewrite IH. f_equal. lia.
Qed.

Lemma keys_after_no_set (env : Env) (evs : list event) :
  forall n ks, Forall no_set evs -> keys_after env n evs ks = ks.
Proof.
  induction evs as [|e evs IH]; intros n ks H; [reflexivity|].
  apply Forall_cons in H as [He H]. cbn [keys_after].
  rewrite IH by exact H. destruct e; try reflexivity; destruct He.
Qed.

(** Events that write no key other than [k] leave every other key as it was. *)
Lemma keys_after_other (env : Env) (k : list Z) (evs : list event) :
  forall n ks,
  Forall (fun e => match e with EvSet key _ _ => key <> k | _ => True end) evs ->
  keys_after env n evs ks !! k = ks !! k.
Proof.
  induction evs as [|e evs IH]; intros n ks H; [reflexivity|].
  apply Forall_cons in H as [He H]. cbn [keys_after].
  rewrite IH by exact H. destruct e; try reflexivity.
  cbn [write_of]. destruct (redis_fault env n); [reflexivity|].
  now apply lookup_insert_ne.
Qed.

Lemma generation_event_no_set (e : event) : generation_event e -> no_set e.
Proof. destruct e; cbn; tauto. Qed.

Lemma only_emits_impl {A} (P Q : event -> Prop) (m : M A) :
  (forall e, P e -> Q e) -> only_emits P m -> only_emits Q m.
Proof.
  intros HPQ Hm w. destruct (Hm w) as [Hr (evs & Hl & Hp)].
  split; [exact Hr|]. exists evs. split; [exact Hl|].
  eapply Forall_impl; [exact Hp|exact HPQ].
Qed.

Lemma tracks_ret {A} (env : Env) (a : A) : tracks env (ret a).
Proof. intros w. exists []. split; [cbn; now rewrite app_nil_r|reflexivity]. Qed.

Lemma tracks_bind {A B} (env : Env) (m : M A) (k : A -> M B) :
  tracks env m -> (forall a, tracks env (k a)) -> tracks env (bind m k).
Proof.
  intros Hm Hk w. unfold bind. destruct (m w) as [a w1] eqn:E.
  destruct (Hm w) as (evs1 & Hl & Hks). rewrite E in Hl, Hks. cbn [snd] in *.
  destruct (Hk a w1) as (evs2 & Hl' & Hks').
  exists (evs1 ++ evs2). split.
  - rewrite Hl', Hl. now rewrite <- app_assoc.
  - rewrite Hks', Hks, Hl, length_app. now rewrite keys_after_app.
Qed.

Lemma tracks_only_emits {A} (env : Env) (m : M A) :
  only_emits no_set m -> tracks env m.
Proof.
  intros Hm w. destruct (Hm w) as [Hr (evs & Hl & Hp)].
  exists evs. split; [exact Hl|].
  rewrite Hr. now rewrite keys_after_no_set.
Qed.

Lemma tracks_updateTaskStatus (env : Env) (task : GenerationTask) :
  tracks env (updateTaskStatus env task).
Proof.
  intros w. exists [EvSet (task_key (ID task)) task retention].
  unfold updateTaskStatus. run. cbn [keys_after write_of].
  destruct (redis_fault env (length (log w))); cbn [snd log redis keys]; auto.
Qed.

Lemma tracks_process_task (PrintRanges : Z -> bool) (LowerCase : Z -> Z)
    (config : Config) (env : Env) (task : GenerationTask) :
  tracks env (process_task PrintRanges LowerCase config env task).
Proof.
  unfold process_task.
  apply tracks_bind; [|intros t].
  { apply tracks_only_emits. unfold Now. repeat only_emits_step. }
  apply tracks_bind; [apply tracks_updateTaskStatus|intros []].
  apply tracks_bind; [|intros r].
  { apply tracks_only_emits. repeat only_emits_step. }
  destruct r as [keyword|err]; [|apply tracks_updateTaskStatus].
  apply tracks_bind; [|intros r].
  { apply tracks_only_emits.
    eapply only_emits_impl; [exact generation_event_no_set|].
    apply GenerateArticle_only_emits. }
  destruct r as [article|err]; [|apply tracks_updateTaskStatus].
  apply tracks_bind; [|intros t'].
  { apply tracks_only_emits. unfold Now. repeat only_emits_step. }
  apply tracks_bind; [apply tracks_updateTaskStatus|intros []].
  apply tracks_only_emits. unfold db. repeat only_emits_step.
Qed.

(** *** One task, with the keys *)

Lemma task_key_inj (a b : list Z) : task_key a = task_key b -> a = b.
Proof. unfold task_key. apply app_inv_head. Qed.

Lemma lit_app_nonempty (s : string) (t : list Z) :
  s <> EmptyString -> lit s ++ t <> [].
Proof. destruct s; [congruence|]. discriminate. Qed.

(** The end of a task's events writes no key but the task's own. *)
Lemma ends_task_other (running : GenerationTask) (tail : list event) (k : list Z) :
  ends_task running tail -> k <> task_key (ID running) ->
  Forall (fun e => match e with EvSet key _ _ => key <> k | _ => True end) tail.
Proof.
  assert (Hgen : forall evs, Forall generation_event evs ->
            Forall (fun e => match e with EvSet key _ _ => key <> k | _ => True end) evs).
  { intros evs H. eapply Forall_impl; [exact H|]. intros []; cbn; tauto. }
  intros [(err & ->)|[(evs & err & Hevs & ->)|(evs & article & updated & Hevs & ->)]] Hk.
  - repeat constructor. congruence.
  - apply Forall_app. split; [now apply Hgen|]. repeat constructor. congruence.
  - apply Forall_app. split; [now apply Hgen|].
    apply Forall_app. split; [repeat constructor; congruence|].
    destruct (0 <? UserID running); repeat constructor.
Qed.

Lemma ends_task_worker_events (running : GenerationTask) (tail : list event) :
  ends_task running tail -> Forall worker_event tail.
Proof.
  assert (Hgen : forall evs, Forall generation_event evs -> Forall worker_event evs).
  { intros evs H. eapply Forall_impl; [exact H|]. intros []; cbn; tauto. }
  intros [(err & ->)|[(evs & err & Hevs & ->)|(evs & article & updated & Hevs & ->)]].
  - repeat constructor.
  - apply Forall_app. split; [now apply Hgen|]. repeat constructor.
  - apply Forall_app. split; [now apply Hgen|].
    apply Forall_app. split; [repeat constructor|].
    destruct (0 <? UserID running); repeat constructor.
Qed.

(** What a task leaves alone, whatever fails: the queue, the set, every
    key but its own. *)
Lemma process_task_footprint (PrintRanges : Z -> bool) (LowerCase : Z -> Z)
    (config : Config) (env : Env) (task : GenerationTask) (w : World) :
  let w' := (process_task PrintRanges LowerCase config env task w).2 in
  queue (redis w') = queue (redis w)
  /\ members (redis w') = members (redis w)
  /\ (forall k, k <> task_key (ID task) -> keys (redis w') !! k = keys (redis w) !! k)
  /\ exists evs, log w' = log w ++ evs /\ Forall worker_event evs.
Proof.
  intros w'. subst w'.
  destruct (process_task_run PrintRanges LowerCase config env task w)
    as (Hq & Hm & tail & Hl & Hend).
  destruct (tracks_process_task PrintRanges LowerCase config env task w)
    as (evs & Hl' & Hks).
  rewrite Hl in Hl'. apply app_inv_head in Hl'. subst evs.
  split; [exact Hq|]. split; [exact Hm|]. split.
  - intros k Hk. rewrite Hks. apply keys_after_other.
    repeat constructor; [cbn; congruence|].
    now apply (ends_task_other _ _ k Hend).
  - eexists. split; [exact Hl|].
    repeat constructor. now apply ends_task_worker_events in Hend.
Qed.

(** What a task leaves when its writes go through: its key holds the
    task, completed or failed. *)
Lemma process_task_settles (PrintRanges : Z -> bool) (LowerCase : Z -> Z)
    (config : Config) (env : Env) (task : GenerationTask) (w : World) :
  (forall i, (length (log w) <= i)%nat -> redis_fault env i = None) ->
  let w' := (process_task PrintRanges LowerCase config env task w).2 in
  exists final evs,
    settled task final
    /\ keys (redis w') = <[ task_key (ID task) := Marshalled final ]> (keys (redis w))
    /\ log w' = log w ++ evs
    /\ map fst (status_writes evs) = [ID task; ID task].
Proof.
  intros Hq w'. subst w'.
  destruct (process_task_run PrintRanges LowerCase config env task w)
    as (_ & _ & tail & Hl & Hend).
  destruct (tracks_process_task PrintRanges LowerCase config env task w)
    as (evs & Hl' & Hks).
  rewrite Hl in Hl'. apply app_inv_head in Hl'. subst evs.
  set (n := length (log w)) in *.
  set (running := set_status task TaskStatusRunning (clock env n)) in *.
  assert (Hgen : forall evs m ks, Forall generation_event evs ->
            keys_after env m evs ks = ks).
  { intros evs m ks H. apply keys_after_no_set.
    eapply Forall_impl; [exact H|exact generation_event_no_set]. }
  assert (Hw : forall final, settled task final ->
            status_writes tail = [(ID running, Status final)] ->
            keys_after env (S (S (S n))) tail
              (<[ task_key (ID task) := Marshalled running ]> (keys (redis w)))
            = <[ task_key (ID task) := Marshalled final ]> (keys (redis w)) ->
            exists final evs,
              settled task final
              /\ keys (redis (process_task PrintRanges LowerCase config env task w).2)
                 = <[ task_key (ID task) := Marshalled final ]> (keys (redis w))
              /\ log (process_task PrintRanges LowerCase config env task w).2
                 = log w ++ evs
              /\ map fst (status_writes evs) = [ID task; ID task]).
  { intros final Hs Hsw Hk. exists final. eexists.
    split; [exact Hs|]. split; [|split; [exact Hl|]].
    - rewrite Hks. cbn [app keys_after write_of].
      rewrite (Hq (S n)) by lia. exact Hk.
    - rewrite status_writes_app. cbn [status_writes flat_map app].
      fold (status_writes tail). rewrite Hsw. reflexivity. }
  destruct Hend as [(err & ->)|[(evs & err & Hevs & ->)|(evs & article & updated & Hevs & ->)]].
  - apply (Hw (set_failed running (lit "获取关键词失败: " ++ Error_text err))).
    + repeat split. right. split; [reflexivity|]. now apply lit_app_nonempty.
    + reflexivity.
    + cbn [keys_after write_of]. rewrite Hq by lia. apply insert_insert_eq.
  - apply (Hw (set_failed running (lit "生成文章失败: " ++ Error_text err))).
    + repeat split. right. split; [reflexivity|]. now apply lit_app_nonempty.
    + rewrite status_writes_app, status_writes_generation by exact Hevs. reflexivity.
    + rewrite keys_after_app, (Hgen evs) by exact Hevs.
      cbn [keys_after write_of]. rewrite Hq by lia. apply insert_insert_eq.
  - apply (Hw (set_status running TaskStatusCompleted updated)).
    + repeat split. left. split; reflexivity.
    + rewrite !status_writes_app, status_writes_generation by exact Hevs.
      cbn [app]. destruct (0 <? UserID running); reflexivity.
    + rewrite keys_after_app, (Hgen evs) by exact Hevs.
      rewrite keys_after_app. cbn [keys_after write_of length].
      rewrite Hq by lia.
      rewrite keys_after_no_set by (destruct (0 <? UserID running); repeat constructor).
      apply insert_insert_eq.
Qed.

(** *** Rounds of the loop *)

Lemma ProcessTasks_round (PrintRanges : Z -> bool) (LowerCase : Z -> Z)
    (config : Config) (env : Env) (fuel : nat) (w : World)
    (task : GenerationTask) (rest : list payload) :
  ctx_done env (length (log w)) = false ->
  redis_fault env (S (length (log w))) = None ->
  queue (redis w) = Marshalled task :: rest ->
  ProcessTasks PrintRanges LowerCase config env (S fuel) w
  = ProcessTasks PrintRanges LowerCase config env fuel
      (process_task PrintRanges LowerCase config env task
         {| redis := {| queue := rest; members := members (redis w);
                        keys := keys (redis w) |};
            log := log w ++ [EvDone; EvBLPop] |}).2.
Proof.
  intros Hdone Hfault Hq.
  cbn [ProcessTasks]. run. rewrite Hdone. run.
  rewrite length_app, Nat.add_1_r, Hfault. run. rewrite Hq. cbn [Unmarshal]. run.
  rewrite <- app_assoc. cbn [app].
  now destruct (process_task PrintRanges LowerCase config env task _) as [[] w1].
Qed.

Lemma ProcessTasks_skip (PrintRanges : Z -> bool) (LowerCase : Z -> Z)
    (config : Config) (env : Env) (fuel : nat) (w : World)
    (raw : list Z) (rest : list payload) :
  ctx_done env (length (log w)) = false ->
  redis_fault env (S (length (log w))) = None ->
  queue (redis w) = Malformed raw :: rest ->
  ProcessTasks PrintRanges LowerCase config env (S fuel) w
  = ProcessTasks PrintRanges LowerCase config env fuel
      {| redis := {| queue := rest; members := members (redis w);
                     keys := keys (redis w) |};
         log := log w ++ [EvDone; EvBLPop] |}.
Proof.
  intros Hdone Hfault Hq.
  cbn [ProcessTasks]. run. rewrite Hdone. run.
  rewrite length_app, Nat.add_1_r, Hfault. run. rewrite Hq. cbn [Unmarshal]. run.
  now rewrite <- app_assoc.
Qed.

Lemma ProcessTasks_wait (PrintRanges : Z -> bool) (LowerCase : Z -> Z)
    (config : Config) (env : Env) (fuel : nat) (w : World) :
  ctx_done env (length (log w)) = false ->
  redis_fault env (S (length (log w))) = None ->
  queue (redis w) = [] ->
  ProcessTasks PrintRanges LowerCase config env (S fuel) w
  = (Waiting, {| redis := redis w; log := log w ++ [EvDone; EvBLPop] |}).
Proof.
  intros Hdone Hfault Hq.
  cbn [ProcessTasks]. run. rewrite Hdone. run.
  rewrite length_app, Nat.add_1_r, Hfault. run. rewrite Hq.
  now rewrite <- app_assoc.
Qed.

Lemma ProcessTasks_retry (PrintRanges : Z -> bool) (LowerCase : Z -> Z)
    (config : Config) (env : Env) (fuel : nat) (w : World) (err : error) :
  ctx_done env (length (log w)) = false ->
  redis_fault env (S (length (log w))) = Some err ->
  ProcessTasks PrintRanges LowerCase config env (S fuel) w
  = ProcessTasks PrintRanges LowerCase config env fuel
      {| redis := redis w; log := log w ++ [EvDone; EvBLPop] |}.
Proof.
  intros Hdone Hfault.
  cbn [ProcessTasks]. run. rewrite Hdone. run.
  rewrite length_app, Nat.add_1_r, Hfault. run.
  now rewrite <- app_assoc.
Qed.

Lemma ProcessTasks_cancelled (PrintRanges : Z -> bool) (LowerCase : Z -> Z)
    (config : Config) (env : Env) (fuel : nat) (w : World) :
  ctx_done env (length (log w)) = true ->
  ProcessTasks PrintRanges LowerCase config env (S fuel) w
  = (Returned, {| redis := redis w; log := log w ++ [EvDone] |}).
Proof. intros Hdone. cbn [ProcessTasks]. run. now rewrite Hdone. Qed.

(** With no cancellation and no failing command the loop works through
    the queue and then waits. *)
Lemma ProcessTasks_drain (PrintRanges : Z -> bool) (LowerCase : Z -> Z)
    (config : Config) (env : Env) (q : list payload) :
  forall (fuel : nat) (w : World),
  queue (redis w) = q ->
  (forall i, (length (log w) <= i)%nat -> ctx_done env i = false) ->
  (forall i, (length (log w) <= i)%nat -> redis_fault env i = None) ->
  (length q < fuel)%nat ->
  let out := ProcessTasks PrintRanges LowerCase config env fuel w in
  out.1 = Waiting
  /\ queue (redis out.2) = []
  /\ members (redis out.2) = members (redis w)
  /\ (forall t, In t (queue_tasks q) ->
        exists final, keys (redis out.2) !! task_key (ID t) = Some (Marshalled final)
                      /\ ID final = ID t /\ terminal final)
  /\ (forall k, (forall t, In t (queue_tasks q) -> k <> task_key (ID t)) ->
        keys (redis out.2) !! k = keys (redis w) !! k)
  /\ exists evs, log out.2 = log w ++ evs
       /\ map fst (status_writes evs) = flat_map (fun t => [ID t; ID t]) (queue_tasks q).
Proof.
  induction q as [|p rest IH]; intros fuel w Hq Hdone Hfault Hfuel out; subst out.
  - destruct fuel as [|fuel]; [cbn in Hfuel; lia|].
    rewrite ProcessTasks_wait by (auto with lia). cbn [fst snd redis log].
    split; [reflexivity|]. split; [exact Hq|]. split; [reflexivity|].
    split; [intros t []|]. split; [reflexivity|].
    exists [EvDone; EvBLPop]. split; reflexivity.
  - destruct fuel as [|fuel]; [cbn in Hfuel; lia|]. cbn [length] in Hfuel.
    destruct p as [task|raw].
    + rewrite (ProcessTasks_round _ _ _ _ _ _ task rest) by (auto with lia).
      set (w0 := {| redis := _; log := log w ++ [EvDone; EvBLPop] |}).
      assert (Hn0 : length (log w0) = (length (log w) + 2)%nat).
      { subst w0. cbn [log]. rewrite length_app. reflexivity. }
      destruct (process_task_run PrintRanges LowerCase config env task w0)
        as (Hq1 & Hm1 & _).
      destruct (process_task_settles PrintRanges LowerCase config env task w0)
        as (final & evs1 & Hset & Hk1 & Hl1 & Hs1).
      { intros i Hi. apply Hfault. lia. }
      set (w1 := (process_task PrintRanges LowerCase config env task w0).2) in *.
      assert (Hn1 : (length (log w) <= length (log w1))%nat).
      { rewrite Hl1, length_app. lia. }
      destruct (IH fuel w1) as (Hr & Hqe & Hme & Hfin & Hoth & evs & Hl & Hs).
      { rewrite Hq1. reflexivity. }
      { intros i Hi. apply Hdone. lia. }
      { intros i Hi. apply Hfault. lia. }
      { lia. }
      split; [exact Hr|]. split; [exact Hqe|].
      split; [rewrite Hme, Hm1; reflexivity|].
      split; [|split].
      * intros t [<-|Hin]; [|now apply Hfin].
        destruct (decide (Exists (fun t' => ID t' = ID task) (queue_tasks rest)))
          as [Hex|Hnex].
        -- apply Exists_exists in Hex as (t' & Hin & Hid).
           destruct (Hfin t') as (final' & Hlk & Hid' & Hterm);
             [now apply list_elem_of_In|].
           exists final'. rewrite <- Hid. rewrite Hid'. auto.
        -- exists final. split; [|split].
           ++ rewrite Hoth.
              ** rewrite Hk1. apply lookup_insert_eq.
              ** intros t' Hin Heq. apply task_key_inj in Heq. apply Hnex.
                 apply Exists_exists. exists t'. split; [now apply list_elem_of_In|auto].
           ++ apply Hset.
           ++ destruct Hset as (_ & _ & _ & _ & _ & [[? _]|[? ?]]); [left|right]; auto.
      * intros k Hk. rewrite Hoth by (intros t Hin; apply Hk; now right).
        rewrite Hk1. rewrite lookup_insert_ne; [reflexivity|].
        intros Heq. apply (Hk task); [now left|auto].
      * exists ([EvDone; EvBLPop] ++ evs1 ++ evs). split.
        -- rewrite Hl, Hl1. subst w0. cbn [log]. now rewrite <- !app_assoc.
        -- rewrite !status_writes_app, !map_app, Hs1, Hs. reflexivity.
    + rewrite (ProcessTasks_skip _ _ _ _ _ _ raw rest) by (auto with lia).
      set (w0 := {| redis := _; log := log w ++ [EvDone; EvBLPop] |}).
      destruct (IH fuel w0) as (Hr & Hqe & Hme & Hfin & Hoth & evs & Hl & Hs).
      { reflexivity. }
      { intros i Hi. apply Hdone. subst w0. cbn [log] in Hi. rewrite length_app in Hi. lia. }
      { intros i Hi. apply Hfault. subst w0. cbn [log] in Hi. rewrite length_app in Hi. lia. }
      { lia. }
      split; [exact Hr|]. split; [exact Hqe|]. split; [exact Hme|].
      split; [exact Hfin|]. split; [exact Hoth|].
      exists ([EvDone; EvBLPop] ++ evs). split.
      * rewrite Hl. subst w0. cbn [log]. now rewrite <- !app_assoc.
      * rewrite status_writes_app. exact Hs.
Qed.

(** What a run of the loop leaves alone, whatever fails. *)
Lemma ProcessTasks_footprint (PrintRanges : Z -> bool) (LowerCase : Z -> Z)
    (config : Config) (env : Env) (fuel : nat) :
  forall w : World,
  let out := ProcessTasks PrintRanges LowerCase config env fuel w in
  members (redis out.2) = members (redis w)
  /\ exists popped evs,
       queue (redis w) = popped ++ queue (redis out.2)
       /\ (forall k, (forall t, In t (queue_tasks popped) -> k <> task_key (ID t)) ->
             keys (redis out.2) !! k = keys (redis w) !! k)
       /\ log out.2 = log w ++ evs
       /\ Forall worker_event evs.
Proof.
  induction fuel as [|fuel IH]; intros w out; subst out.
  { split; [reflexivity|]. exists [], []. cbn. now rewrite app_nil_r. }
  destruct (ctx_done env (length (log w))) eqn:Hdone.
  { rewrite ProcessTasks_cancelled by exact Hdone. cbn [fst snd redis log].
    split; [reflexivity|]. exists [], [EvDone]. repeat split. repeat constructor. }
  destruct (redis_fault env (S (length (log w)))) as [err|] eqn:Hfault.
  { rewrite (ProcessTasks_retry _ _ _ _ _ _ err) by assumption.
    set (w0 := {| redis := redis w; log := _ |}).
    destruct (IH w0) as (Hm & popped & evs & Hq & Hk & Hl & Hev).
    split; [exact Hm|]. exists popped, ([EvDone; EvBLPop] ++ evs).
    split; [exact Hq|]. split; [exact Hk|]. split.
    - rewrite Hl. subst w0. cbn [log]. now rewrite <- app_assoc.
    - apply Forall_app. split; [repeat constructor|exact Hev]. }
  destruct (queue (redis w)) as [|p rest] eqn:Hq.
  { rewrite ProcessTasks_wait by assumption. cbn [fst snd redis log].
    split; [reflexivity|]. exists [], [EvDone; EvBLPop].
    split; [now rewrite Hq|]. repeat split. repeat constructor. }
  destruct p as [task|raw].
  - rewrite (ProcessTasks_round _ _ _ _ _ _ task rest) by assumption.
    set (w0 := {| redis := _; log := log w ++ [EvDone; EvBLPop] |}).
    destruct (process_task_footprint PrintRanges LowerCase config env task w0)
      as (Hq1 & Hm1 & Hk1 & evs1 & Hl1 & Hev1).
    set (w1 := (process_task PrintRanges LowerCase config env task w0).2) in *.
    destruct (IH w1) as (Hm & popped & evs & Hq' & Hk & Hl & Hev).
    split; [rewrite Hm, Hm1; reflexivity|].
    exists (Marshalled task :: popped), ([EvDone; EvBLPop] ++ evs1 ++ evs).
    split; [|split; [|split]].
    + cbn [app]. f_equal. rewrite <- Hq', Hq1. reflexivity.
    + intros k Hne. rewrite Hk by (intros t Hin; apply Hne; now right).
      rewrite Hk1 by (apply Hne; now left). reflexivity.
    + rewrite Hl, Hl1. subst w0. cbn [log]. now rewrite <- !app_assoc.
    + apply Forall_app. split; [repeat constructor|].
      apply Forall_app. split; assumption.
  - rewrite (ProcessTasks_skip _ _ _ _ _ _ raw rest) by assumption.
    set (w0 := {| redis := _; log := log w ++ [EvDone; EvBLPop] |}).
    destruct (IH w0) as (Hm & popped & evs & Hq' & Hk & Hl & Hev).
    split; [exact Hm|].
    exists (Malformed raw :: popped), ([EvDone; EvBLPop] ++ evs).
    split; [|split; [|split]].
    + cbn [app]. f_equal. exact Hq'.
    + exact Hk.
    + rewrite Hl. subst w0. cbn [log]. now rewrite <- !app_assoc.
    + apply Forall_app. split; [repeat constructor|exact Hev].
Qed.

(** The loop returns only from a cancellation check. *)
Lemma ProcessTasks_returned (PrintRanges : Z -> bool) (LowerCase : Z -> Z)
    (config : Config) (env : Env) (fuel : nat) :
  forall w : World,
  let out := ProcessTasks PrintRanges LowerCase config env fuel w in
  out.1 = Returned ->
  exists evs, log out.2 = log w ++ evs ++ [EvDone]
              /\ ctx_done env (length (log w ++ evs)) = true.
Proof.
  induction fuel as [|fuel IH]; intros w out; subst out; [discriminate|].
  assert (Hmore : forall w0 pre,
            log w0 = log w ++ pre ->
            (ProcessTasks PrintRanges LowerCase config env fuel w0).1 = Returned ->
            exists evs,
              log (ProcessTasks PrintRanges LowerCase config env fuel w0).2
              = log w ++ evs ++ [EvDone]
              /\ ctx_done env (length (log w ++ evs)) = true).
  { intros w0 pre Hl0 Hr. destruct (IH w0 Hr) as (evs & Hl & Hd).
    exists (pre ++ evs). rewrite Hl, Hl0 in *.
    rewrite <- !app_assoc in *. split; [reflexivity|exact Hd]. }
  destruct (ctx_done env (length (log w))) eqn:Hdone.
  { rewrite ProcessTasks_cancelled by exact Hdone. intros _.
    exists []. cbn [snd log app]. now rewrite app_nil_r. }
  destruct (redis_fault env (S (length (log w)))) as [err|] eqn:Hfault.
  { rewrite (ProcessTasks_retry _ _ _ _ _ _ err) by assumption.
    apply (Hmore _ [EvDone; EvBLPop]). reflexivity. }
  destruct (queue (redis w)) as [|p rest] eqn:Hq.
  { rewrite ProcessTasks_wait by assumption. discriminate. }
  destruct p as [task|raw].
  - rewrite (ProcessTasks_round _ _ _ _ _ _ task rest) by assumption.
    set (w0 := {| redis := _; log := log w ++ [EvDone; EvBLPop] |}).
    destruct (process_task_footprint PrintRanges LowerCase config env task w0)
      as (_ & _ & _ & evs1 & Hl1 & _).
    apply (Hmore _ ([EvDone; EvBLPop] ++ evs1)).
    rewrite Hl1. subst w0. cbn [log]. now rewrite <- !app_assoc.
  - rewrite (ProcessTasks_skip _ _ _ _ _ _ raw rest) by assumption.
    apply (Hmore _ [EvDone; EvBLPop]). reflexivity.
Qed.

(** ** Reading tasks *)

(** [GetTask] reads: it leaves the store as it was. *)
Lemma GetTask_reads (env : Env) (taskID : list Z) (w : World) :
  redis (GetTask env taskID w).2 = redis w
  /\ exists evs, log (GetTask env taskID w).2 = log w ++ evs.
Proof.
  unfold GetTask. run.
  destruct (redis_fault env (length (log w))).
  { cbn. split; [reflexivity|]. now eexists. }
  run. destruct (bool_decide (taskID ∈ members (redis w))); cbn [negb].
  2:{ cbn. split; [reflexivity|]. now eexists. }
  run. destruct (redis_fault env _).
  { cbn. split; [reflexivity|]. rewrite <- app_assoc. now eexists. }
  destruct (keys (redis w) !! task_key taskID) as [p|].
  2:{ cbn. split; [reflexivity|]. rewrite <- app_assoc. now eexists. }
  destruct (Unmarshal p); cbn; (split; [reflexivity|]); rewrite <- app_assoc; now eexists.
Qed.

(** When its commands go through, [GetTask] returns the task that can
    be read under the id, and fails when there is none. *)
Lemma GetTask_readable (env : Env) (taskID : list Z) (w : World) :
  (forall i, (length (log w) <= i)%nat -> redis_fault env i = None) ->
  match (GetTask env taskID w).1 with
  | Ok t => readable (redis w) taskID = Some t
  | Err _ => readable (redis w) taskID = None
  end.
Proof.
  intros Hf. unfold readable.
  destruct (bool_decide_reflect (taskID ∈ members (redis w))) as [Hin|Hnin].
  - rewrite GetTask_present by (auto with lia).
    destruct (keys (redis w) !! task_key taskID) as [[t|raw]|]; reflexivity.
  - rewrite GetTask_absent by (auto with lia). reflexivity.
Qed.

Lemma list_from_reads (env : Env) (userID : Z) (taskIDs : list (list Z)) :
  forall (tasks : list GenerationTask) (w : World),
  let out := list_from env taskIDs userID tasks w in
  redis out.2 = redis w
  /\ (exists evs, log out.2 = log w ++ evs)
  /\ exists found, out.1 = tasks ++ found
       /\ Forall (fun t => UserID t = userID) found
       /\ (length found <= length taskIDs)%nat.
Proof.
  induction taskIDs as [|taskID rest IH]; intros tasks w out; subst out.
  { cbn. split; [reflexivity|]. split; [exists []; now rewrite app_nil_r|].
    exists []. rewrite app_nil_r. auto. }
  cbn [list_from]. unfold bind.
  destruct (GetTask_reads env taskID w) as (Hr & evs0 & Hl).
  destruct (GetTask env taskID w) as [r w1]. cbn [snd] in Hr, Hl.
  assert (Hskip : forall tasks',
            (exists found0, tasks' = tasks ++ found0
               /\ Forall (fun t => UserID t = userID) found0
               /\ (length found0 <= 1)%nat) ->
            redis (list_from env rest userID tasks' w1).2 = redis w
            /\ (exists evs, log (list_from env rest userID tasks' w1).2 = log w ++ evs)
            /\ exists found, (list_from env rest userID tasks' w1).1 = tasks ++ found
                 /\ Forall (fun t => UserID t = userID) found
                 /\ (length found <= length (taskID :: rest))%nat).
  { intros tasks' (found0 & -> & Hown0 & Hlen0).
    destruct (IH (tasks ++ found0) w1) as (Hr' & (evs & Hl') & found & Hres & Hown & Hlen).
    split; [congruence|]. split.
    - exists (evs0 ++ evs). rewrite Hl', Hl. now rewrite <- app_assoc.
    - exists (found0 ++ found). split; [now rewrite Hres, <- app_assoc|].
      split; [now apply Forall_app|]. rewrite length_app. cbn [length]. lia. }
  destruct r as [task|err].
  - destruct (Z.eqb_spec (UserID task) userID) as [Hu|Hu].
    + apply Hskip. exists [task]. repeat split; auto.
    + apply Hskip. exists []. rewrite app_nil_r. repeat split; auto.
  - apply Hskip. exists []. rewrite app_nil_r. repeat split; auto.
Qed.

Lemma list_from_content (env : Env) (userID : Z) (taskIDs : list (list Z)) :
  forall (tasks : list GenerationTask) (w : World),
  (forall i, (length (log w) <= i)%nat -> redis_fault env i = None) ->
  (list_from env taskIDs userID tasks w).1
  = tasks ++ List.filter (fun t => UserID t =? userID)
               (omap (readable (redis w)) taskIDs).
Proof.
  induction taskIDs as [|taskID rest IH]; intros tasks w Hf.
  { cbn. now rewrite app_nil_r. }
  cbn [list_from]. unfold bind.
  pose proof (GetTask_readable env taskID w Hf) as Hread.
  destruct (GetTask_reads env taskID w) as (Hr & evs0 & Hl).
  destruct (GetTask env taskID w) as [r w1]. cbn [fst snd] in Hread, Hr, Hl.
  assert (Hf1 : forall i, (length (log w1) <= i)%nat -> redis_fault env i = None).
  { intros i Hi. apply Hf. rewrite Hl, length_app in Hi. lia. }
  change (omap (readable (redis w)) (taskID :: rest))
    with (match readable (redis w) taskID with
          | Some t => t :: omap (readable (redis w)) rest
          | None => omap (readable (redis w)) rest
          end).
  destruct r as [task|err]; rewrite Hread.
  - cbn [List.filter]. destruct (UserID task =? userID).
    + rewrite IH by exact Hf1. rewrite Hr, <- app_assoc. reflexivity.
    + rewrite IH by exact Hf1. now rewrite Hr.
  - rewrite IH by exact Hf1. now rewrite Hr.
Qed.

(** ** The worker and the readers, end to end *)

(** X1. With no cancellation and no failing command, a worker that has
    more rounds than the queue has payloads works through the whole
    queue and then waits on the empty queue. It leaves the set as it
    was; under the key of every task that was queued it leaves a task
    with that id, completed or failed with a message; it changes no
    other key; and it writes the statuses in the order of the queue,
    two for each task and none for a payload that does not parse. *)
Theorem worker_drains_queue (PrintRanges : Z -> bool) (LowerCase : Z -> Z)
    (config : Config) (env : Env) (fuel : nat) (w : World) :
  (forall i, (length (log w) <= i)%nat -> ctx_done env i = false) ->
  (forall i, (length (log w) <= i)%nat -> redis_fault env i = None) ->
  (length (queue (redis w)) < fuel)%nat ->
  let out := ProcessTasks PrintRanges LowerCase config env fuel w in
  let tasks := queue_tasks (queue (redis w)) in
  out.1 = Waiting
  /\ queue (redis out.2) = []
  /\ members (redis out.2) = members (redis w)
  /\ (forall t, In t tasks ->
        exists final, keys (redis out.2) !! task_key (ID t) = Some (Marshalled final)
                      /\ ID final = ID t /\ terminal final)
  /\ (forall k, (forall t, In t tasks -> k <> task_key (ID t)) ->
        keys (redis out.2) !! k = keys (redis w) !! k)
  /\ map fst (status_writes (drop (length (log w)) (log out.2)))
     = flat_map (fun t => [ID t; ID t]) tasks.
Proof.
  intros Hdone Hfault Hfuel out tasks.
  destruct (ProcessTasks_drain PrintRanges LowerCase config env (queue (redis w))
              fuel w eq_refl Hdone Hfault Hfuel)
    as (H1 & H2 & H3 & H4 & H5 & evs & Hl & H6).
  repeat (split; [assumption|]).
  subst out. rewrite Hl, drop_app_length. exact H6.
Qed.

Lemma worker_drains_queue_witness :
  (ProcessTasks (fun _ => true) (fun r => r) sample_config quiet 3 world_two_tasks).1
  = Waiting
  /\ queue (redis (ProcessTasks (fun _ => true) (fun r => r) sample_config quiet 3
                     world_two_tasks).2) = []
  /\ exists final,
       keys (redis (ProcessTasks (fun _ => true) (fun r => r) sample_config quiet 3
                      world_two_tasks).2) !! task_key (lit "task_2_9")
       = Some (Marshalled final)
       /\ terminal final.
Proof.
  destruct (worker_drains_queue (fun _ => true) (fun r => r) sample_config quiet 3
              world_two_tasks) as (H1 & H2 & _ & H4 & _).
  - intros i _. reflexivity.
  - intros i _. reflexivity.
  - cbn. lia.
  - split; [exact H1|]. split; [exact H2|].
    destruct (H4 (sample_task (lit "task_2_9") 2 7)) as (final & Hk & _ & Ht).
    + cbn. right. left. reflexivity.
    + exists final. split; [exact Hk|exact Ht].
Defined.

(** X2. A task whose id and error text are valid UTF-8 (so that
    marshalling and parsing give the task back), enqueued on an empty
    queue and then met by the worker, can be read back settled: when no
    command fails and the context is not cancelled, [GetTask] returns,
    after [AddTask] and one or more rounds of the loop, a task with the
    id, keyword, categories and user of the task that was enqueued,
    created at the time of the enqueueing, and completed or failed with
    a message. *)
Theorem enqueued_task_settles (PrintRanges : Z -> bool) (LowerCase : Z -> Z)
    (config : Config) (env : Env) (task : GenerationTask) (fuel : nat) (w : World) :
  utf8.ValidString (ID task) = true ->
  utf8.ValidString (Error task) = true ->
  queue (redis w) = [] ->
  (forall i, (length (log w) <= i)%nat -> ctx_done env i = false) ->
  (forall i, (length (log w) <= i)%nat -> redis_fault env i = None) ->
  let n := length (log w) in
  let w1 := (AddTask env task w).2 in
  let w2 := (ProcessTasks PrintRanges LowerCase config env (S fuel) w1).2 in
  exists final,
    (GetTask env (ID task) w2).1 = Ok final
    /\ settled (set_times task TaskStatusPending (clock env n) (clock env (n + 1)))
               final.
Proof.
  intros _ _ Hq Hdone Hfault n w1 w2. subst w1 w2.
  rewrite AddTask_run. fold n. rewrite (Hfault (n + 2)%nat) by lia. cbn [snd].
  set (task' := set_times task TaskStatusPending _ _).
  set (w1 := {| redis := _; log := _ |}).
  assert (Hn1 : length (log w1) = (n + 3)%nat).
  { subst w1. cbn [log]. rewrite length_app. reflexivity. }
  rewrite (ProcessTasks_round _ _ _ _ _ _ task' [])
    by (try apply Hdone; try apply Hfault; try lia; subst w1; cbn; now rewrite Hq).
  set (w0 := {| redis := _; log := log w1 ++ [EvDone; EvBLPop] |}).
  assert (Hn0 : length (log w0) = (n + 5)%nat).
  { subst w0. cbn [log]. rewrite length_app, Hn1. cbn [length]. lia. }
  destruct (process_task_run PrintRanges LowerCase config env task' w0)
    as (Hq1 & Hm1 & _).
  destruct (process_task_settles PrintRanges LowerCase config env task' w0)
    as (final & evs1 & Hset & Hk1 & Hl1 & _).
  { intros i Hi. apply Hfault. lia. }
  set (w' := (process_task PrintRanges LowerCase config env task' w0).2) in *.
  destruct (ProcessTasks_footprint PrintRanges LowerCase config env fuel w')
    as (Hm2 & popped & evs2 & Hq2 & Hk2 & Hl2 & _).
  set (w2 := (ProcessTasks PrintRanges LowerCase config env fuel w').2) in *.
  assert (Hp : popped = []).
  { rewrite Hq1 in Hq2. subst w0. cbn [redis queue] in Hq2.
    symmetry in Hq2. now apply app_eq_nil in Hq2 as [-> _]. }
  subst popped.
  exists final. split; [|exact Hset].
  rewrite GetTask_present.
  - change (ID task) with (ID task'). rewrite Hk2 by (intros t []).
    rewrite Hk1, lookup_insert_eq. reflexivity.
  - apply Hfault. rewrite Hl2, Hl1, !length_app. lia.
  - apply Hfault. rewrite Hl2, Hl1, !length_app. lia.
  - rewrite Hm2, Hm1. subst w0 w1. cbn [redis members].
    change (ID task') with (ID task). set_solver.
Qed.

Lemma enqueued_task_settles_witness :
  exists final,
    (GetTask quiet (lit "task_1_5")
       (ProcessTasks (fun _ => true) (fun r => r) sample_config quiet 2
          (AddTask quiet (sample_task (lit "task_1_5") 1 7) world_absent).2).2).1
    = Ok final
    /\ UserID final = 7
    /\ CreatedAt final = 1700000000000000000.
Proof.
  destruct (enqueued_task_settles (fun _ => true) (fun r => r) sample_config quiet
              (sample_task (lit "task_1_5") 1 7) 1 world_absent)
    as (final & Hget & _ & _ & _ & Hu & Hc & _).
  - reflexivity.
  - reflexivity.
  - reflexivity.
  - intros i _. reflexivity.
  - intros i _. reflexivity.
  - exists final. split; [exact Hget|]. split; [exact Hu|exact Hc].
Defined.

(** X3. Whatever fails, the worker loop only takes from the head of the
    queue and writes tasks under their own keys: a run of the loop
    leaves the set as it was, leaves of the queue what follows the
    payloads it popped, changes no key but those of the tasks it
    popped, and issues no command but blocking pops and writes of a
    task under the key task:<id> of that task for twenty-four hours; it
    never enqueues, never asks the set and never reads a key. *)
Theorem worker_footprint (PrintRanges : Z -> bool) (LowerCase : Z -> Z)
    (config : Config) (env : Env) (fuel : nat) (w : World) :
  let out := ProcessTasks PrintRanges LowerCase config env fuel w in
  members (redis out.2) = members (redis w)
  /\ take (length (log w)) (log out.2) = log w
  /\ Forall worker_event (drop (length (log w)) (log out.2))
  /\ exists popped,
       queue (redis w) = popped ++ queue (redis out.2)
       /\ forall k, (forall t, In t (queue_tasks popped) -> k <> task_key (ID t)) ->
                    keys (redis out.2) !! k = keys (redis w) !! k.
Proof.
  intros out.
  destruct (ProcessTasks_footprint PrintRanges LowerCase config env fuel w)
    as (Hm & popped & evs & Hq & Hk & Hl & Hev).
  fold out in Hm, Hq, Hk, Hl.
  split; [exact Hm|]. rewrite Hl, take_app_length, drop_app_length.
  split; [reflexivity|]. split; [exact Hev|].
  exists popped. split; [exact Hq|exact Hk].
Qed.

Lemma worker_footprint_witness :
  keys (redis (ProcessTasks (fun _ => true) (fun r => r) sample_config providers_down 3
                 world_two_tasks).2) !! task_key (lit "task_3_1")
  = None.
Proof.
  destruct (worker_footprint (fun _ => true) (fun r => r) sample_config providers_down 3
              world_two_tasks) as (_ & _ & _ & popped & Hq & Hk).
  rewrite Hk; [reflexivity|].
  intros t Hin.
  assert (Hin' : In t (queue_tasks (queue (redis world_two_tasks)))).
  { rewrite Hq. unfold queue_tasks. rewrite flat_map_app. apply in_app_iff. now left. }
  cbn in Hin'. destruct Hin' as [<-|[<-|[]]]; intros H; apply task_key_inj in H;
    revert H; vm_compute; discriminate.
Defined.

(** X4. The worker loop returns only from a cancellation check at the
    top of a round: when a run has returned, its last event is a check
    of the context that found it cancelled; a context that is cancelled
    at the first check makes the loop return at once, before any
    command; and a context that is never cancelled never makes it
    return. *)
Theorem worker_returns_on_cancellation (PrintRanges : Z -> bool) (LowerCase : Z -> Z)
    (config : Config) (env : Env) (fuel : nat) (w : World) :
  let out := ProcessTasks PrintRanges LowerCase config env fuel w in
  (out.1 = Returned ->
     exists evs, log out.2 = log w ++ evs ++ [EvDone]
                 /\ ctx_done env (length (log w ++ evs)) = true)
  /\ (ctx_done env (length (log w)) = true -> (0 < fuel)%nat ->
      out = (Returned, {| redis := redis w; log := log w ++ [EvDone] |}))
  /\ ((forall i, ctx_done env i = false) -> out.1 <> Returned).
Proof.
  intros out. split; [|split].
  - apply ProcessTasks_returned.
  - intros Hd Hfuel. destruct fuel as [|fuel]; [lia|].
    now apply ProcessTasks_cancelled.
  - intros Hnever Hr.
    destruct (ProcessTasks_returned PrintRanges LowerCase config env fuel w Hr)
      as (evs & _ & Hd).
    rewrite Hnever in Hd. discriminate.
Qed.

Lemma worker_returns_on_cancellation_witness :
  ProcessTasks (fun _ => true) (fun r => r) sample_config cancelled 3 world_two_tasks
  = (Returned, {| redis := redis world_two_tasks; log := [EvDone] |})
  /\ (ProcessTasks (fun _ => true) (fun r => r) sample_config quiet 3
        world_two_tasks).1 <> Returned.
Proof.
  split.
  - apply (worker_returns_on_cancellation (fun _ => true) (fun r => r) sample_config
             cancelled 3 world_two_tasks); [reflexivity|lia].
  - apply (worker_returns_on_cancellation (fun _ => true) (fun r => r) sample_config
             quiet 3 world_two_tasks). intros i. reflexivity.
Defined.

Lemma queue_tasks_Malformed (raws : list (list Z)) :
  queue_tasks (map Malformed raws) = [].
Proof.
  unfold queue_tasks. induction raws as [|raw raws IH]; [reflexivity|].
  cbn [map flat_map app]. exact IH.
Qed.

(** X5. Payloads that do not parse are dropped without a trace in the
    store: when the context is not cancelled and no command fails, a
    worker loop with more rounds than payloads takes every such payload
    from the queue, writes no status for any of them, leaves the set
    and every key as they were, and then waits on the empty queue. *)
Theorem malformed_payloads_dropped (PrintRanges : Z -> bool) (LowerCase : Z -> Z)
    (config : Config) (env : Env) (raws : list (list Z)) (fuel : nat) (w : World) :
  queue (redis w) = map Malformed raws ->
  (forall i, (length (log w) <= i)%nat -> ctx_done env i = false) ->
  (forall i, (length (log w) <= i)%nat -> redis_fault env i = None) ->
  (length raws < fuel)%nat ->
  let out := ProcessTasks PrintRanges LowerCase config env fuel w in
  out.1 = Waiting
  /\ redis out.2 = {| queue := []; members := members (redis w);
                      keys := keys (redis w) |}
  /\ status_writes (drop (length (log w)) (log out.2)) = [].
Proof.
  intros Hq Hdone Hfault Hfuel out.
  destruct (ProcessTasks_drain PrintRanges LowerCase config env (map Malformed raws)
              fuel w Hq Hdone Hfault)
    as (H1 & H2 & H3 & _ & H5 & evs & Hl & H6); [now rewrite length_map|].
  fold out in H1, H2, H3, H5, Hl. rewrite queue_tasks_Malformed in H5, H6.
  split; [exact H1|]. split.
  - assert (Hk : keys (redis out.2) = keys (redis w)).
    { apply map_eq. intros k. apply H5. intros t []. }
    destruct (redis out.2) as [q m k]. cbn [queue members keys] in *. now subst.
  - rewrite Hl, drop_app_length. now destruct (status_writes evs).
Qed.

Lemma malformed_payloads_dropped_witness :
  (ProcessTasks (fun _ => true) (fun r => r) sample_config quiet 3 world_malformed).1
  = Waiting
  /\ redis (ProcessTasks (fun _ => true) (fun r => r) sample_config quiet 3
              world_malformed).2
     = {| queue := []; members := {[ lit "task_1_5" ]}; keys := ∅ |}.
Proof.
  destruct (malformed_payloads_dropped (fun _ => true) (fun r => r) sample_config quiet
              [lit "{"; lit "task"] 3 world_malformed) as (H1 & H2 & _).
  - reflexivity.
  - intros i _. reflexivity.
  - intros i _. reflexivity.
  - cbn. lia.
  - split; [exact H1|exact H2].
Defined.

(** X6. A task that was enqueued and not yet met by the worker cannot
    be read: [AddTask] puts the task in the queue and its id in the set
    but writes no key, so when no command fails and the key of the id
    is absent, [GetTask] on the id fails with "任务不存在" right after
    an [AddTask] that succeeded. *)
Theorem pending_task_not_readable (env : Env) (task : GenerationTask) (w : World) :
  (forall i, (length (log w) <= i)%nat -> redis_fault env i = None) ->
  keys (redis w) !! task_key (ID task) = None ->
  let added := AddTask env task w in
  added.1.2 = None
  /\ Status added.1.1 = TaskStatusPending
  /\ ID task ∈ members (redis added.2)
  /\ (GetTask env (ID task) added.2).1 = Err task_missing.
Proof.
  intros Hfault Hkey added. subst added.
  rewrite AddTask_run. rewrite (Hfault (length (log w) + 2)%nat) by lia.
  cbn [fst snd]. split; [reflexivity|]. split; [reflexivity|].
  split; [cbn [redis members ID set_times]; set_solver|].
  rewrite GetTask_present.
  - cbn [redis keys]. now rewrite Hkey.
  - apply Hfault. cbn [log]. rewrite length_app. lia.
  - apply Hfault. cbn [log]. rewrite length_app. lia.
  - cbn [redis members ID set_times]. set_solver.
Qed.

Lemma pending_task_not_readable_witness :
  (GetTask quiet (lit "task_1_5")
     (AddTask quiet (sample_task (lit "task_1_5") 1 7) world_absent).2).1
  = Err task_missing.
Proof.
  apply (pending_task_not_readable quiet (sample_task (lit "task_1_5") 1 7) world_absent).
  - intros i _. reflexivity.
  - reflexivity.
Defined.

(** X7. [GetTaskList] reads and never fails on a task: it leaves the
    store as it was; when the ids were listed it returns tasks, at most
    one for each id, every one of them owned by the user that asked,
    passing over the ids whose task cannot be read; when listing the
    ids failed it returns that error behind "获取任务列表失败: "
    without any other command. *)
Theorem GetTaskList_owner (env : Env) (answer : result (list (list Z)))
    (userID : Z) (w : World) :
  let out := GetTaskList env answer userID w in
  redis out.2 = redis w
  /\ match answer, out.1 with
     | Ok taskIDs, Ok tasks =>
       Forall (fun t => UserID t = userID) tasks
       /\ (length tasks <= length taskIDs)%nat
     | Err err, Err e =>
       e = Errorf_v (lit "获取任务列表失败: ") err /\ log out.2 = log w
     | _, _ => False
     end.
Proof.
  intros out. subst out. destruct answer as [taskIDs|err]; cbn [GetTaskList].
  - unfold bind.
    destruct (list_from_reads env userID taskIDs [] w)
      as (Hr & _ & found & Hres & Hown & Hlen).
    destruct (list_from env taskIDs userID [] w) as [tasks w1].
    cbn [fst snd ret] in *. subst tasks. auto.
  - cbn. auto.
Qed.

(** X8. When no command fails, [GetTaskList] returns exactly the tasks
    of the user that can be read: for the ids in the order they were
    listed, the tasks whose id is in the set, whose key holds a task
    and whose user is the one that asked. An id whose key is absent or
    holds bytes that do not parse is left out without an error. *)
Theorem GetTaskList_content (env : Env) (taskIDs : list (list Z))
    (userID : Z) (w : World) :
  (forall i, (length (log w) <= i)%nat -> redis_fault env i = None) ->
  (GetTaskList env (Ok taskIDs) userID w).1
  = Ok (List.filter (fun t => UserID t =? userID)
          (omap (readable (redis w)) taskIDs)).
Proof.
  intros Hfault. cbn [GetTaskList]. unfold bind.
  pose proof (list_from_content env userID taskIDs [] w Hfault) as H.
  destruct (list_from env taskIDs userID [] w) as [tasks w1].
  cbn [fst ret] in *. now rewrite H.
Qed.

Lemma GetTaskList_content_witness :
  (GetTaskList quiet (Ok [lit "a"; lit "b"; lit "c"; lit "d"; lit "e"]) 7 world_listed).1
  = Ok [sample_task (lit "a") 1 7; sample_task (lit "c") 3 7].
Proof.
  rewrite (GetTaskList_content quiet) by (intros i _; reflexivity).
  vm_compute. reflexivity.
Defined.

(** ** More about the assembler *)

(** *** Decoding and encoding again *)

(** A decoded element that is not an ill-formed byte is the encoding of
    its rune. *)
Lemma EncodeRune_DecodeRune (s : list Z) r n :
  s <> [] -> utf8.DecodeRune s = (r, n) ->
  utf8.ill_formed (r, take n s) = false ->
  utf8.EncodeRune r = take n s.
Proof.
  intros Hne Hd Hill. destruct s as [|b0 s]; [congruence|]. clear Hne.
  unfold utf8.DecodeRune in Hd.
  assert (Herr : (utf8.RuneError, 1%nat) = (r, n) -> utf8.EncodeRune r = take n (b0 :: s)).
  { intros [= <- <-]. discriminate Hill. }
  destruct (utf8.between 0 127 b0) eqn:E0.
  { injection Hd as <- <-. unfold utf8.EncodeRune. now rewrite E0. }
  apply between_nspec in E0.
  destruct (utf8.between 194 223 b0) eqn:E1.
  { destruct s as [|b1 s]; [now apply Herr|].
    destruct (utf8.cont b1) eqn:C1; [|now apply Herr].
    injection Hd as <- <-. apply between_spec in E1, C1.
    unfold utf8.EncodeRune.
    rewrite (between_false 0 127), (between_true 128 2047) by lia.
    cbn [take]. f_equal; [zdiv|f_equal; zdiv]. }
  apply between_nspec in E1.
  destruct (utf8.between 224 239 b0) eqn:E2.
  { destruct s as [|b1 [|b2 s]]; try now apply Herr.
    destruct (utf8.between _ _ b1 && utf8.cont b2) eqn:C; [|now apply Herr].
    injection Hd as <- <-.
    apply andb_true_iff in C as [C1 C2]. apply between_spec in E2, C1, C2.
    assert (Hb1 : (if b0 =? 224 then 160 else 128) <= b1
                  /\ b1 <= (if b0 =? 237 then 159 else 191)).
    { unfold utf8.accept_lo, utf8.accept_hi in C1.
      repeat match type of C1 with context [?a =? ?b] => destruct (Z.eqb_spec a b) end;
        repeat match goal with |- context [?a =? ?b] => destruct (Z.eqb_spec a b) end; lia. }
    clear C1.
    set (r := (b0 - 224) * 4096 + (b1 - 128) * 64 + (b2 - 128)).
    assert (Hr : 2048 <= r <= 65535 /\ (r <= 55295 \/ 57344 <= r) /\ 128 <= b1 <= 191).
    { subst r. repeat match type of Hb1 with context [?a =? ?b] => destruct (Z.eqb_spec a b) end; lia. }
    clear Hb1.
    unfold utf8.EncodeRune.
    rewrite (between_false 0 127), (between_false 128 2047) by lia.
    assert (Hs : utf8.scalar r = true).
    { unfold utf8.scalar, utf8.MaxRune. apply orb_true_iff. rewrite !between_spec. lia. }
    rewrite Hs. cbn [negb]. destruct (Z.leb_spec r 65535); [|lia].
    cbn [take]. subst r. f_equal; [zdiv|f_equal; [zdiv|f_equal; zdiv]]. }
  apply between_nspec in E2.
  destruct (utf8.between 240 244 b0) eqn:E3; [|now apply Herr].
  destruct s as [|b1 [|b2 [|b3 s]]]; try now apply Herr.
  destruct (utf8.between _ _ b1 && utf8.cont b2 && utf8.cont b3) eqn:C; [|now apply Herr].
  injection Hd as <- <-.
  apply andb_true_iff in C as [C C3]. apply andb_true_iff in C as [C1 C2].
  apply between_spec in E3, C1, C2, C3.
  assert (Hb1 : (if b0 =? 240 then 144 else 128) <= b1
                /\ b1 <= (if b0 =? 244 then 143 else 191)).
  { unfold utf8.accept_lo, utf8.accept_hi in C1.
    repeat match type of C1 with context [?a =? ?b] => destruct (Z.eqb_spec a b) end;
      repeat match goal with |- context [?a =? ?b] => destruct (Z.eqb_spec a b) end; lia. }
  clear C1.
  set (r := (b0 - 240) * 262144 + (b1 - 128) * 4096 + (b2 - 128) * 64 + (b3 - 128)).
  assert (Hr : 65536 <= r <= 1114111 /\ 128 <= b1 <= 191).
  { subst r. repeat match type of Hb1 with context [?a =? ?b] => destruct (Z.eqb_spec a b) end; lia. }
  clear Hb1.
  unfold utf8.EncodeRune.
  rewrite (between_false 0 127), (between_false 128 2047) by lia.
  assert (Hs : utf8.scalar r = true).
  { unfold utf8.scalar, utf8.MaxRune. apply orb_true_iff. rewrite !between_spec. lia. }
  rewrite Hs. cbn [negb]. destruct (Z.leb_spec r 65535); [lia|].
  cbn [take]. subst r. f_equal; [zdiv|f_equal; [zdiv|f_equal; [zdiv|f_equal; zdiv]]].
Qed.

(** Writing the runes of a well-formed string gives the string back. *)
Lemma write_runes_valid (s : list Z) :
  utf8.ValidString s = true -> write_runes (utf8.runes s) = s.
Proof.
  remember (length s) as m eqn:Hm. revert s Hm.
  induction m as [m IH] using lt_wf_ind. intros s Hm Hv.
  destruct s as [|b s]; [reflexivity|].
  destruct (utf8.DecodeRune (b :: s)) as [r n] eqn:Hd.
  destruct (DecodeRune_spec (b :: s) r n) as [_ Hn]; [discriminate|assumption|].
  unfold utf8.ValidString, utf8.runes in *.
  rewrite (range_cons _ r n) in * by (discriminate || assumption).
  cbn [forallb map fst] in *. apply andb_true_iff in Hv as [Hi Hv].
  apply negb_true_iff in Hi.
  cbn [write_runes flat_map]. fold (write_runes (map fst (utf8.range (drop n (b :: s))))).
  rewrite (EncodeRune_DecodeRune (b :: s) r n) by (discriminate || assumption).
  rewrite (IH (length (drop n (b :: s)))); [apply take_drop| |reflexivity|exact Hv].
  rewrite length_drop. subst m. lia.
Qed.

(** *** The filter *)

(** X9. The output of [FilterContent] is well-formed UTF-8, and the
    strings [FilterContent] leaves as they are are exactly the
    well-formed strings whose runes are all printable, newlines or
    tabs. *)
Theorem FilterContent_fixed_points (PrintRanges : Z -> bool) (content : list Z) :
  utf8.ValidString (FilterContent PrintRanges content) = true
  /\ (FilterContent PrintRanges content = content
      <-> utf8.ValidString content = true
          /\ Forall (fun r => passes_filter PrintRanges r = true) (utf8.runes content)).
Proof.
  assert (Hsc : Forall (fun r => utf8.scalar r = true)
                       (map (filter_image PrintRanges) (utf8.runes content))).
  { apply Forall_map. eapply Forall_impl; [apply runes_scalar|].
    intros r. apply filter_image_scalar. }
  rewrite FilterContent_runes. split; [now apply ValidString_write_runes|]. split.
  - intros Heq. split; [rewrite <- Heq; now apply ValidString_write_runes|].
    apply (f_equal utf8.runes) in Heq. rewrite runes_write_runes in Heq by exact Hsc.
    rewrite <- Heq. apply Forall_map, Forall_forall. intros r _.
    apply filter_image_passes.
  - intros [Hv Hp]. rewrite <- (write_runes_valid content Hv) at 2. f_equal.
    rewrite <- (map_id (utf8.runes content)) at 2. apply map_ext_in.
    intros r Hr. apply filter_image_id.
    apply (proj1 (Forall_forall _ _) Hp). now apply list_elem_of_In.
Qed.

Lemma FilterContent_fixed_points_witness :
  FilterContent (fun _ => true) (lit "# 中医养生" ++ [10; 9] ++ lit "Tips")
  = lit "# 中医养生" ++ [10; 9] ++ lit "Tips".
Proof.
  apply (FilterContent_fixed_points (fun _ => true)). split; [reflexivity|].
  vm_compute. repeat constructor.
Defined.

(** *** The summary *)

(** X10. Summarising a summary changes nothing, and a summary holds no
    newline: [generateSummary] is idempotent on every content string. *)
Theorem generateSummary_idempotent (content : list Z) :
  generateSummary (generateSummary content) = generateSummary content
  /\ 10 ∉ generateSummary content.
Proof.
  set (f := fun b : Z => if b =? 10 then 32 else b).
  assert (Hff : forall l, map f (map f l) = map f l).
  { intros l. rewrite map_map. apply map_ext. intros b. unfold f.
    destruct (Z.eqb_spec b 10); [reflexivity|]. now destruct (Z.eqb_spec b 10). }
  assert (Hno : forall l, 10 ∉ map f l).
  { intros l Hin. apply list_elem_of_fmap in Hin as (b & Hb & _). unfold f in Hb.
    destruct (Z.eqb_spec b 10); congruence. }
  assert (Hshape : generateSummary content
                   = if 300 <? len (map f content)
                     then take 300 (map f content) ++ lit "..."
                     else map f content).
  { unfold generateSummary, newline. change (lit " ") with [32].
    now rewrite (ReplaceAll_byte content 10 32). }
  assert (Hnl : 10 ∉ generateSummary content).
  { rewrite Hshape. destruct (300 <? len (map f content)); [|apply Hno].
    intros Hin. apply elem_of_app in Hin as [Hin|Hin].
    - apply (Hno content). now apply (subseteq_take 300 (map f content)).
    - revert Hin. vm_compute. intros Hin.
      repeat (apply elem_of_cons in Hin as [Hin|Hin]; [discriminate|]).
      now apply elem_of_nil in Hin. }
  split; [|exact Hnl].
  unfold generateSummary at 1. unfold newline. change (lit " ") with [32].
  rewrite (ReplaceAll_byte_absent _ 10 32 Hnl). rewrite Hshape.
  destruct (Z.ltb_spec 300 (len (map f content))) as [Hlong|Hshort].
  - assert (Hlen : length (take 300 (map f content)) = 300%nat).
    { rewrite length_take. unfold len in Hlong. lia. }
    assert (Hlong' : (300 <? len (take 300 (map f content) ++ lit "...")) = true).
    { apply Z.ltb_lt. unfold len. rewrite length_app, Hlen.
      change (length (lit "...")) with 3%nat. lia. }
    rewrite Hlong'. unfold slice_to. change (Z.to_nat 300) with 300%nat.
    rewrite <- Hlen at 1. now rewrite take_app_length.
  - destruct (Z.ltb_spec 300 (len (map f content))); [lia|reflexivity].
Qed.

(** *** Slugs of slugs *)

Lemma well_trimmed_ascii (s : list Z) :
  well_trimmed s -> Forall (fun b => 0 <= b <= 127) s.
Proof.
  intros (Hs & _). eapply Forall_impl; [exact Hs|]. intros b Hb. cbv beta in Hb.
  unfold alnum in Hb. apply orb_true_iff in Hb as [Hb|Hb].
  - apply orb_true_iff in Hb as [Hb|Hb]; apply between_spec in Hb; lia.
  - apply Z.eqb_eq in Hb. lia.
Qed.

Lemma ValidString_ascii (s : list Z) :
  Forall (fun b => 0 <= b <= 127) s -> utf8.ValidString s = true.
Proof.
  intros H. rewrite <- (write_runes_ascii s H). apply ValidString_write_runes.
  eapply Forall_impl; [exact H|]. intros b Hb. cbv beta in Hb. unfold utf8.scalar.
  rewrite (between_true 0 55295) by lia. reflexivity.
Qed.

(** A mapping that fixes the bytes of an ASCII string leaves the string
    as it is. *)
Lemma Map_ascii_id (mapping : Z -> Z) (s : list Z) :
  Forall (fun b => 0 <= b <= 127 /\ mapping b = b) s -> strings.Map mapping s = s.
Proof.
  intros H. rewrite Map_runes, runes_ascii
    by (eapply Forall_impl; [exact H|]; intros b Hb; cbv beta in Hb; tauto).
  induction H as [|b s [Hb Hm] _ IH]; [reflexivity|].
  cbn [flat_map]. rewrite IH, Hm.
  destruct (Z.ltb_spec b 0); [lia|].
  unfold utf8.EncodeRune. now rewrite between_true by lia.
Qed.

Lemma Contains_no_hyphen (s : list Z) :
  Forall (fun b => b <> 45) s -> strings.Contains s [45; 45] = false.
Proof.
  induction 1 as [|b s Hb _ IH]; [reflexivity|].
  cbn [strings.Contains strings.HasPrefix]. rewrite IH.
  now destruct (Z.eqb_spec b 45).
Qed.

(** What the steps of [generateSlug] leave of a trimmed slug is the
    slug. *)
Lemma slug_core_fixed (LowerCase : Z -> Z) (s : list Z) :
  well_trimmed s -> slug_core LowerCase s = s.
Proof.
  intros Hw. pose proof (well_trimmed_ascii s Hw) as Hascii.
  destruct Hw as (Hs & Hdd & Hhead & Hlast).
  assert (Hch : forall b, alnum b || (b =? 45) = true ->
            (97 <= b <= 122 \/ 48 <= b <= 57 \/ b = 45)).
  { intros b Hb. unfold alnum in Hb. apply orb_true_iff in Hb as [Hb|Hb].
    - apply orb_true_iff in Hb as [Hb|Hb]; apply between_spec in Hb; lia.
    - apply Z.eqb_eq in Hb. lia. }
  unfold slug_core. rewrite (ValidString_ascii s Hascii). cbn [negb].
  unfold strings.ToLower.
  rewrite (Map_ascii_id (unicode.ToLower LowerCase) s).
  2:{ eapply Forall_impl; [exact Hs|]. intros b Hb. cbv beta in Hb. apply Hch in Hb.
      split; [lia|]. unfold unicode.ToLower, unicode.MaxASCII.
      destruct (Z.leb_spec b 127); [|lia]. now rewrite between_false by lia. }
  rewrite (Map_ascii_id ascii_only s).
  2:{ eapply Forall_impl; [exact Hascii|]. intros b Hb. cbv beta in Hb.
      split; [lia|]. unfold ascii_only. destruct (Z.ltb_spec b 128); [reflexivity|lia]. }
  change (lit " ") with [32]. change (lit "-") with [45].
  rewrite ReplaceAll_byte_absent.
  2:{ intros Hin. apply (proj1 (Forall_forall _ _) Hs) in Hin. apply Hch in Hin. lia. }
  rewrite (Map_ascii_id slug_char s).
  2:{ eapply Forall_impl; [exact Hs|]. intros b Hb. cbv beta in Hb.
      split; [apply Hch in Hb; lia|]. unfold slug_char. fold (alnum b). now rewrite Hb. }
  assert (Hc : collapse_hyphens (length s) s = s).
  { destruct (length s); [reflexivity|]. cbn [collapse_hyphens]. now rewrite Hdd. }
  rewrite Hc. unfold strings.Trim.
  assert (Hl : forall t, (forall b, head t = Some b -> b <> 45) ->
            strings.TrimLeft t [45] = t).
  { intros [|b t] Hh; [reflexivity|]. cbn [strings.TrimLeft].
    change [45] with (lit "-"). rewrite in_cutset_hyphen.
    destruct (Z.eqb_spec b 45) as [->|]; [|reflexivity]. now destruct (Hh 45). }
  rewrite (Hl s Hhead). unfold strings.TrimRight.
  rewrite Hl; [apply rev_involutive|]. intros b. rewrite <- last_rev.
  rewrite rev_involutive. apply Hlast.
Qed.

(** Every slug is trimmed, not empty and at most 100 bytes long. *)
Lemma generateSlug_well_trimmed (LowerCase : Z -> Z) (now : Z) (title : list Z) :
  0 <= now < 2 ^ 63 ->
  well_trimmed (generateSlug LowerCase now title)
  /\ generateSlug LowerCase now title <> []
  /\ len (generateSlug LowerCase now title) <= 100.
Proof.
  intros Hnow. unfold generateSlug.
  pose proof (slug_core_well_trimmed LowerCase title) as Hcore.
  destruct (slug_core LowerCase title) as [|c core] eqn:Ecore; cbn [is_empty].
  - destruct (itoa_nonneg now) as [Hd Hlen]; [lia|].
    assert (Hlen' : len (lit "article-" ++ itoa now) <= 28).
    { unfold len. rewrite length_app. change (length (lit "article-")) with 8%nat. lia. }
    destruct (Z.ltb_spec 100 (len (lit "article-" ++ itoa now))); [lia|].
    split; [|split; [now apply lit_app_nonempty|lia]].
    change (lit "article-") with [97; 114; 116; 105; 99; 108; 101; 45].
    assert (Hd' : Forall (fun b : Z => b <> 45) (itoa now)).
    { eapply Forall_impl; [exact Hd|]. intros b Hb. cbv beta in Hb.
      apply between_spec in Hb. lia. }
    assert (Hdd : strings.Contains ([97; 114; 116; 105; 99; 108; 101; 45] ++ itoa now)
                    (lit "--") = false).
    { change (lit "--") with [45; 45].
      cbn [app strings.Contains strings.HasPrefix Z.eqb Pos.eqb andb orb].
      rewrite (Contains_no_hyphen (itoa now) Hd'), orb_false_r.
      destruct Hd' as [|d ds Hd0 _]; [reflexivity|]. cbn [strings.HasPrefix].
      destruct (Z.eqb_spec d 45); [congruence|reflexivity]. }
    destruct (itoa now) as [|d ds] eqn:Ei; [cbn in Hlen; lia|].
    repeat split.
    + repeat (constructor; [reflexivity|]).
      eapply Forall_impl; [exact Hd|]. intros b Hb. cbv beta in Hb.
      unfold alnum. unfold is_digit in Hb. now rewrite Hb, orb_true_r.
    + exact Hdd.
    + cbn. intros b [= <-]. lia.
    + intros b Hb. change ([97; 114; 116; 105; 99; 108; 101; 45] ++ d :: ds)
        with ([97; 114; 116; 105; 99; 108; 101; 45; d] ++ ds) in Hb.
      assert (Hin : b ∈ d :: ds).
      { destruct ds as [|d' ds'] using rev_ind.
        - cbn in Hb. injection Hb as <-. left.
        - rewrite app_assoc, last_snoc in Hb. injection Hb as <-.
          right. apply elem_of_app. right. left. }
      apply (proj1 (Forall_forall _ _) Hd') in Hin. exact Hin.
  - destruct (Z.ltb_spec 100 (len (c :: core))) as [Hlong|Hshort].
    + unfold slice_to. change (Z.to_nat 100) with 100%nat.
      destruct (well_trimmed_cut (c :: core) 100 Hcore) as (H1 & H2 & H3);
        [discriminate|lia|].
      split; [exact H1|]. split; [exact H2|]. unfold len. lia.
    + split; [exact Hcore|]. split; [discriminate|exact Hshort].
Qed.

(** X11. A slug is its own slug: for every title and every clock
    reading, deriving a slug from the slug of the title gives that slug
    again, whatever the clock reads the second time. *)
Theorem generateSlug_fixed_point (LowerCase : Z -> Z) (now now' : Z) (title : list Z) :
  0 <= now < 2 ^ 63 ->
  generateSlug LowerCase now' (generateSlug LowerCase now title)
  = generateSlug LowerCase now title.
Proof.
  intros Hnow.
  destruct (generateSlug_well_trimmed LowerCase now title Hnow) as (Hw & Hne & Hlen).
  set (s := generateSlug LowerCase now title) in *.
  unfold generateSlug. rewrite (slug_core_fixed LowerCase s Hw).
  destruct s as [|b s]; [congruence|]. cbn [is_empty].
  now destruct (Z.ltb_spec 100 (len (b :: s))); [lia|].
Qed.

Lemma generateSlug_fixed_point_witness :
  generateSlug (fun r => r) 5
    (generateSlug (fun r => r) 1700000000 (lit "中医养生 Tips!!"))
  = generateSlug (fun r => r) 1700000000 (lit "中医养生 Tips!!").
Proof. apply (generateSlug_fixed_point (fun r => r) 1700000000 5). lia. Defined.

(** ** Storing the article *)

Lemma store_article_run (env : Env) (article : Article) (keyword : Keyword)
    (categoryIDs : list Z) (w : World) :
  let out := store_article env article keyword categoryIDs w in
  redis out.2 = redis w
  /\ exists ops,
       log out.2 = log w ++ map EvDb ops
       /\ head ops = Some DbBegin
       /\ Forall (fun op => closes op = false) (removelast ops)
       /\ (exists final, last ops = Some final /\
             match out.1 with
             | Ok a =>
               final = DbCommit
               /\ a = with_ID article (db_new_id env (S (length (log w))))
             | Err e =>
               final = DbRollback
               \/ (final = DbCommit
                   /\ exists err, e = wrapError (lit "提交事务失败: ") err)
             end)
       /\ (categoryIDs = [] -> Forall (fun op => category_call op = false) ops).
Proof.
  intros out. subst out. unfold store_article, tx_step. run.
  rewrite length_app, Nat.add_1_r.
  destruct (db_fault env (S (length (log w)))) as [e1|].
  { run. split; [reflexivity|]. eexists [_; _; _].
    split; [now rewrite <- !app_assoc|]. split; [reflexivity|].
    split; [repeat constructor|]. split; [eexists; split; [reflexivity|now left]|].
    intros _. repeat constructor. }
  run. destruct (db_fault env _) as [e2|].
  { run. split; [reflexivity|]. eexists [_; _; _; _].
    split; [now rewrite <- !app_assoc|]. split; [reflexivity|].
    split; [repeat constructor|]. split; [eexists; split; [reflexivity|now left]|].
    intros _. repeat constructor. }
  destruct categoryIDs as [|c cs].
  - change (0 <? Z.of_nat (@length Z [])) with false. run.
    destruct (db_fault env _) as [e3|].
    { run. split; [reflexivity|]. eexists [_; _; _; _; _].
      split; [now rewrite <- !app_assoc|]. split; [reflexivity|].
      split; [repeat constructor|]. split; [eexists; split; [reflexivity|now left]|].
      intros _. repeat constructor. }
    run. destruct (db_fault env _) as [e4|]; cbn [fst snd redis log];
      (split; [reflexivity|]); eexists [_; _; _; _; _];
      (split; [now rewrite <- !app_assoc|]); (split; [reflexivity|]);
      (split; [repeat constructor|]); (split; [|intros _; repeat constructor]);
      eexists; (split; [reflexivity|]).
    + right. split; [reflexivity|]. now eexists.
    + split; reflexivity.
  - assert (Hpos : (0 <? Z.of_nat (length (c :: cs))) = true).
    { apply Z.ltb_lt. cbn [length]. lia. }
    rewrite Hpos. run.
    destruct (db_fault env _) as [e3|].
    { run. split; [reflexivity|]. eexists [_; _; _; _; _].
      split; [now rewrite <- !app_assoc|]. split; [reflexivity|].
      split; [repeat constructor|]. split; [eexists; split; [reflexivity|now left]|].
      discriminate. }
    run. destruct (db_fault env _) as [e4|].
    { run. split; [reflexivity|]. eexists [_; _; _; _; _; _].
      split; [now rewrite <- !app_assoc|]. split; [reflexivity|].
      split; [repeat constructor|]. split; [eexists; split; [reflexivity|now left]|].
      discriminate. }
    run. destruct (db_fault env _) as [e5|].
    { run. split; [reflexivity|]. eexists [_; _; _; _; _; _; _].
      split; [now rewrite <- !app_assoc|]. split; [reflexivity|].
      split; [repeat constructor|]. split; [eexists; split; [reflexivity|now left]|].
      discriminate. }
    run. destruct (db_fault env _) as [e6|]; cbn [fst snd redis log];
      (split; [reflexivity|]); eexists [_; _; _; _; _; _; _];
      (split; [now rewrite <- !app_assoc|]); (split; [reflexivity|]);
      (split; [repeat constructor|]); (split; [|discriminate]);
      eexists; (split; [reflexivity|]).
    + right. split; [reflexivity|]. now eexists.
    + split; reflexivity.
Qed.

Lemma db_calls_app (evs1 evs2 : list event) :
  db_calls (evs1 ++ evs2) = db_calls evs1 ++ db_calls evs2.
Proof. unfold db_calls. apply flat_map_app. Qed.

Lemma db_calls_map (ops : list db_op) : db_calls (map EvDb ops) = ops.
Proof.
  unfold db_calls. induction ops as [|op ops IH]; [reflexivity|].
  cbn [map flat_map app]. now rewrite IH.
Qed.

(** X12. The article is stored in one transaction that is always
    closed, and closed once: the calls of [store_article] start with
    the opening of the transaction and end with a commit or a rollback,
    with neither of them before the end. The article is returned, with
    the id the database gave it, only after a commit; every failure of
    a step is followed by a rollback as the last call, and the only
    other error is that of the commit itself. Without category ids no
    call is about categories. The store of the queue is not touched. *)
Theorem store_article_transaction (env : Env) (article : Article)
    (keyword : Keyword) (categoryIDs : list Z) (w : World) :
  let out := store_article env article keyword categoryIDs w in
  let evs := drop (length (log w)) (log out.2) in
  redis out.2 = redis w
  /\ take (length (log w)) (log out.2) = log w
  /\ evs = map EvDb (db_calls evs)
  /\ head (db_calls evs) = Some DbBegin
  /\ Forall (fun op => closes op = false) (removelast (db_calls evs))
  /\ (exists final, last (db_calls evs) = Some final /\
        match out.1 with
        | Ok a =>
          final = DbCommit
          /\ a = with_ID article (db_new_id env (S (length (log w))))
        | Err e =>
          final = DbRollback
          \/ (final = DbCommit
              /\ exists err, e = wrapError (lit "提交事务失败: ") err)
        end)
  /\ (categoryIDs = [] ->
      Forall (fun op => category_call op = false) (db_calls evs)).
Proof.
  intros out evs. subst evs.
  destruct (store_article_run env article keyword categoryIDs w)
    as (Hr & ops & Hl & Hhead & Hmid & Hlast & Hcat).
  fold out in Hr, Hl, Hlast. rewrite Hl, take_app_length, drop_app_length, db_calls_map.
  auto 10.
Qed.

Lemma store_article_transaction_witness :
  Forall (fun op => category_call op = false)
    (db_calls (drop 0 (log (store_article quiet (assemble (lit "tips") (lit "Tips") [] [])
                              {| kw_ID := 1; kw_Word := lit "养生" |} [] world_absent).2))).
Proof.
  apply (store_article_transaction quiet (assemble (lit "tips") (lit "Tips") [] [])
           {| kw_ID := 1; kw_Word := lit "养生" |} [] world_absent).
  reflexivity.
Defined.

(** *** The article that comes back *)

Lemma storage_filter_valid (s : list Z) :
  utf8.ValidString (strings.Map storage_filter s) = true.
Proof.
  rewrite (Map_ext _ _ s storage_filter_stored), Map_filter.
  apply ValidString_write_runes, filter_scalar, runes_scalar.
Qed.

Lemma generateSlug_core (LowerCase : Z -> Z) (now now' : Z) (title : list Z) :
  is_empty (slug_core LowerCase title) = false ->
  generateSlug LowerCase now title = generateSlug LowerCase now' title.
Proof. unfold generateSlug. now intros ->. Qed.

(** An article [GenerateArticle] returns was assembled from a generated
    text and stored by a transaction that committed. *)
Lemma GenerateArticle_Ok (PrintRanges : Z -> bool) (LowerCase : Z -> Z)
    (config : Config) (env : Env) (keyword : Keyword) (categoryIDs : list Z)
    (w : World) (a : Article) :
  let out := GenerateArticle PrintRanges LowerCase config env keyword categoryIDs w in
  (forall i, (i < length (log out.2))%nat -> 0 <= clock env i < 2 ^ 63) ->
  out.1 = Ok a ->
  (exists raw now id,
     0 <= now < 2 ^ 63
     /\ a = with_ID
              (assemble
                 (generateSlug LowerCase now
                    (parseArticle PrintRanges (FilterContent PrintRanges raw)).1)
                 (parseArticle PrintRanges (FilterContent PrintRanges raw)).1
                 (parseArticle PrintRanges (FilterContent PrintRanges raw)).2
                 (generateSummary
                    (parseArticle PrintRanges (FilterContent PrintRanges raw)).2))
              id)
  /\ last (db_calls (drop (length (log w)) (log out.2))) = Some DbCommit.
Proof.
  intros out. subst out. unfold GenerateArticle. run.
  destruct (db_fault env (length (log w))); [discriminate|].
  set (row := {| row_KeywordID := _; row_Status := _; row_Prompt := _ |}).
  set (w0 := {| redis := redis w; log := log w ++ [EvDb (DbCreateRow row)] |}).
  assert (Hfin : forall content w1 pre,
            log w1 = log w ++ pre ->
            let out := finish_article PrintRanges LowerCase env keyword categoryIDs
                         content w1 in
            (forall i, (i < length (log out.2))%nat -> 0 <= clock env i < 2 ^ 63) ->
            out.1 = Ok a ->
            (exists raw now id,
               0 <= now < 2 ^ 63
               /\ a = with_ID
                        (assemble
                           (generateSlug LowerCase now
                              (parseArticle PrintRanges (FilterContent PrintRanges raw)).1)
                           (parseArticle PrintRanges (FilterContent PrintRanges raw)).1
                           (parseArticle PrintRanges (FilterContent PrintRanges raw)).2
                           (generateSummary
                              (parseArticle PrintRanges (FilterContent PrintRanges raw)).2))
                        id)
            /\ last (db_calls (drop (length (log w)) (log out.2))) = Some DbCommit).
  { intros content w1 pre Hl1 out. subst out. unfold finish_article.
    destruct (parseArticle PrintRanges (FilterContent PrintRanges content))
      as [title body] eqn:Ep.
    unfold generateSlug_now, bind.
    assert (Hstore : forall slug w2 pre2,
              log w2 = log w ++ pre2 ->
              let out := store_article env (assemble slug title body (generateSummary body))
                           keyword categoryIDs w2 in
              out.1 = Ok a ->
              (exists id, a = with_ID (assemble slug title body (generateSummary body)) id)
              /\ last (db_calls (drop (length (log w)) (log out.2))) = Some DbCommit
              /\ (length (log w2) <= length (log out.2))%nat).
    { intros slug w2 pre2 Hl2 out Hok. subst out.
      destruct (store_article_run env (assemble slug title body (generateSummary body))
                  keyword categoryIDs w2) as (_ & ops & Hl & _ & _ & (final & Hlast & Hres) & _).
      rewrite Hok in Hres. destruct Hres as [-> ->].
      split; [now eexists|]. rewrite Hl, Hl2, <- app_assoc, drop_app_length.
      rewrite db_calls_app, db_calls_map, !length_app. split; [|lia].
      destruct ops as [|op ops] using rev_ind; [discriminate|].
      rewrite app_assoc, last_snoc. now rewrite last_snoc in Hlast. }
    destruct (is_empty (slug_core LowerCase title)) eqn:Ecore.
    - unfold Now. run. intros Hclock Hok.
      set (w2 := {| redis := redis w1; log := log w1 ++ [EvNow] |}) in *.
      assert (Hl2 : log w2 = log w ++ (pre ++ [EvNow])).
      { subst w2. cbn [log]. now rewrite Hl1, <- app_assoc. }
      destruct (Hstore _ w2 _ Hl2 Hok) as ((id & ->) & Hlast & Hlen).
      split; [|exact Hlast].
      exists content, (clock env (length (log w1)) / 1000000000), id.
      rewrite Ep. cbn [fst snd]. split; [|reflexivity].
      specialize (Hclock (length (log w1))).
      subst w2. cbn [log] in Hlen. rewrite length_app in Hlen. cbn [length] in Hlen.
      specialize (Hclock ltac:(lia)).
      change (2 ^ 63) with 9223372036854775808 in *. zdiv.
    - unfold ret. intros _ Hok.
      destruct (Hstore _ w1 pre Hl1 Hok) as ((id & ->) & Hlast & _).
      split; [|exact Hlast].
      exists content, 0, id. rewrite Ep. cbn [fst snd]. split; [|reflexivity].
      change (2 ^ 63) with 9223372036854775808. lia. }
  rewrite (generate_content_run config env row w0).
  destruct (deepseek_result env _) as [content|err].
  - cbn [fst snd]. eapply (Hfin content). subst w0. cbn [log].
    rewrite <- app_assoc. reflexivity.
  - destruct (ollama_result env _) as [content|err2]; [|discriminate].
    cbn [fst snd]. eapply (Hfin content). subst w0. cbn [log].
    rewrite <- app_assoc. reflexivity.
Qed.

(** X13. Every article [GenerateArticle] returns is a draft without a
    user, stored by a transaction whose last call is the commit; its
    meta title is its title; its meta description is the first 160
    bytes of its summary, or the whole summary when that is shorter;
    its slug matches [^[a-z0-9]+(-[a-z0-9]+)*$] and has between 1 and
    100 bytes; and its title, content and summary are well-formed
    UTF-8. The clock readings of the run are taken as non-negative
    64-bit values. *)
Theorem generated_article_shape (PrintRanges : Z -> bool) (LowerCase : Z -> Z)
    (config : Config) (env : Env) (keyword : Keyword) (categoryIDs : list Z)
    (w : World) (a : Article) :
  let out := GenerateArticle PrintRanges LowerCase config env keyword categoryIDs w in
  (forall i, (i < length (log out.2))%nat -> 0 <= clock env i < 2 ^ 63) ->
  out.1 = Ok a ->
  art_Status a = lit "draft"
  /\ art_UserID a = None
  /\ art_MetaTitle a = art_Title a
  /\ art_MetaDesc a = slice_to (art_Summary a) (Z.min (len (art_Summary a)) 160)
  /\ len (art_MetaDesc a) <= 160
  /\ matches_slug_re (art_Slug a) = true
  /\ 1 <= len (art_Slug a) <= 100
  /\ utf8.ValidString (art_Title a) = true
  /\ utf8.ValidString (art_Content a) = true
  /\ utf8.ValidString (art_Summary a) = true
  /\ last (db_calls (drop (length (log w)) (log out.2))) = Some DbCommit.
Proof.
  intros out Hclock Hok.
  destruct (GenerateArticle_Ok PrintRanges LowerCase config env keyword categoryIDs
              w a Hclock Hok) as ((raw & now & id & Hnow & ->) & Hlast).
  set (parsed := parseArticle PrintRanges (FilterContent PrintRanges raw)).
  destruct (generateSlug_well_trimmed LowerCase now parsed.1 Hnow) as (Hw & Hne & Hlen).
  cbn [with_ID assemble art_Status art_UserID art_MetaTitle art_Title art_MetaDesc
       art_Summary art_Slug art_Content].
  repeat split; try apply storage_filter_valid; try exact Hlast; try exact Hlen.
  - unfold slice_to, len. rewrite length_take. lia.
  - now apply well_trimmed_matches.
  - destruct (generateSlug LowerCase now parsed.1); [congruence|].
    unfold len. cbn [length]. lia.
Qed.

Lemma generated_article_shape_witness :
  exists a,
    (GenerateArticle (fun _ => true) (fun r => r) sample_config quiet
       {| kw_ID := 1; kw_Word := lit "养生" |} [] world_absent).1 = Ok a
    /\ art_Status a = lit "draft"
    /\ matches_slug_re (art_Slug a) = true.
Proof.
  assert (E : exists a,
            (GenerateArticle (fun _ => true) (fun r => r) sample_config quiet
               {| kw_ID := 1; kw_Word := lit "养生" |} [] world_absent).1 = Ok a).
  { vm_compute. eexists. reflexivity. }
  destruct E as [a E]. exists a. split; [exact E|].
  destruct (generated_article_shape (fun _ => true) (fun r => r) sample_config quiet
              {| kw_ID := 1; kw_Word := lit "养生" |} [] world_absent a)
    as (H1 & _ & _ & _ & _ & H2 & _).
  - intros i Hi. vm_compute in Hi. cbn [clock quiet].
    change (2 ^ 63) with 9223372036854775808. lia.
  - exact E.
  - split; [exact H1|exact H2].
Defined.

(** *** The title of a filtered text *)

(** The encoding of a rune is the rune itself, below 128, or bytes from
    128 up. *)
Lemma EncodeRune_head (r : Z) :
  (0 <= r <= 127 /\ utf8.EncodeRune r = [r])
  \/ Forall (fun b => 128 <= b) (utf8.EncodeRune r).
Proof.
  unfold utf8.EncodeRune.
  destruct (utf8.between 0 127 r) eqn:E0.
  { apply between_spec in E0. now left. }
  right. apply between_nspec in E0.
  destruct (utf8.between 128 2047 r) eqn:E1.
  { apply between_spec in E1. repeat constructor; zdiv. }
  apply between_nspec in E1.
  destruct (utf8.scalar r) eqn:Es; cbn [negb]; [|repeat constructor; lia].
  assert (0 <= r).
  { unfold utf8.scalar, utf8.MaxRune in Es. apply orb_true_iff in Es.
    rewrite !between_spec in Es. lia. }
  destruct (r <=? 65535); repeat constructor; zdiv.
Qed.

Lemma write_runes_nonempty (rs : list Z) : rs <> [] -> write_runes rs <> [].
Proof.
  destruct rs as [|r rs]; [congruence|]. intros _. cbn [write_runes flat_map].
  pose proof (EncodeRune_nonempty r). destruct (utf8.EncodeRune r); [congruence|discriminate].
Qed.

Lemma Split_nonempty (s : list Z) (sep : Z) : strings.Split s sep <> [].
Proof.
  destruct s as [|b s]; [discriminate|]. cbn [strings.Split].
  destruct (b =? sep); [discriminate|]. now destruct (strings.Split s sep).
Qed.

Lemma Split_app_no_sep (bs s : list Z) (sep : Z) :
  Forall (fun b => b <> sep) bs ->
  strings.Split (bs ++ s) sep
  = match strings.Split s sep with
    | l :: ls => (bs ++ l) :: ls
    | [] => []
    end.
Proof.
  induction 1 as [|b bs Hb _ IH]; cbn [app].
  - now destruct (strings.Split s sep).
  - cbn [strings.Split]. destruct (Z.eqb_spec b sep); [congruence|].
    rewrite IH. pose proof (Split_nonempty s sep).
    now destruct (strings.Split s sep).
Qed.

(** The lines of a string written rune by rune are written from runes
    of the string. *)
Lemma Split_write_runes (P : Z -> Prop) (rs : list Z) :
  Forall P rs ->
  Forall (fun line => exists rl, line = write_runes rl /\ Forall P rl)
         (strings.Split (write_runes rs) 10).
Proof.
  induction 1 as [|r rs Hr Hrs IH].
  { repeat constructor. exists []. split; [reflexivity|constructor]. }
  cbn [write_runes flat_map]. fold (write_runes rs).
  destruct (Z.eq_dec r 10) as [->|Hne].
  - change (utf8.EncodeRune 10) with [10]. cbn [app strings.Split Z.eqb Pos.eqb].
    constructor; [|exact IH]. exists []. split; [reflexivity|constructor].
  - rewrite Split_app_no_sep.
    2:{ destruct (EncodeRune_head r) as [[_ ->]|H]; [repeat constructor; exact Hne|].
        eapply Forall_impl; [exact H|]. intros b Hb. cbv beta in Hb. lia. }
    destruct (strings.Split (write_runes rs) 10) as [|l ls]; [constructor|].
    apply Forall_cons in IH as [(rl & -> & Hrl) IH].
    constructor; [|exact IH]. exists (r :: rl). split; [reflexivity|].
    now constructor.
Qed.

(** Trimming a string written rune by rune leaves a string written
    from runes of it, the last of which is no white space. *)
Lemma TrimSpace_write_runes (P : Z -> Prop) (rl : list Z) :
  Forall (fun r => utf8.scalar r = true) rl -> Forall P rl ->
  exists t, strings.TrimSpace (write_runes rl) = write_runes t
            /\ Forall P t
            /\ (forall r, last t = Some r -> unicode.IsSpace r = false).
Proof.
  intros Hsc HP. unfold strings.TrimSpace. rewrite range_write_runes by exact Hsc.
  set (Q := fun c : Z * list Z => c.2 = utf8.EncodeRune c.1 /\ P c.1).
  assert (Hcs : Forall Q (map (fun r => (r, utf8.EncodeRune r)) rl)).
  { apply Forall_map. eapply Forall_impl; [exact HP|]. intros r Hr. now split. }
  set (cs := map (fun r => (r, utf8.EncodeRune r)) rl) in *. clearbody cs.
  destruct (drop_spaces_spec cs) as [(pre1 & E1) _].
  rewrite E1 in Hcs. apply Forall_app in Hcs as [_ Hcs1].
  apply List.Forall_rev in Hcs1.
  destruct (drop_spaces_spec (rev (strings.drop_spaces cs))) as [(pre2 & E2) Hhead].
  rewrite E2 in Hcs1. apply Forall_app in Hcs1 as [_ Hcs2].
  set (cs2 := strings.drop_spaces (rev (strings.drop_spaces cs))) in *. clearbody cs2.
  exists (map fst (rev cs2)). split; [|split].
  - apply List.Forall_rev in Hcs2. unfold write_runes.
    induction Hcs2 as [|c cs' [Hc _] _ IH]; [reflexivity|].
    cbn [map concat flat_map fst]. now rewrite IH, Hc.
  - apply Forall_map, List.Forall_rev. eapply Forall_impl; [exact Hcs2|].
    intros c [_ Hc]. exact Hc.
  - intros r Hr. destruct cs2 as [|c cs2]; [discriminate|].
    cbn [rev] in Hr. rewrite map_app in Hr. cbn [map] in Hr.
    rewrite last_snoc in Hr. injection Hr as <-. now apply Hhead.
Qed.

Lemma skip_blank_suffix (lines : list (list Z)) :
  exists pre, lines = pre ++ skip_blank lines.
Proof.
  induction lines as [|raw lines [pre IH]]; [now exists []|].
  cbn [skip_blank]. destruct (blank_line raw); [|now exists []].
  exists (raw :: pre). cbn [app]. now f_equal.
Qed.

Lemma skip_blank_head (lines : list (list Z)) (first : list Z) (rest : list (list Z)) :
  skip_blank lines = first :: rest -> blank_line first = false.
Proof.
  induction lines as [|raw lines IH]; [discriminate|].
  cbn [skip_blank]. destruct (blank_line raw) eqn:E; [exact IH|].
  now intros [= <- _].
Qed.

Section TitleFacts.

Variable PrintRanges : Z -> bool.

(** What [printable_only] keeps of a string written rune by rune. *)
Lemma printable_only_kept (t : list Z) (r : Z) :
  Forall (fun r => utf8.scalar r = true) t ->
  r ∈ t -> unicode.IsPrint PrintRanges r = true ->
  strings.Map (printable_only PrintRanges) (write_runes t) <> [].
Proof.
  intros Hsc Hin Hp.
  change (printable_only PrintRanges)
    with (fun r => if unicode.IsPrint PrintRanges r && negb (unicode.IsControl r)
                   then r else -1).
  rewrite Map_filter, runes_write_runes by exact Hsc.
  apply write_runes_nonempty. intros Hnil.
  assert (Hin' : In r (List.filter
                         (fun r => unicode.IsPrint PrintRanges r
                                   && negb (unicode.IsControl r)) t)).
  { apply List.filter_In. split; [now apply list_elem_of_In|].
    now rewrite Hp, (IsPrint_not_control PrintRanges r Hp). }
  rewrite Hnil in Hin'. destruct Hin'.
Qed.

Lemma passes_not_space (r : Z) :
  passes_filter PrintRanges r = true -> unicode.IsSpace r = false ->
  unicode.IsPrint PrintRanges r = true.
Proof.
  unfold passes_filter. intros Hp Hs.
  destruct (Z.eqb_spec r 10) as [E|_]; [rewrite E in Hs; discriminate Hs|].
  destruct (Z.eqb_spec r 9) as [E|_]; [rewrite E in Hs; discriminate Hs|].
  now rewrite !orb_false_r in Hp.
Qed.

(** The title a line gives, heading or not, keeps a printable rune. *)
Lemma line_title_kept (rl : list Z) :
  Forall (fun r => utf8.scalar r = true /\ passes_filter PrintRanges r = true) rl ->
  blank_line (write_runes rl) = false ->
  strings.Map (printable_only PrintRanges)
    (if heading_line (write_runes rl) then heading_text (write_runes rl)
     else strings.TrimSpace (write_runes rl)) <> [].
Proof.
  intros Hrl Hnb.
  destruct (TrimSpace_write_runes
              (fun r => utf8.scalar r = true /\ passes_filter PrintRanges r = true) rl)
    as (t & Et & Ht & Hlast).
  { eapply Forall_impl; [exact Hrl|]. now intros r [? _]. }
  { exact Hrl. }
  assert (Hsc : Forall (fun r => utf8.scalar r = true) t).
  { eapply Forall_impl; [exact Ht|]. now intros r [? _]. }
  assert (Hkeep : forall t' r, Forall (fun r => utf8.scalar r = true) t' ->
            (forall x, x ∈ t' -> x ∈ t) -> last t' = Some r ->
            unicode.IsSpace r = false ->
            strings.Map (printable_only PrintRanges) (write_runes t') <> []).
  { intros t' r Hsc' Hsub Hl Hs. apply (printable_only_kept t' r Hsc').
    - apply last_Some in Hl as [l' ->]. apply elem_of_app. right. left.
    - apply passes_not_space; [|exact Hs].
      assert (Hin : r ∈ t).
      { apply Hsub. apply last_Some in Hl as [l' ->]. apply elem_of_app. right. left. }
      now apply (proj1 (Forall_forall _ _) Ht) in Hin as [_ ?]. }
  destruct (heading_line (write_runes rl)) eqn:Eh.
  - pose proof (heading_text_nonempty _ Eh) as Hne.
    unfold heading_line, heading_text, strings.TrimPrefix in *. rewrite Eh in *.
    rewrite Et in *. change (lit "# ") with [35; 32] in *.
    change (length [35; 32]) with 2%nat in *.
    apply HasPrefix_spec in Eh as [tail Eh].
    assert (Ehead : exists t', t = 35 :: 32 :: t').
    { destruct t as [|r1 t]; [discriminate|].
      cbn [write_runes flat_map] in Eh.
      destruct (EncodeRune_head r1) as [[_ E]|H].
      2:{ destruct (utf8.EncodeRune r1) as [|b bs] eqn:E1.
          - now apply EncodeRune_nonempty in E1.
          - injection Eh as -> _. apply Forall_cons in H as [H _]. lia. }
      rewrite E in Eh. injection Eh as -> Eh.
      destruct t as [|r2 t]; [discriminate|].
      cbn [flat_map] in Eh.
      destruct (EncodeRune_head r2) as [[_ E2]|H].
      2:{ destruct (utf8.EncodeRune r2) as [|b bs] eqn:E2.
          - now apply EncodeRune_nonempty in E2.
          - injection Eh as -> _. apply Forall_cons in H as [H _]. lia. }
      rewrite E2 in Eh. injection Eh as -> _. now exists t. }
    destruct Ehead as [t' ->].
    change (write_runes (35 :: 32 :: t')) with ([35; 32] ++ write_runes t') in *.
    cbn [app drop] in *.
    assert (Ht' : t' <> []) by (intros ->; now apply Hne).
    destruct (last t') as [r|] eqn:El.
    2:{ apply last_None in El. congruence. }
    apply (Hkeep t' r).
    + now do 2 apply Forall_cons in Hsc as [_ Hsc].
    + intros x Hx. now do 2 right.
    + exact El.
    + apply Hlast. destruct t'; [congruence|exact El].
  - unfold blank_line in Hnb. rewrite Et in *.
    destruct (last t) as [r|] eqn:El.
    2:{ apply last_None in El. subst t. discriminate Hnb. }
    apply (Hkeep t r Hsc); auto.
Qed.

(** X14. The title parsed from a filtered text is never empty: for
    every generated text, [parseArticle] applied to the output of
    [FilterContent] gives a title of at least one byte, whether it
    comes from a heading, from the first line or from the fixed title.
    The runes of the fixed title are taken as printable, as the tables
    of the library have them. *)
Theorem filtered_title_nonempty (raw : list Z) :
  Forall (fun r => PrintRanges r = true) (utf8.runes default_title) ->
  (parseArticle PrintRanges (FilterContent PrintRanges raw)).1 <> [].
Proof.
  intros Hdef.
  assert (Hcut : forall x : list Z,
            x <> [] -> (if 100 <? len x then slice_to x 100 else x) <> []).
  { intros x Hx. destruct (100 <? len x); [|exact Hx].
    destruct x; [congruence|discriminate]. }
  unfold parseArticle. cbn [fst]. apply Hcut.
  set (rs := map (filter_image PrintRanges) (utf8.runes raw)).
  assert (Hrs : Forall (fun r => utf8.scalar r = true
                                 /\ passes_filter PrintRanges r = true) rs).
  { apply Forall_map. eapply Forall_impl; [apply (runes_scalar raw)|].
    intros r Hr. split; [now apply filter_image_scalar|apply filter_image_passes]. }
  rewrite FilterContent_runes. fold rs.
  rewrite ValidString_write_runes
    by (eapply Forall_impl; [exact Hrs|]; now intros r [? _]).
  cbn [negb].
  pose proof (Split_write_runes _ rs Hrs) as Hlines.
  set (lines := strings.Split (write_runes rs) 10) in *. clearbody lines.
  destruct (parse_lines lines) as [-> _].
  unfold described_title.
  destruct (skip_blank_suffix lines) as [pre Epre].
  destruct (skip_blank lines) as [|first rest] eqn:Esk.
  - assert (Hd : Forall (fun r => utf8.scalar r = true) (utf8.runes default_title))
      by apply runes_scalar.
    rewrite <- (write_runes_valid default_title) by reflexivity.
    apply (printable_only_kept _ 20859 Hd).
    + vm_compute. left.
    + apply (proj1 (Forall_forall _ _) Hdef 20859). vm_compute. left.
  - rewrite Epre in Hlines. apply Forall_app in Hlines as [_ Hlines].
    destruct (last (List.filter heading_line (first :: rest))) as [h|] eqn:El.
    + apply last_Some in El as [l' El].
      assert (Hin : In h (List.filter heading_line (first :: rest))).
      { rewrite El. apply in_app_iff. right. now left. }
      apply List.filter_In in Hin as [Hin Hh].
      apply (proj1 (List.Forall_forall _ _) Hlines) in Hin as (rl & -> & Hrl).
      pose proof (line_title_kept rl Hrl (heading_not_blank _ Hh)) as H.
      now rewrite Hh in H.
    + apply Forall_cons in Hlines as [(rl & -> & Hrl) _].
      pose proof (line_title_kept rl Hrl (skip_blank_head _ _ _ Esk)) as H.
      assert (Hh : heading_line (write_runes rl) = false).
      { destruct (heading_line (write_runes rl)) eqn:E; [|reflexivity].
        cbn [List.filter] in El. rewrite E in El.
        destruct (List.filter heading_line rest) as [|x l] using rev_ind;
          [discriminate|].
        rewrite app_comm_cons, last_snoc in El. discriminate. }
      now rewrite Hh in H.
Qed.

End TitleFacts.

Lemma filtered_title_nonempty_witness :
  (parseArticle (fun _ => true) (FilterContent (fun _ => true) [10; 32; 10])).1 <> [].
Proof.
  apply (filtered_title_nonempty (fun _ => true)). vm_compute. repeat constructor.
Defined.

(** ** Cleaning keywords *)

Lemma best_for_snoc_other (seen : list seo.Keyword) (kw x : seo.Keyword) :
  seo.best_for seen kw ->
  (seo.Word x = seo.Word kw -> seo.SearchVolume x <= seo.SearchVolume kw) ->
  seo.best_for (seen ++ [x]) kw.
Proof.
  intros (before & after & -> & Hb & Ha) Hx.
  exists before, (after ++ [x]). split; [now rewrite <- app_assoc|].
  split; [exact Hb|]. intros y Hy. apply elem_of_app in Hy as [Hy|Hy]; [now apply Ha|].
  apply list_elem_of_singleton in Hy as ->. exact Hx.
Qed.

Lemma best_for_snoc_new (seen : list seo.Keyword) (kw : seo.Keyword) :
  (forall x, x ∈ seen -> seo.Word x = seo.Word kw ->
             seo.SearchVolume x < seo.SearchVolume kw) ->
  seo.best_for (seen ++ [kw]) kw.
Proof.
  intros H. exists seen, []. split; [reflexivity|]. split; [exact H|].
  intros x Hx. now apply elem_of_nil in Hx.
Qed.

(** The map of [CleanKeywords] after the keywords [seen]. *)
Lemma clean_step_inv (keywords : list seo.Keyword) :
  forall (m : gmap (list Z) seo.Keyword) (seen : list seo.Keyword),
  (forall w, match m !! w with
             | Some kw => seo.Word kw = w /\ seo.kept_word w = true
                          /\ seo.best_for seen kw
             | None => forall x, x ∈ seen -> seo.Word x = w -> seo.kept_word w = false
             end) ->
  forall w, match fold_left seo.clean_step keywords m !! w with
            | Some kw => seo.Word kw = w /\ seo.kept_word w = true
                         /\ seo.best_for (seen ++ keywords) kw
            | None => forall x, x ∈ seen ++ keywords -> seo.Word x = w ->
                                seo.kept_word w = false
            end.
Proof.
  induction keywords as [|kw keywords IH]; intros m seen Hinv.
  { cbn [fold_left]. now rewrite app_nil_r. }
  cbn [fold_left].
  replace (seen ++ kw :: keywords) with ((seen ++ [kw]) ++ keywords)
    by now rewrite <- app_assoc.
  apply IH. clear IH. intros w. unfold seo.clean_step.
  destruct (seo.kept_word (seo.Word kw)) eqn:Ek.
  - destruct (m !! seo.Word kw) as [existing|] eqn:Em.
    + pose proof (Hinv (seo.Word kw)) as Hw0. rewrite Em in Hw0.
      destruct Hw0 as (Hwe & _ & Hbest).
      destruct (Z.ltb_spec (seo.SearchVolume existing) (seo.SearchVolume kw)) as [Hlt|Hge].
      * destruct (decide (w = seo.Word kw)) as [->|Hne].
        -- rewrite lookup_insert_eq. split; [reflexivity|]. split; [exact Ek|].
           apply best_for_snoc_new. intros x Hx Hxw.
           destruct Hbest as (before & after & -> & Hb & Ha).
           apply elem_of_app in Hx as [Hx|Hx].
           ++ specialize (Hb x Hx). rewrite Hwe in Hb. specialize (Hb Hxw). lia.
           ++ apply elem_of_cons in Hx as [->|Hx]; [lia|].
              specialize (Ha x Hx). rewrite Hwe in Ha. specialize (Ha Hxw). lia.
        -- rewrite lookup_insert_ne by congruence.
           specialize (Hinv w). destruct (m !! w) as [kw'|].
           ++ destruct Hinv as (Hw' & Hk' & Hb'). split; [exact Hw'|]. split; [exact Hk'|].
              apply best_for_snoc_other; [exact Hb'|]. intros E. congruence.
           ++ intros x Hx. apply elem_of_app in Hx as [Hx|Hx]; [now apply Hinv|].
              apply list_elem_of_singleton in Hx as ->. congruence.
      * specialize (Hinv w). destruct (m !! w) as [kw'|] eqn:Em'.
        -- destruct Hinv as (Hw' & Hk' & Hb'). split; [exact Hw'|]. split; [exact Hk'|].
           apply best_for_snoc_other; [exact Hb'|]. intros E.
           assert (kw' = existing) by congruence. subst kw'. lia.
        -- intros x Hx. apply elem_of_app in Hx as [Hx|Hx]; [now apply Hinv|].
           apply list_elem_of_singleton in Hx as ->. congruence.
    + destruct (decide (w = seo.Word kw)) as [->|Hne].
      * rewrite lookup_insert_eq. split; [reflexivity|]. split; [exact Ek|].
        apply best_for_snoc_new. intros x Hx Hxw.
        pose proof (Hinv (seo.Word kw)) as Hw0. rewrite Em in Hw0.
        specialize (Hw0 x Hx Hxw). congruence.
      * rewrite lookup_insert_ne by congruence.
        specialize (Hinv w). destruct (m !! w) as [kw'|].
        -- destruct Hinv as (Hw' & Hk' & Hb'). split; [exact Hw'|]. split; [exact Hk'|].
           apply best_for_snoc_other; [exact Hb'|]. intros E. congruence.
        -- intros x Hx. apply elem_of_app in Hx as [Hx|Hx]; [now apply Hinv|].
           apply list_elem_of_singleton in Hx as ->. congruence.
  - specialize (Hinv w). destruct (m !! w) as [kw'|].
    + destruct Hinv as (Hw' & Hk' & Hb'). split; [exact Hw'|]. split; [exact Hk'|].
      apply best_for_snoc_other; [exact Hb'|]. intros E. congruence.
    + intros x Hx. apply elem_of_app in Hx as [Hx|Hx]; [now apply Hinv|].
      apply list_elem_of_singleton in Hx as ->. intros <-. exact Ek.
Qed.

Lemma unique_map_inv (keywords : list seo.Keyword) (w : list Z) :
  match seo.unique_map keywords !! w with
  | Some kw => seo.Word kw = w /\ seo.kept_word w = true /\ seo.best_for keywords kw
  | None => forall x, x ∈ keywords -> seo.Word x = w -> seo.kept_word w = false
  end.
Proof.
  apply (clean_step_inv keywords ∅ []). intros w'. rewrite lookup_empty.
  intros x Hx. now apply elem_of_nil in Hx.
Qed.

(** Two keywords that are both the best for the same word are the same. *)
Lemma best_for_unique (keywords : list seo.Keyword) (a b : seo.Keyword) :
  seo.best_for keywords a -> seo.best_for keywords b ->
  seo.Word a = seo.Word b -> a = b.
Proof.
  assert (Hlt : forall (b1 a1 b2 a2 : list seo.Keyword) (a b : seo.Keyword),
            b1 ++ a :: a1 = b2 ++ b :: a2 -> (length b1 < length b2)%nat ->
            a ∈ b2 /\ b ∈ a1).
  { clear a b. intros b1 a1 b2 a2 a b E Hlen. split.
    - assert (H : (b2 ++ b :: a2) !! length b1 = Some a).
      { rewrite <- E. apply list_lookup_middle. reflexivity. }
      rewrite lookup_app_l in H by exact Hlen.
      eapply list_elem_of_lookup_2; exact H.
    - assert (H : (b1 ++ a :: a1) !! length b2 = Some b).
      { rewrite E. apply list_lookup_middle. reflexivity. }
      rewrite lookup_app_r in H by lia.
      destruct (length b2 - length b1)%nat as [|k] eqn:Ek; [lia|].
      cbn in H. eapply list_elem_of_lookup_2; exact H. }
  intros (b1 & a1 & E1 & Hb1 & Ha1) (b2 & a2 & E2 & Hb2 & Ha2) Hw.
  rewrite E1 in E2.
  destruct (Nat.lt_trichotomy (length b1) (length b2)) as [Hlen|[Hlen|Hlen]].
  - destruct (Hlt _ _ _ _ _ _ E2 Hlen) as [Hin1 Hin2].
    specialize (Hb2 a Hin1 Hw). specialize (Ha1 b Hin2 (eq_sym Hw)). lia.
  - assert (H : (b2 ++ b :: a2) !! length b1 = Some a).
    { rewrite <- E2. apply list_lookup_middle. reflexivity. }
    rewrite list_lookup_middle in H by exact Hlen. congruence.
  - destruct (Hlt _ _ _ _ _ _ (eq_sym E2) Hlen) as [Hin1 Hin2].
    specialize (Hb1 b Hin1 (eq_sym Hw)). specialize (Ha2 a Hin2 Hw). lia.
Qed.

Lemma CleanKeywords_elem (keywords : list seo.Keyword) (kw : seo.Keyword) :
  kw ∈ seo.CleanKeywords keywords
  <-> exists w, seo.unique_map keywords !! w = Some kw.
Proof.
  unfold seo.CleanKeywords. rewrite list_elem_of_fmap. split.
  - intros ([w kw'] & -> & Hin). exists w. now apply elem_of_map_to_list in Hin.
  - intros (w & Hw). exists (w, kw). split; [reflexivity|].
    now apply elem_of_map_to_list.
Qed.

Lemma best_for_elem (keywords : list seo.Keyword) (kw : seo.Keyword) :
  seo.best_for keywords kw -> kw ∈ keywords.
Proof. intros (b & a & -> & _). apply elem_of_app. right. left. Qed.

(** X15. [CleanKeywords] returns, for every word of 2 to 50 bytes that
    occurs among the keywords, exactly one keyword: the first of those
    with the highest search volume for that word. A keyword is returned
    exactly when its word has such a length and it is that first best
    one; so no two keywords returned share a word, and keywords whose
    word is empty, one byte long or longer than 50 bytes are dropped. *)
Theorem CleanKeywords_keeps_best (keywords : list seo.Keyword) :
  (forall kw, kw ∈ seo.CleanKeywords keywords
              <-> seo.kept_word (seo.Word kw) = true /\ seo.best_for keywords kw)
  /\ NoDup (map seo.Word (seo.CleanKeywords keywords))
  /\ (forall w, seo.kept_word w = true <-> 2 <= len w <= 50).
Proof.
  split; [|split].
  - intros kw. rewrite CleanKeywords_elem. split.
    + intros (w & Hw). pose proof (unique_map_inv keywords w) as H.
      rewrite Hw in H. destruct H as (<- & Hk & Hb). auto.
    + intros [Hk Hb]. exists (seo.Word kw).
      pose proof (unique_map_inv keywords (seo.Word kw)) as H.
      destruct (seo.unique_map keywords !! seo.Word kw) as [kw'|].
      * destruct H as (Hw & _ & Hb'). f_equal. now apply (best_for_unique keywords).
      * specialize (H kw (best_for_elem _ _ Hb) eq_refl). congruence.
  - unfold seo.CleanKeywords.
    assert (E : map seo.Word (map_to_list (seo.unique_map keywords)).*2
                = (map_to_list (seo.unique_map keywords)).*1).
    { rewrite <- list_fmap_compose. apply list_fmap_ext. intros i [w kw] Hi.
      apply list_elem_of_lookup_2, elem_of_map_to_list in Hi. cbn.
      pose proof (unique_map_inv keywords w) as H. rewrite Hi in H. apply H. }
    rewrite E. apply NoDup_fst_map_to_list.
  - intros w. unfold seo.kept_word, len. destruct w as [|b w]; cbn [is_empty negb andb length].
    + split; [discriminate|lia].
    + rewrite andb_true_iff, !Z.leb_le. tauto.
Qed.

Lemma CleanKeywords_keeps_best_witness :
  {| seo.Word := lit "养生"; seo.SearchVolume := 30;
     seo.Source := lit "5118"; seo.Status := lit "active" |}
  ∈ seo.CleanKeywords sample_keywords.
Proof.
  apply (CleanKeywords_keeps_best sample_keywords). split; [reflexivity|].
  exists (take 2 sample_keywords), (drop 3 sample_keywords).
  split; [reflexivity|]. split.
  - intros x Hx. cbn in Hx.
    repeat (apply elem_of_cons in Hx as [->|Hx]; [cbn; intros; try lia; discriminate|]).
    now apply elem_of_nil in Hx.
  - intros x Hx. cbn in Hx.
    repeat (apply elem_of_cons in Hx as [->|Hx]; [cbn; intros; try lia; discriminate|]).
    now apply elem_of_nil in Hx.
Defined.

(** X16. Cleaning keywords that were cleaned changes nothing: the
    keywords [CleanKeywords] returns for its own result are those of
    the result, in some order. *)
Theorem CleanKeywords_idempotent (keywords : list seo.Keyword) :
  seo.CleanKeywords (seo.CleanKeywords keywords) ≡ₚ seo.CleanKeywords keywords.
Proof.
  assert (E : seo.unique_map (seo.CleanKeywords keywords) = seo.unique_map keywords).
  { apply map_eq. intros w.
    pose proof (unique_map_inv (seo.CleanKeywords keywords) w) as H2.
    pose proof (unique_map_inv keywords w) as H1.
    destruct (seo.unique_map (seo.CleanKeywords keywords) !! w) as [kw2|].
    - destruct H2 as (Hw2 & _ & Hb2). apply best_for_elem in Hb2.
      apply CleanKeywords_elem in Hb2 as (w' & Hw').
      pose proof (unique_map_inv keywords w') as H. rewrite Hw' in H.
      destruct H as (Hw'' & _). rewrite <- Hw2, Hw''. now rewrite Hw'.
    - destruct (seo.unique_map keywords !! w) as [kw|] eqn:Em; [|reflexivity].
      destruct H1 as (Hw & Hk & _).
      assert (Hin : kw ∈ seo.CleanKeywords keywords).
      { apply CleanKeywords_elem. now exists w. }
      specialize (H2 kw Hin Hw). congruence. }
  unfold seo.CleanKeywords at 1. now rewrite E.
Qed.

(** ** Fetching keywords page by page *)

Lemma searches_app (calls1 calls2 : list seo.call) :
  seo.searches (calls1 ++ calls2) = seo.searches calls1 ++ seo.searches calls2.
Proof. unfold seo.searches. apply flat_map_app. Qed.

Section ClientFacts.

Variable search : nat -> list Z -> Z -> Z -> result (list seo.Keyword * Z).

Lemma collected_app (calls1 calls2 : list seo.call) :
  forall n,
  seo.collected search n (calls1 ++ calls2)
  = seo.collected search n calls1
    ++ seo.collected search (n + length calls1) calls2.
Proof.
  induction calls1 as [|c calls1 IH]; intros n; cbn [app seo.collected length].
  - now rewrite Nat.add_0_r.
  - rewrite IH, <- app_assoc. do 3 f_equal. lia.
Qed.

(** The size asked for a page. *)
Lemma page_size (limit page : Z) :
  0 <= limit -> 1 <= page <= (limit + 99) / 100 ->
  (if page =? (limit + 99) / 100
   then if limit - (page - 1) * seo.pageSize <? seo.pageSize
        then limit - (page - 1) * seo.pageSize else seo.pageSize
   else seo.pageSize)
  = Z.min 100 (limit - 100 * (page - 1))
  /\ 1 <= Z.min 100 (limit - 100 * (page - 1)) <= 100.
Proof.
  intros Hl Hp. unfold seo.pageSize.
  destruct (Z.eqb_spec page ((limit + 99) / 100)) as [E|E].
  - destruct (Z.ltb_spec (limit - (page - 1) * 100) 100); split; try lia; zdiv.
  - split; zdiv.
Qed.

(** The loop, from any page on. *)
Lemma fetch_pages_run (category : list Z) (limit : Z) :
  0 <= limit ->
  forall (pages : nat) (page : Z) (all : list seo.Keyword) (calls : list seo.call),
  1 <= page -> page + Z.of_nat pages = (limit + 99) / 100 + 1 ->
  let out := seo.fetch_pages search category limit ((limit + 99) / 100)
               pages page all calls in
  exists (n : nat) (new : list seo.call),
    out.2 = calls ++ new
    /\ (n <= pages)%nat /\ (pages <> 0%nat -> n <> 0%nat)
    /\ seo.searches new
       = map (fun i => (page + Z.of_nat i,
                        Z.min 100 (limit - 100 * (page + Z.of_nat i - 1))))
             (seq 0 n)
    /\ Forall (fun c => match c with
                        | seo.Search query _ _ => query = category
                        | seo.Sleep => True
                        end) new
    /\ match out.1 with
       | Ok l => l = all ++ seo.collected search (length calls) new
       | Err e =>
         exists calls0 p s,
           out.2 = calls0 ++ [seo.Search category p s]
           /\ search (length calls0) category p s = Err e
       end.
Proof.
  intros Hlimit. induction pages as [|pages IH]; intros page all calls Hp Hpages out;
    subst out.
  { exists 0%nat, []. cbn. rewrite !app_nil_r. repeat split; auto; lia. }
  cbn [seo.fetch_pages].
  destruct (page_size limit page Hlimit) as [-> Hsize]; [lia|].
  set (size := Z.min 100 (limit - 100 * (page - 1))) in *.
  destruct (search (length calls) category page size) as [[keywords total]|err] eqn:Ea.
  - destruct ((limit <=? Z.of_nat (length (all ++ keywords)))
              || (total <=? Z.of_nat (length (all ++ keywords)))).
    + exists 1%nat, [seo.Search category page size]. cbn [fst snd].
      split; [reflexivity|]. split; [lia|]. split; [lia|]. split; [|split].
      * cbn. subst size. do 3 f_equal; lia.
      * repeat constructor.
      * cbn [seo.collected]. now rewrite Ea, app_nil_r.
    + destruct (IH (page + 1) (all ++ keywords)
                  ((calls ++ [seo.Search category page size]) ++ [seo.Sleep]))
        as (n & new & Hout & Hn & Hn0 & Hs & Hq & Hres); [lia|lia|].
      exists (S n), ([seo.Search category page size; seo.Sleep] ++ new).
      split; [rewrite Hout; now rewrite <- !app_assoc|].
      split; [lia|]. split; [lia|]. split; [|split].
      * rewrite searches_app, Hs. cbn [seo.searches flat_map app seq map].
        f_equal; [subst size; do 2 f_equal; lia|].
        rewrite <- seq_shift, map_map. apply map_ext. intros i.
        f_equal; [lia|f_equal; lia].
      * repeat constructor. exact Hq.
      * destruct (seo.fetch_pages _ _ _ _ _ _ _ _) as [[l|e] calls'] eqn:Ef;
          cbn [fst snd] in *.
        -- rewrite Hres, <- app_assoc. f_equal.
           cbn [app seo.collected]. rewrite Ea. f_equal. f_equal.
           rewrite !length_app. cbn [length]. lia.
        -- exact Hres.
  - exists 1%nat, [seo.Search category page size]. cbn [fst snd].
    split; [reflexivity|]. split; [lia|]. split; [lia|]. split; [|split].
    + cbn. subst size. do 3 f_equal; lia.
    + repeat constructor.
    + exists calls, page, size. auto.
Qed.

(** X17. [GetKeywordsByCategory] panics on a negative limit. On a limit
    that is not negative (and below [2 ^ 46], where the rounding of the
    page count is exact) it searches the category page by page, from
    page 1 on, for at most as many pages as hundreds are needed to
    reach the limit; the size it asks for a page is 100, or what is
    left of the limit when that is less, so every size is between 1 and
    100; and on a limit above 0 it searches at least once. *)
Theorem GetKeywordsByCategory_plan (category : list Z) (limit : Z) :
  (limit < 0 -> seo.GetKeywordsByCategory search category limit = None)
  /\ (0 <= limit < 2 ^ 46 ->
      exists r calls (n : nat),
        seo.GetKeywordsByCategory search category limit = Some (r, calls)
        /\ Z.of_nat n <= (limit + 99) / 100
        /\ (0 < limit -> n <> 0%nat)
        /\ seo.searches calls
           = map (fun p => (p, Z.min 100 (limit - 100 * (p - 1))))
                 (map Z.of_nat (seq 1 n))
        /\ Forall (fun ps : Z * Z => 1 <= ps.2 <= 100) (seo.searches calls)
        /\ Forall (fun c => match c with
                            | seo.Search query _ _ => query = category
                            | seo.Sleep => True
                            end) calls).
Proof.
  unfold seo.GetKeywordsByCategory. split.
  - intros H. destruct (Z.ltb_spec limit 0); [reflexivity|lia].
  - intros [H _]. destruct (Z.ltb_spec limit 0); [lia|].
    destruct (fetch_pages_run category limit H (Z.to_nat ((limit + 99) / 100)) 1 [] [])
      as (n & new & Hout & Hn & Hn0 & Hs & Hq & _); [lia|zdiv|].
    destruct (seo.fetch_pages _ _ _ _ _ _ _ _) as [r calls]. cbn [fst snd] in *.
    rewrite app_nil_l in Hout. subst new.
    eexists _, calls, n. split; [reflexivity|].
    split; [zdiv|]. split; [intros Hpos; apply Hn0; zdiv|].
    assert (Hs' : seo.searches calls
                  = map (fun p => (p, Z.min 100 (limit - 100 * (p - 1))))
                        (map Z.of_nat (seq 1 n))).
    { rewrite Hs, <- seq_shift, !map_map. apply map_ext. intros i.
      f_equal; [lia|f_equal; lia]. }
    split; [exact Hs'|]. split; [|exact Hq].
    rewrite Hs'. apply Forall_map, Forall_map, Forall_forall. intros i Hi.
    apply elem_of_seq in Hi. cbn [snd].
    assert (1 <= Z.of_nat i <= (limit + 99) / 100) by zdiv.
    now apply page_size.
Qed.

Lemma take_take_le {A} (l : list A) (n : nat) :
  (if Z.of_nat n <? Z.of_nat (length l) then take n l else l) = take n l.
Proof.
  destruct (Z.ltb_spec (Z.of_nat n) (Z.of_nat (length l))); [reflexivity|].
  symmetry. apply take_ge. lia.
Qed.

(** X18. What [GetKeywordsByCategory] returns on a limit that is not
    negative (and below [2 ^ 46]): when every search succeeds, the keywords the searches
    returned, in order, cut to the limit, so at most as many as the
    limit; when a search fails, the error of that search as it is,
    after which nothing is called, and none of the keywords of the
    pages before. *)
Theorem GetKeywordsByCategory_result (category : list Z) (limit : Z)
    (r : result (list seo.Keyword)) (calls : list seo.call) :
  0 <= limit < 2 ^ 46 ->
  seo.GetKeywordsByCategory search category limit = Some (r, calls) ->
  match r with
  | Ok l =>
    l = take (Z.to_nat limit) (seo.collected search 0 calls)
    /\ Z.of_nat (length l) <= limit
  | Err e =>
    exists calls0 p s,
      calls = calls0 ++ [seo.Search category p s]
      /\ search (length calls0) category p s = Err e
  end.
Proof.
  intros [H _]. unfold seo.GetKeywordsByCategory.
  destruct (Z.ltb_spec limit 0); [lia|].
  destruct (fetch_pages_run category limit H (Z.to_nat ((limit + 99) / 100)) 1 [] [])
    as (n & new & Hout & _ & _ & _ & _ & Hres); [lia|zdiv|].
  destruct (seo.fetch_pages _ _ _ _ _ _ _ _) as [r' calls']. cbn [fst snd] in *.
  rewrite app_nil_l in Hout. subst new. intros [= <- <-].
  destruct r' as [l|e]; [|exact Hres].
  rewrite app_nil_l in Hres. cbn [length] in Hres. subst l.
  set (got := seo.collected search 0 calls').
  assert (E : (if limit <? Z.of_nat (length got)
               then take (Z.to_nat limit) got else got)
              = take (Z.to_nat limit) got).
  { rewrite <- (Z2Nat.id limit) at 1 by lia. apply take_take_le. }
  rewrite E. split; [reflexivity|]. rewrite length_take. lia.
Qed.

End ClientFacts.

Lemma GetKeywordsByCategory_plan_witness :
  seo.GetKeywordsByCategory paged (lit "养生") (-1) = None
  /\ exists r calls (n : nat),
       seo.GetKeywordsByCategory paged (lit "养生") 150 = Some (r, calls)
       /\ Z.of_nat n <= 2
       /\ n <> 0%nat
       /\ Forall (fun ps : Z * Z => 1 <= ps.2 <= 100) (seo.searches calls).
Proof.
  destruct (GetKeywordsByCategory_plan paged (lit "养生") (-1)) as [H1 _].
  destruct (GetKeywordsByCategory_plan paged (lit "养生") 150) as [_ H2].
  split; [apply H1; lia|].
  destruct H2 as (r & calls & n & E & Hn & Hn0 & _ & Hs & _);
    [split; [lia|reflexivity]|].
  exists r, calls, n. split; [exact E|]. split; [exact Hn|].
  split; [apply Hn0; lia|exact Hs].
Defined.

Lemma GetKeywordsByCategory_result_witness :
  exists calls0 p s,
    [seo.Search (lit "养生") 1 100] = calls0 ++ [seo.Search (lit "养生") p s]
    /\ unreachable (length calls0) (lit "养生") p s = Err refused.
Proof.
  apply (GetKeywordsByCategory_result unreachable (lit "养生") 150 (Err refused)
           [seo.Search (lit "养生") 1 100]); [split; [lia|reflexivity]|reflexivity].
Defined.

(** ** Meta descriptions *)

Lemma replace_absent (s old new : list Z) :
  strings.Contains s old = false -> strings.ReplaceAll s old new = s.
Proof.
  unfold strings.ReplaceAll. induction s as [|b s IH]; [reflexivity|].
  cbn [strings.Contains strings.replace_from]. intros H.
  apply orb_false_iff in H as [-> H]. now rewrite IH.
Qed.

Lemma halve_spaces_length (s : list Z) :
  (length (strings.replace_from 0 s (lit "  ") (lit " ")) <= length s)%nat
  /\ (length (strings.replace_from 1 s (lit "  ") (lit " ")) <= length s - 1)%nat.
Proof.
  change (lit " ") with [32]. change (lit "  ") with [32; 32].
  induction s as [|b s [IH0 IH1]]; [cbn; lia|].
  cbn [strings.replace_from length Nat.sub]. split; [|lia].
  destruct (strings.HasPrefix _ _); cbn [app length]; lia.
Qed.

(** X19. [GenerateMetaDescription] panics on a negative [maxLength],
    whatever the content. On a [maxLength] that is not negative it
    returns a description without newline of at most [maxLength + 3]
    bytes, which is never more than 3 bytes longer than the content;
    and content without newline and without two spaces in a row that
    is at most [maxLength] bytes long is returned as it is. *)
Theorem GenerateMetaDescription_bounds (content : list Z) (maxLength : Z) :
  (maxLength < 0 -> GenerateMetaDescription content maxLength = None)
  /\ (0 <= maxLength ->
      exists d, GenerateMetaDescription content maxLength = Some d
                /\ len d <= maxLength + 3
                /\ len d <= len content + 3
                /\ (10 ∉ d)
                /\ ((10 ∉ content) -> strings.Contains content (lit "  ") = false ->
                    len content <= maxLength -> d = content)).
Proof.
  unfold GenerateMetaDescription, newline.
  change (lit " ") with [32]. change (lit "  ") with [32; 32].
  rewrite (ReplaceAll_byte content 10 32).
  set (f := fun b : Z => if b =? 10 then 32 else b).
  set (flat := strings.ReplaceAll (map f content) [32; 32] [32]).
  assert (Hlen : len flat <= len content).
  { unfold flat, strings.ReplaceAll, len.
    pose proof (halve_spaces_length (map f content)) as [H _].
    change (lit " ") with [32] in H. change (lit "  ") with [32; 32] in H.
    rewrite length_map in H. lia. }
  assert (Hno : Forall (fun b => b <> 10) flat).
  { unfold flat, strings.ReplaceAll. apply replace_from_Forall.
    - apply Forall_map, Forall_forall. intros b _. unfold f.
      destruct (Z.eqb_spec b 10); congruence.
    - repeat constructor. discriminate. }
  assert (Hnl : forall l : list Z, Forall (fun b => b <> 10) l -> 10 ∉ l).
  { intros l Hl Hin. now apply (proj1 (Forall_forall _ _) Hl) in Hin. }
  split.
  - intros Hneg. destruct (Z.ltb_spec maxLength (len flat)) as [_|H];
      [|unfold len in H; lia].
    destruct (Z.ltb_spec maxLength 0); [reflexivity|lia].
  - intros Hpos. destruct (Z.ltb_spec maxLength (len flat)) as [Hlong|Hshort].
    + destruct (Z.ltb_spec maxLength 0); [lia|].
      eexists. split; [reflexivity|].
      assert (Hcut : len (slice_to flat maxLength ++ lit "...") = maxLength + 3).
      { rewrite len_app, len_slice_to by lia. reflexivity. }
      rewrite Hcut. split; [lia|]. split; [lia|]. split.
      * apply Hnl, Forall_app. split.
        -- unfold slice_to. rewrite <- (take_drop (Z.to_nat maxLength) flat) in Hno.
           now apply Forall_app in Hno as [? _].
        -- repeat constructor; discriminate.
      * intros Hc Hdd Hle. exfalso.
        assert (E : flat = content); [|rewrite E in Hlong; lia].
        unfold flat. rewrite replace_absent.
        -- unfold f. rewrite <- ReplaceAll_byte. now apply ReplaceAll_byte_absent.
        -- unfold f. rewrite <- ReplaceAll_byte, ReplaceAll_byte_absent; assumption.
    + eexists. split; [reflexivity|]. split; [lia|]. split; [lia|].
      split; [now apply Hnl|].
      intros Hc Hdd _. unfold flat. rewrite replace_absent.
      * unfold f. rewrite <- ReplaceAll_byte. now apply ReplaceAll_byte_absent.
      * unfold f. rewrite <- ReplaceAll_byte, ReplaceAll_byte_absent; assumption.
Qed.

Lemma GenerateMetaDescription_bounds_witness :
  GenerateMetaDescription (lit "a b") (-1) = None
  /\ exists d, GenerateMetaDescription (lit "a b") 160 = Some d /\ d = lit "a b".
Proof.
  destruct (GenerateMetaDescription_bounds (lit "a b") (-1)) as [H1 _].
  destruct (GenerateMetaDescription_bounds (lit "a b") 160) as [_ H2].
  split; [apply H1; lia|].
  destruct H2 as (d & E & _ & _ & _ & H); [lia|].
  exists d. split; [exact E|]. apply H.
  - vm_compute. intros Hin.
    repeat (apply elem_of_cons in Hin as [Hin|Hin]; [discriminate|]).
    now apply elem_of_nil in Hin.
  - reflexivity.
  - vm_compute. discriminate.
Defined.

(** ** Asking for the status of a task *)

(** X20. [GetTaskStatus] never hands a task to a user who does not own
    it: whatever fails, an answer that carries a task has code 200 and
    the task is owned by the user who asked, and the store is left as
    it was. When no command fails and a user asks for an id that is not
    empty, the answer is 200 with the task when the task can be read
    and is the user's, 403 when it can be read and is another user's,
    and 500 with the message "获取任务状态失败: 任务不存在" when it
    cannot be read because the id is not in the set or its key is
    absent; no answer is 404. *)
Theorem GetTaskStatus_answers (env : Env) (taskID : list Z) (user : option Z)
    (w : World) :
  let out := api.GetTaskStatus env taskID user w in
  redis out.2 = redis w
  /\ (forall task, api.Data out.1 = Some task ->
        api.Code out.1 = 200 /\ user = Some (UserID task))
  /\ api.Code out.1 <> 404
  /\ (forall userID,
        (forall i, (length (log w) <= i)%nat -> redis_fault env i = None) ->
        taskID <> [] -> user = Some userID ->
        match readable (redis w) taskID with
        | Some task =>
          if UserID task =? userID
          then out.1 = api.Success task
          else out.1 = api.Error 403 (lit "无权访问此任务")
        | None =>
          (keys (redis w) !! task_key taskID = None
           \/ taskID ∉ members (redis w) ->
           out.1 = api.Error 500 (lit "获取任务状态失败: " ++ lit "任务不存在"))
          /\ api.Code out.1 = 500
        end).
Proof.
  intros out. subst out. unfold api.GetTaskStatus.
  destruct taskID as [|b taskID]; cbn [is_empty].
  { cbn. repeat split; try discriminate. intros ? ? ?. congruence. }
  destruct user as [userID|].
  2:{ cbn. repeat split; try discriminate. }
  unfold bind.
  destruct (GetTask_reads env (b :: taskID) w) as (Hr & _).
  pose proof (GetTask_readable env (b :: taskID) w) as Hread.
  assert (Habs : (forall i, (length (log w) <= i)%nat -> redis_fault env i = None) ->
            keys (redis w) !! task_key (b :: taskID) = None
            \/ b :: taskID ∉ members (redis w) ->
            (GetTask env (b :: taskID) w).1 = Err task_missing).
  { intros Hf [Hk|Hm].
    - destruct (decide (b :: taskID ∈ members (redis w))) as [Hin|Hnin].
      + rewrite GetTask_present by (auto with lia). now rewrite Hk.
      + apply GetTask_absent; auto with lia.
    - apply GetTask_absent; auto with lia. }
  destruct (GetTask env (b :: taskID) w) as [[task|err] w1]; cbn [fst snd] in *.
  - destruct (Z.eqb_spec (UserID task) userID) as [Hu|Hu]; cbn [negb ret fst snd].
    + split; [exact Hr|]. split; [intros t [= <-]; split; [reflexivity|congruence]|].
      split; [discriminate|].
      intros u Hf _ [= <-]. rewrite (Hread Hf).
      destruct (Z.eqb_spec (UserID task) userID); [reflexivity|congruence].
    + split; [exact Hr|]. split; [discriminate|]. split; [discriminate|].
      intros u Hf _ [= <-]. rewrite (Hread Hf).
      destruct (Z.eqb_spec (UserID task) userID); [congruence|reflexivity].
  - cbn [ret fst snd]. split; [exact Hr|]. split; [discriminate|].
    split; [discriminate|].
    intros u Hf _ _. rewrite (Hread Hf). split; [|reflexivity].
    intros H. specialize (Habs Hf H). injection Habs as ->. reflexivity.
Qed.

Lemma GetTaskStatus_answers_witness :
  (api.GetTaskStatus quiet (lit "b") (Some 7) world_listed).1
  = api.Error 403 (lit "无权访问此任务")
  /\ (api.GetTaskStatus quiet (lit "d") (Some 7) world_listed).1
     = api.Error 500 (lit "获取任务状态失败: " ++ lit "任务不存在").
Proof.
  destruct (GetTaskStatus_answers quiet (lit "b") (Some 7) world_listed)
    as (_ & _ & _ & Hb).
  destruct (GetTaskStatus_answers quiet (lit "d") (Some 7) world_listed)
    as (_ & _ & _ & Hd).
  split.
  - apply (Hb 7); [intros i _; reflexivity|discriminate|reflexivity].
  - apply (Hd 7); [intros i _; reflexivity|discriminate|reflexivity|].
    left. reflexivity.
Defined.

(** ** More about the worker *)

Lemma keys_after_faulty (env : Env) (evs : list event) :
  forall n ks,
  (forall i, (n <= i)%nat -> redis_fault env i <> None) ->
  keys_after env n evs ks = ks.
Proof.
  induction evs as [|e evs IH]; intros n ks Hf; [reflexivity|].
  cbn [keys_after]. rewrite IH by (intros i Hi; apply Hf; lia).
  destruct e; try reflexivity. cbn [write_of].
  specialize (Hf n (le_n n)). now destruct (redis_fault env n).
Qed.

(** X21. The error of the write of a status is dropped, so a final
    status can be lost: when the write of the status running goes
    through and every later command of the store fails, the key of the
    task still holds the task as running after the worker is done with
    the task, whether the generation succeeded or failed. *)
Theorem lost_final_status (PrintRanges : Z -> bool) (LowerCase : Z -> Z)
    (config : Config) (env : Env) (task : GenerationTask) (w : World) :
  let n := length (log w) in
  redis_fault env (S n) = None ->
  (forall i, (S (S n) <= i)%nat -> redis_fault env i <> None) ->
  keys (redis (process_task PrintRanges LowerCase config env task w).2)
    !! task_key (ID task)
  = Some (Marshalled (set_status task TaskStatusRunning (clock env n))).
Proof.
  intros n Hrun Hlost.
  destruct (process_task_run PrintRanges LowerCase config env task w)
    as (_ & _ & tail & Hl & _).
  destruct (tracks_process_task PrintRanges LowerCase config env task w)
    as (evs & Hl' & Hks).
  rewrite Hl in Hl'. apply app_inv_head in Hl'. subst evs.
  rewrite Hks. fold n. cbn [app keys_after write_of]. rewrite Hrun.
  rewrite keys_after_faulty by (intros i Hi; apply Hlost; lia).
  apply lookup_insert_eq.
Qed.

Lemma lost_final_status_witness :
  keys (redis (process_task (fun _ => true) (fun r => r) sample_config store_lost
                 (sample_task (lit "task_1_5") 1 7) world_absent).2)
    !! task_key (lit "task_1_5")
  = Some (Marshalled (set_status (sample_task (lit "task_1_5") 1 7)
                        TaskStatusRunning (clock store_lost 0))).
Proof.
  apply (lost_final_status (fun _ => true) (fun r => r) sample_config store_lost
           (sample_task (lit "task_1_5") 1 7) world_absent).
  - reflexivity.
  - intros i Hi. cbn [redis_fault store_lost].
    destruct (Nat.leb_spec i 1); [cbn in Hi; lia|discriminate].
Defined.

(** X22. While the store is down the worker loop polls: when the
    context is not cancelled and every pop fails, each round is a
    cancellation check and a failed pop, with no pause between rounds,
    and the loop neither returns nor waits nor changes the store. *)
Theorem worker_polls_when_store_down (PrintRanges : Z -> bool) (LowerCase : Z -> Z)
    (config : Config) (env : Env) (fuel : nat) (w : World) :
  (forall i, (length (log w) <= i)%nat -> ctx_done env i = false) ->
  (forall i, (length (log w) <= i)%nat -> redis_fault env i <> None) ->
  ProcessTasks PrintRanges LowerCase config env fuel w
  = (Running, {| redis := redis w;
                 log := log w ++ concat (replicate fuel [EvDone; EvBLPop]) |}).
Proof.
  revert w. induction fuel as [|fuel IH]; intros w Hdone Hfault.
  { cbn. rewrite app_nil_r. now destruct w. }
  destruct (redis_fault env (S (length (log w)))) as [err|] eqn:E.
  2:{ exfalso. apply (Hfault (S (length (log w)))); [lia|exact E]. }
  rewrite (ProcessTasks_retry _ _ _ _ _ _ err) by (auto with lia).
  rewrite IH.
  - cbn [redis log replicate concat]. now rewrite <- app_assoc.
  - intros i Hi. apply Hdone. cbn [log] in Hi. rewrite length_app in Hi. lia.
  - intros i Hi. apply Hfault. cbn [log] in Hi. rewrite length_app in Hi. lia.
Qed.

Lemma worker_polls_when_store_down_witness :
  ProcessTasks (fun _ => true) (fun r => r) sample_config store_down 2 world_two_tasks
  = (Running, {| redis := redis world_two_tasks;
                 log := [EvDone; EvBLPop; EvDone; EvBLPop] |}).
Proof.
  apply (worker_polls_when_store_down (fun _ => true) (fun r => r) sample_config
           store_down 2 world_two_tasks).
  - intros i _. reflexivity.
  - intros i _. discriminate.
Defined.

(** *** A batch, end to end *)

Lemma enqueued_all (env : Env) (count : nat) :
  forall n, (forall i, (n <= i)%nat -> redis_fault env i = None) ->
  enqueued env n count = count.
Proof.
  induction count as [|count IH]; intros n Hf; [reflexivity|].
  cbn [enqueued]. rewrite Hf by lia. f_equal. apply IH.
  intros i Hi. apply Hf. lia.
Qed.

Lemma batch_tasks_length (env : Env) (keywordIDs categoryIDs : list Z) (userID : Z) :
  forall n, length (batch_tasks env n keywordIDs categoryIDs userID) = length keywordIDs.
Proof.
  induction keywordIDs as [|k ks IH]; intros n; [reflexivity|].
  cbn [batch_tasks length]. now rewrite IH.
Qed.

Lemma queue_tasks_Marshalled (tasks : list GenerationTask) :
  queue_tasks (map Marshalled tasks) = tasks.
Proof.
  unfold queue_tasks. induction tasks as [|t tasks IH]; [reflexivity|].
  cbn [map flat_map app]. now rewrite IH.
Qed.

Lemma batch_from_log (env : Env) (categoryIDs : list Z) (userID : Z)
    (keywordIDs : list Z) :
  forall (acc : list (list Z)) (w : World),
  exists evs, log (batch_from env keywordIDs categoryIDs userID acc w).2 = log w ++ evs.
Proof.
  induction keywordIDs as [|k ks IH]; intros acc w.
  { exists []. cbn. now rewrite app_nil_r. }
  cbn [batch_from]. unfold bind at 1. unfold Now at 1. unfold bind at 1.
  unfold emit at 1, ret at 1. cbn [fst snd].
  set (w0 := {| redis := redis w; log := log w ++ [EvNow] |}).
  set (task := {| ID := _; KeywordID := k |}).
  unfold bind at 1. rewrite (AddTask_run env task w0).
  destruct (redis_fault env _).
  - cbn [fst snd ret]. subst w0. cbn [log]. rewrite <- app_assoc. now eexists.
  - cbn [fst snd].
    match goal with |- context [batch_from env ks categoryIDs userID ?a ?w1] =>
      destruct (IH a w1) as [evs Hl]; rewrite Hl end.
    subst w0. cbn [log]. rewrite <- !app_assoc. now eexists.
Qed.

(** X23. A batch is settled end to end: when no command fails, the
    context is not cancelled and the queue was empty, [BatchAddTasks]
    returns one id for each keyword, and after a run of the worker with
    more rounds than keywords [GetTask] returns, for every one of these
    ids, a task with that id that is completed or failed with a
    message. *)
Theorem batch_settles (PrintRanges : Z -> bool) (LowerCase : Z -> Z)
    (config : Config) (env : Env) (keywordIDs categoryIDs : list Z) (userID : Z)
    (fuel : nat) (w : World) :
  queue (redis w) = [] ->
  (forall i, (length (log w) <= i)%nat -> ctx_done env i = false) ->
  (forall i, (length (log w) <= i)%nat -> redis_fault env i = None) ->
  (length keywordIDs < fuel)%nat ->
  let added := BatchAddTasks env keywordIDs categoryIDs userID w in
  let w2 := (ProcessTasks PrintRanges LowerCase config env fuel added.2).2 in
  exists taskIDs,
    added.1 = Ok taskIDs
    /\ length taskIDs = length keywordIDs
    /\ forall taskID, In taskID taskIDs ->
         exists final, (GetTask env taskID w2).1 = Ok final
                       /\ ID final = taskID /\ terminal final.
Proof.
  intros Hq Hdone Hfault Hfuel added w2. subst added w2. unfold BatchAddTasks.
  destruct (batch_from_run env categoryIDs userID keywordIDs [] w)
    as (Hq1 & Hm1 & _ & Hok & _).
  destruct (batch_from_log env categoryIDs userID keywordIDs [] w) as [evs1 Hl1].
  rewrite enqueued_all in Hq1, Hm1, Hok by exact Hfault.
  set (tasks := batch_tasks env (length (log w)) keywordIDs categoryIDs userID) in *.
  assert (Hlen : length tasks = length keywordIDs) by apply batch_tasks_length.
  rewrite take_ge in Hq1, Hm1 by lia. rewrite Hq in Hq1. cbn [app] in Hq1.
  specialize (Hok eq_refl). cbn [app] in Hok.
  set (w1 := (batch_from env keywordIDs categoryIDs userID [] w).2) in *.
  destruct (ProcessTasks_drain PrintRanges LowerCase config env (map Marshalled tasks)
              fuel w1 Hq1)
    as (_ & _ & Hm2 & Hfin & _ & evs2 & Hl2 & _).
  { intros i Hi. apply Hdone. rewrite Hl1, length_app in Hi. lia. }
  { intros i Hi. apply Hfault. rewrite Hl1, length_app in Hi. lia. }
  { rewrite length_map. lia. }
  set (w2 := (ProcessTasks PrintRanges LowerCase config env fuel w1).2) in *.
  exists (map ID tasks). split; [exact Hok|]. split; [now rewrite length_map|].
  intros taskID Hin. apply in_map_iff in Hin as (t & <- & Hin).
  rewrite queue_tasks_Marshalled in Hfin.
  destruct (Hfin t Hin) as (final & Hk & Hid & Hterm).
  exists final. split; [|auto].
  rewrite GetTask_present.
  - now rewrite Hk.
  - apply Hfault. rewrite Hl2, Hl1, !length_app. lia.
  - apply Hfault. rewrite Hl2, Hl1, !length_app. lia.
  - rewrite Hm2, Hm1. apply elem_of_union. left.
    apply elem_of_list_to_set, list_elem_of_In, in_map. exact Hin.
Qed.

Lemma batch_settles_witness :
  exists taskIDs,
    (BatchAddTasks quiet [1; 2] [] 7 world_absent).1 = Ok taskIDs
    /\ length taskIDs = 2%nat.
Proof.
  destruct (batch_settles (fun _ => true) (fun r => r) sample_config quiet [1; 2] [] 7
              3 world_absent) as (taskIDs & H1 & H2 & _).
  - reflexivity.
  - intros i _. reflexivity.
  - intros i _. reflexivity.
  - cbn. lia.
  - exists taskIDs. split; [exact H1|exact H2].
Defined.

(** ** The filter and the lines *)

(** X24. [FilterContent] keeps the lines of a text apart: its output
    has as many runes as its input, and a newline exactly where the
    input has one. *)
Theorem FilterContent_keeps_lines (PrintRanges : Z -> bool) (content : list Z) :
  let out := FilterContent PrintRanges content in
  length (utf8.runes out) = length (utf8.runes content)
  /\ forall i, utf8.runes out !! i = Some 10 <-> utf8.runes content !! i = Some 10.
Proof.
  intros out. subst out.
  assert (Hsc : Forall (fun r => utf8.scalar r = true)
                       (map (filter_image PrintRanges) (utf8.runes content))).
  { apply Forall_map. eapply Forall_impl; [apply runes_scalar|].
    intros r. apply filter_image_scalar. }
  rewrite FilterContent_runes, runes_write_runes by exact Hsc.
  split; [apply length_map|].
  intros i. change (map (filter_image PrintRanges) (utf8.runes content))
    with (filter_image PrintRanges <$> utf8.runes content).
  rewrite list_lookup_fmap.
  destruct (utf8.runes content !! i) as [r|]; cbn; [|tauto].
  unfold filter_image, passes_filter. split.
  - intros [= H]. f_equal.
    destruct (unicode.IsPrint PrintRanges r || (r =? 10) || (r =? 9)); [exact H|discriminate].
  - intros [= ->]. now rewrite orb_true_r.
Qed.

Lemma FilterContent_keeps_lines_witness :
  utf8.runes (FilterContent (fun _ => false) (lit "a" ++ [10] ++ lit "b")) !! 1%nat
  = Some 10.
Proof.
  apply (FilterContent_keeps_lines (fun _ => false) (lit "a" ++ [10] ++ lit "b")).
  reflexivity.
Defined.

(** ** Where fetched keywords come from *)

Lemma collected_elem (search : nat -> list Z -> Z -> Z -> result (list seo.Keyword * Z))
    (kw : seo.Keyword) (calls : list seo.call) :
  forall n,
  kw ∈ seo.collected search n calls ->
  exists (i : nat) query page size kws total,
    calls !! i = Some (seo.Search query page size)
    /\ search (n + i)%nat query page size = Ok (kws, total)
    /\ kw ∈ kws.
Proof.
  induction calls as [|c calls IH]; intros n; cbn [seo.collected].
  - intros H. inversion H.
  - rewrite elem_of_app. intros [H|H].
    + destruct c as [query page size|]; [|inversion H].
      destruct (search n query page size) as [[kws total]|e] eqn:E; [|inversion H].
      exists 0%nat, query, page, size, kws, total.
      rewrite Nat.add_0_r. auto.
    + destruct (IH _ H) as (i & query & page & size & kws & total & Hi & Hs & Hk).
      exists (S i), query, page, size, kws, total.
      replace (n + S i)%nat with (S n + i)%nat by lia. auto.
Qed.

(** X25. Every keyword [GetKeywordsByCategory] returns comes from an
    answer to one of its searches of the category whose body parsed and
    carried code 200, whatever the HTTP status of that answer: its word
    and search volume are those of an item of that body, its source is
    5118 and its status active. *)
Theorem fetched_keywords_provenance
    (http : nat -> list Z -> Z -> Z -> call_outcome)
    (json : list Z -> result seo.KeywordSearchResponse)
    (category : list Z) (limit : Z) (l : list seo.Keyword) (calls : list seo.call) :
  0 <= limit < 2 ^ 46 ->
  seo.GetKeywordsByCategory (seo.SearchKeywords http json) category limit
  = Some (Ok l, calls) ->
  forall kw, kw ∈ l ->
    seo.Source kw = lit "5118" /\ seo.Status kw = lit "active"
    /\ exists (i : nat) page size status body response,
         calls !! i = Some (seo.Search category page size)
         /\ http i category page size = Responded status body
         /\ json body = Ok response
         /\ seo.Code response = 200
         /\ (seo.Word kw, seo.SearchVolume kw) ∈ seo.Items response.
Proof.
  intros [H _]. unfold seo.GetKeywordsByCategory.
  destruct (Z.ltb_spec limit 0); [lia|].
  destruct (fetch_pages_run (seo.SearchKeywords http json) category limit H
              (Z.to_nat ((limit + 99) / 100)) 1 [] [])
    as (n & new & Hout & _ & _ & _ & Hq & Hres); [lia|zdiv|].
  destruct (seo.fetch_pages _ _ _ _ _ _ _ _) as [r' calls']. cbn [fst snd] in *.
  rewrite app_nil_l in Hout. subst new. intros [= Hl <-] kw Hkw.
  destruct r' as [l'|e]; [|discriminate Hl]. injection Hl as <-.
  rewrite app_nil_l in Hres. cbn [length] in Hres. subst l'.
  assert (Hin : kw ∈ seo.collected (seo.SearchKeywords http json) 0 calls').
  { destruct (limit <? _); [|exact Hkw]. eapply subseteq_take, Hkw. }
  apply collected_elem in Hin
    as (i & query & page & size & kws & total & Hi & Hs & Hk).
  assert (query = category) as ->.
  { rewrite Forall_lookup in Hq. exact (Hq _ _ Hi). }
  cbn [Nat.add] in Hs. unfold seo.SearchKeywords, seo.search_result in Hs.
  destruct (http i category page size) as [| | | |status body] eqn:Eh;
    try discriminate Hs.
  destruct (json body) as [response|] eqn:Ej; [|discriminate Hs].
  destruct (Z.eqb_spec (seo.Code response) 200) as [Ec|]; [|discriminate Hs].
  cbn [negb] in Hs. injection Hs as <- <-.
  apply list_elem_of_fmap in Hk as ([word volume] & -> & Hitem).
  cbn [seo.Source seo.Status seo.Word seo.SearchVolume fst snd].
  split; [reflexivity|]. split; [reflexivity|].
  exists i, page, size, status, body, response. auto.
Qed.

Lemma fetched_keywords_provenance_witness :
  exists (i : nat) page size status body response,
    [seo.Search (lit "养生") 1 100] !! i = Some (seo.Search (lit "养生") page size)
    /\ answering i (lit "养生") page size = Responded status body
    /\ parsed body = Ok response
    /\ seo.Code response = 200
    /\ (lit "茶", 7) ∈ seo.Items response.
Proof.
  refine (proj2 (proj2 (fetched_keywords_provenance answering parsed (lit "养生") 150
           [ {| seo.Word := lit "养生"; seo.SearchVolume := 30;
                seo.Source := lit "5118"; seo.Status := lit "active" |};
             {| seo.Word := lit "茶"; seo.SearchVolume := 7;
                seo.Source := lit "5118"; seo.Status := lit "active" |} ]
           [seo.Search (lit "养生") 1 100] _ _
           {| seo.Word := lit "茶"; seo.SearchVolume := 7;
              seo.Source := lit "5118"; seo.Status := lit "active" |} _))).
  - split; [lia|reflexivity].
  - reflexivity.
  - apply list_elem_of_In. right. left. reflexivity.
Defined.

(** ** Status writes, entry by entry *)

Lemma ends_task_final (running : GenerationTask) (tail : list event) :
  ends_task running tail ->
  exists st, (st = TaskStatusCompleted \/ st = TaskStatusFailed)
             /\ status_writes tail = [(ID running, st)].
Proof.
  intros H. destruct (ends_task_writes running tail H) as [E|E]; eauto.
Qed.

Lemma ProcessTasks_entries (PrintRanges : Z -> bool) (LowerCase : Z -> Z)
    (config : Config) (env : Env) (fuel : nat) :
  forall w : World,
  let out := ProcessTasks PrintRanges LowerCase config env fuel w in
  exists evs popped finals,
    log out.2 = log w ++ evs
    /\ queue (redis w) = popped ++ queue (redis out.2)
    /\ length finals = length (queue_tasks popped)
    /\ Forall (fun st => st = TaskStatusCompleted \/ st = TaskStatusFailed) finals
    /\ status_writes evs = concat (zip_with entry_writes (queue_tasks popped) finals)
    /\ Forall (fun p : list Z * list Z => p.2 <> TaskStatusPending) (status_writes evs).
Proof.
  induction fuel as [|fuel IH]; intros w out; subst out.
  - exists [], [], []. cbn. rewrite app_nil_r. repeat split; auto.
  - destruct (ctx_done env (length (log w))) eqn:Hdone.
    { exists [EvDone], [], []. rewrite ProcessTasks_cancelled by exact Hdone.
      cbn. repeat split; auto. }
    destruct (redis_fault env (S (length (log w)))) as [err|] eqn:Hfault.
    { rewrite (ProcessTasks_retry _ _ _ _ _ _ err) by assumption.
      set (w0 := {| redis := redis w; log := _ |}).
      destruct (IH w0) as (evs & popped & finals & Hl & Hp & Hlen & Hfin & Hst & Hnp).
      exists ([EvDone; EvBLPop] ++ evs), popped, finals.
      split; [rewrite Hl; subst w0; cbn [log]; now rewrite <- !app_assoc|].
      split; [exact Hp|]. split; [exact Hlen|]. split; [exact Hfin|].
      rewrite status_writes_app. split; [exact Hst|exact Hnp]. }
    destruct (queue (redis w)) as [|p rest] eqn:Hq.
    { exists [EvDone; EvBLPop], [], []. rewrite ProcessTasks_wait by assumption.
      cbn. rewrite Hq. repeat split; auto. }
    destruct p as [task|raw].
    + destruct (ProcessTasks_step PrintRanges LowerCase config env fuel w task rest
                  Hdone Hfault Hq) as (w1 & tail & -> & Hq1 & _ & Hl1 & Hend).
      set (running := set_status task TaskStatusRunning _) in *.
      destruct (ends_task_final running tail Hend) as (st & Hst' & Hw).
      destruct (IH w1) as (evs & popped & finals & Hl & Hp & Hlen & Hfin & Hst & Hnp).
      exists ([EvDone; EvBLPop; EvNow;
               EvSet (task_key (ID task)) running retention;
               EvDb (DbFirstKeyword (KeywordID task))] ++ tail ++ evs),
        (Marshalled task :: popped), (st :: finals).
      change (queue_tasks (Marshalled task :: popped)) with (task :: queue_tasks popped).
      split; [rewrite Hl, Hl1; now rewrite <- !app_assoc|].
      split; [rewrite <- Hq1, Hp; reflexivity|].
      split; [cbn [length]; now rewrite Hlen|]. split; [now constructor|].
      rewrite !status_writes_app, Hw.
      split; [rewrite Hst; reflexivity|].
      apply Forall_app. split; [repeat constructor; cbn; discriminate|].
      apply Forall_app. split; [|exact Hnp].
      repeat constructor. cbn. destruct Hst' as [-> | ->]; discriminate.
    + rewrite (ProcessTasks_skip _ _ _ _ _ _ raw rest) by assumption.
      set (w0 := {| redis := _; log := _ |}).
      destruct (IH w0) as (evs & popped & finals & Hl & Hp & Hlen & Hfin & Hst & Hnp).
      exists ([EvDone; EvBLPop] ++ evs), (Malformed raw :: popped), finals.
      change (queue_tasks (Malformed raw :: popped)) with (queue_tasks popped).
      split; [rewrite Hl; subst w0; cbn [log]; now rewrite <- !app_assoc|].
      split; [cbn [app]; f_equal; exact Hp|].
      split; [exact Hlen|]. split; [exact Hfin|].
      rewrite status_writes_app. split; [exact Hst|exact Hnp].
Qed.

(** C1, as the code has it. The worker writes statuses entry by entry:
    for every task among the payloads it takes from the queue it writes
    running and then completed or failed, in the order of the queue,
    whatever was written for the id of the task before; it writes
    nothing else, so it never writes pending. When the tasks in the
    queue have distinct ids, the statuses written for an id are none,
    or running and then completed, or running and then failed; after
    pending, the status a task is enqueued with, every step is then a
    transition, and none leaves completed or failed. *)
Theorem status_writes_by_entry (PrintRanges : Z -> bool) (LowerCase : Z -> Z)
    (config : Config) (env : Env) (fuel : nat) (w : World) :
  let out := ProcessTasks PrintRanges LowerCase config env fuel w in
  let evs := drop (length (log w)) (log out.2) in
  (exists popped finals,
     queue (redis w) = popped ++ queue (redis out.2)
     /\ length finals = length (queue_tasks popped)
     /\ Forall (fun st => st = TaskStatusCompleted \/ st = TaskStatusFailed) finals
     /\ status_writes evs = concat (zip_with entry_writes (queue_tasks popped) finals))
  /\ Forall (fun p : list Z * list Z => p.2 <> TaskStatusPending) (status_writes evs)
  /\ (NoDup (queue_ids (queue (redis w))) ->
      forall taskID,
        follows (TaskStatusPending :: statuses_of taskID evs)
        /\ (statuses_of taskID evs = []
            \/ statuses_of taskID evs = [TaskStatusRunning; TaskStatusCompleted]
            \/ statuses_of taskID evs = [TaskStatusRunning; TaskStatusFailed])).
Proof.
  intros out evs.
  destruct (ProcessTasks_entries PrintRanges LowerCase config env fuel w)
    as (evs' & popped & finals & Hl & Hp & Hlen & Hfin & Hst & Hnp).
  fold out in Hl, Hp.
  assert (E : evs = evs') by (subst evs; now rewrite Hl, drop_app_length).
  rewrite E. split; [exists popped, finals; auto|]. split; [exact Hnp|].
  intros Hnd taskID.
  destruct (ProcessTasks_writes PrintRanges LowerCase config env fuel w Hnd)
    as (evs2 & Hl2 & Hst2).
  fold out in Hl2. rewrite Hl in Hl2. apply app_inv_head in Hl2. subst evs2.
  destruct (Hst2 taskID) as [->|[_ [->| ->]]].
  - split; [exact I|now left].
  - split; [|right; now left]. repeat split; constructor.
  - split; [|right; now right]. repeat split; constructor.
Qed.

Lemma status_writes_by_entry_witness :
  follows (TaskStatusPending
           :: statuses_of (lit "task_1_5")
                (drop (length (log world_two_tasks))
                   (log (ProcessTasks (fun _ => true) (fun r => r) sample_config
                           keyword_missing 3 world_two_tasks).2)))
  /\ follows (TaskStatusPending
              :: statuses_of (lit "task_2_9")
                   (drop (length (log world_two_tasks))
                      (log (ProcessTasks (fun _ => true) (fun r => r) sample_config
                              keyword_missing 3 world_two_tasks).2))).
Proof.
  assert (Hnd : NoDup (queue_ids (queue (redis world_two_tasks)))).
  { apply (bool_decide_unpack _). vm_compute. exact I. }
  destruct (status_writes_by_entry (fun _ => true) (fun r => r) sample_config
              keyword_missing 3 world_two_tasks) as (_ & _ & H).
  split.
  - apply (H Hnd (lit "task_1_5")).
  - apply (H Hnd (lit "task_2_9")).
Defined.

(** A task that was enqueued twice is processed twice: the statuses
    written for its id are running, completed, running, completed, and
    the third write leaves completed for running. *)
Lemma requeued_task_runs_again :
  let evs := drop (length (log world_requeued))
               (log (ProcessTasks (fun _ => true) (fun r => r) sample_config quiet 3
                       world_requeued).2) in
  queue_ids (queue (redis world_requeued)) = [lit "task_1_5"; lit "task_1_5"]
  /\ statuses_of (lit "task_1_5") evs
     = [TaskStatusRunning; TaskStatusCompleted; TaskStatusRunning; TaskStatusCompleted]
  /\ ~ follows (TaskStatusPending :: statuses_of (lit "task_1_5") evs).
Proof.
  intros evs.
  assert (E : statuses_of (lit "task_1_5") evs
              = [TaskStatusRunning; TaskStatusCompleted;
                 TaskStatusRunning; TaskStatusCompleted]).
  { vm_compute. reflexivity. }
  split; [vm_compute; reflexivity|]. split; [exact E|].
  rewrite E. intros (_ & _ & H & _). inversion H.
Qed.

(** ** One round of the loop, with its outcome *)





(** ** The two providers and the task *)



